(** * webpack 2.2.1, lib/Compilation.js: a shallow embedding and its properties

    The development follows the components of [Compilation]: the module
    registry ([addModule], [getModule], [findModule]), the build queue
    ([buildModule]), the graph builder ([addModuleDependencies]), the
    indexer ([assignIndex], [assignDepth]), the chunk graph
    ([removeChunkFromDependencies], [rebuildModule]), the hasher
    ([createHash]), the asset emitter ([createChunkAssets]) and the state
    resets and self checks ([unseal], [checkConstraints]).

    Conventions of the embedding.
    - A JavaScript object with identity (a module, a chunk, a callback) is a
      reference, a natural number.  Its mutable fields live in finite maps
      from references to values, one per field; a reference without an entry
      has the field at [null]/[undefined].
    - A method of a collaborator class that is not part of Compilation.js
      ([Module], [Chunk], the templates, the factories) is a variable of the
      enclosing section.
    - A plain object used as a dictionary ([{}]) is a finite map of its own
      properties; the names it inherits from [Object.prototype] are given by
      a predicate.
    - Tapable notifications that return nothing ([applyPlugins0/1/2]) are
      observers outside of the embedding: no handler is registered. *)

From stdpp Require Import gmap strings pretty list fin_maps sorting.

Abbreviation ref := nat (only parsing).   (* a module object *)
Abbreviation cref := nat (only parsing).  (* a chunk object *)

(** ** Plain objects used as dictionaries *)

Inductive property (V : Type) : Type :=
  | Own (v : V)      (* an own property, holding an object *)
  | Inherited        (* found on the prototype chain, e.g. "constructor" *)
  | Undefined.
Arguments Own {V} v.
Arguments Inherited {V}.
Arguments Undefined {V}.

(** [o[k]] for an object created by [{}]. *)
Definition get {V} (inherited : string → bool) (o : gmap string V) (k : string)
  : property V :=
  match o !! k with
  | Some v => Own v
  | None => if inherited k then Inherited else Undefined
  end.

(** Values stored in the dictionaries of Compilation.js are objects, hence
    truthy, as are the functions of [Object.prototype]. *)
Definition truthy {V} (p : property V) : bool :=
  match p with
  | Undefined => false
  | _ => true
  end.

(** ** Dependencies, errors *)

Record Dependency := mkDependency {
  dep_oid : nat;               (* identity of the dependency object *)
  dep_module : option ref;     (* d.module *)
  dep_optional : bool;         (* d.optional *)
  dep_weak : bool              (* d.weak *)
}.

#[global] Instance Dependency_eq_dec : EqDecision Dependency.
Proof. solve_decision. Defined.

Inductive Error : Type :=
  | JsError (name message : string)
  | ModuleNotFoundError (module : ref) (err : Error) (dependencies : list Dependency)
  | ChunkRenderError (chunk : cref) (file : string) (err : Error).

(** An error object together with the two properties Compilation.js assigns
    on it after construction. *)
Record ErrorObj := mkErrorObj {
  eo_error : Error;
  eo_origin : option ref;                       (* err.origin *)
  eo_dependencies : option (list Dependency)    (* err.dependencies *)
}.

Definition newError (e : Error) : ErrorObj := mkErrorObj e None None.

(** A rendered source (webpack-sources); [CachedSource] is the wrapper
    Compilation.js puts around what it caches. *)
Inductive Source :=
  | RawSource (text : string)
  | CachedSource (inner : Source).

(** What a call into a collaborator yields: a value, or an exception. *)
Inductive result (A : Type) :=
  | Ok (a : A)
  | Throw (e : Error).
Arguments Ok {A} a.
Arguments Throw {A} e.

(** ** Module registry *)

Module Registry.

(** The part of a module object [addModule] reads and writes.  [Module.js]
    is not part of the embedding: its methods are the fields of this
    interface, over an abstract store of module objects. *)
Class ModuleClass (store : Type) := {
  identifier : ref → string;                     (* module.identifier() *)
  unbuild : ref → store → store;                  (* module.unbuild() *)
  disconnect : ref → store → store;               (* module.disconnect() *)
  needRebuild : ref → store → bool;               (* module.needRebuild(fileTimestamps, contextTimestamps) *)
  get_error : ref → store → bool;                 (* module.error is truthy *)
  get_cacheable : ref → store → bool;             (* module.cacheable is truthy *)
  get_errors : ref → store → list ErrorObj;       (* module.errors *)
  get_warnings : ref → store → list ErrorObj;     (* module.warnings *)
  copy_lastId : ref → option ref → store → store  (* module.lastId = cacheModule.id; the id of
                                                     an object that is no module is undefined *)
}.

Record Compilation (store : Type) := mkCompilation {
  modules : list ref;                    (* this.modules *)
  _modules : gmap string ref;            (* this._modules *)
  cache : option (gmap string ref);      (* this.cache *)
  hasTimestamps : bool;                  (* this.fileTimestamps && this.contextTimestamps *)
  errors : list ErrorObj;                (* this.errors *)
  warnings : list ErrorObj;              (* this.warnings *)
  objects : store                        (* the module objects *)
}.
Arguments mkCompilation {store}.
Arguments modules {store}.
Arguments _modules {store}.
Arguments cache {store}.
Arguments hasTimestamps {store}.
Arguments errors {store}.
Arguments warnings {store}.
Arguments objects {store}.

Inductive AddResult :=
  | RTrue                 (* return true *)
  | RFalse                (* return false *)
  | RModule (m : ref).    (* return cacheModule *)

Section Registry.
Context {store : Type} `{ModuleClass store}.
Variable inherited : string → bool.

(** (cacheGroup || "m") + identifier *)
Definition cacheName (cacheGroup : option string) (identifier : string) : string :=
  match cacheGroup with
  | Some group => if String.eqb group "" then "m" else group
  | None => "m"
  end +:+ identifier.

(** this.cache && this.cache[cacheName] *)
Definition cacheLookup (c : Compilation store) (name : string) : property ref :=
  match cache c with
  | None => Undefined
  | Some o => get inherited o name
  end.

Definition addModule (module : ref) (cacheGroup : option string)
    (c : Compilation store) : AddResult * Compilation store :=
  let identifier := identifier module in
  if truthy (get inherited (_modules c) identifier) then (RFalse, c)
  else
    let cacheName := cacheName cacheGroup identifier in
    let fresh (objs : store) :=
      (* module.unbuild(); this._modules[identifier] = module;
         if(this.cache) this.cache[cacheName] = module; this.modules.push(module) *)
      (RTrue,
       mkCompilation
         (modules c ++ [module])
         (<[identifier := module]> (_modules c))
         ((λ o, <[cacheName := module]> o) <$> cache c)
         (hasTimestamps c)
         (errors c) (warnings c)
         (unbuild module objs)) in
    match cacheLookup c cacheName with
    | Own cacheModule =>
        let rebuild :=
          if negb (get_error cacheModule (objects c)) && get_cacheable cacheModule (objects c)
             && hasTimestamps c
          then needRebuild cacheModule (objects c)
          else true in
        if negb rebuild then
          let objs := disconnect cacheModule (objects c) in
          (RModule cacheModule,
           mkCompilation
             (modules c ++ [cacheModule])
             (<[identifier := cacheModule]> (_modules c))
             (cache c)
             (hasTimestamps c)
             (errors c ++ get_errors cacheModule objs)
             (warnings c ++ get_warnings cacheModule objs)
             objs)
        else fresh (copy_lastId module (Some cacheModule) (objects c))
    | Inherited =>
        (* a function of Object.prototype stands in for the cached module:
           its cacheable is undefined, so rebuild stays true, and
           module.lastId = cacheModule.id stores undefined *)
        fresh (copy_lastId module None (objects c))
    | Undefined => fresh (objects c)
    end.

Definition getModule (module : ref) (c : Compilation store) : property ref :=
  get inherited (_modules c) (identifier module).

Definition findModule (identifier : string) (c : Compilation store) : property ref :=
  get inherited (_modules c) identifier.

(** A sequence of [addModule] calls, each with its cache group; the
    results are dropped. *)
Definition addModules (calls : list (ref * option string)) (c : Compilation store)
    : Compilation store :=
  foldl (λ c call, (addModule call.1 call.2 c).2) c calls.

Lemma addModule_keeps_registered module cacheGroup c k a :
  _modules c !! k = Some a →
  _modules (addModule module cacheGroup c).2 !! k = Some a.
Proof.
  intros Hk. unfold addModule.
  destruct (truthy (get inherited (_modules c) (identifier module))) eqn:Ht; [done|].
  assert (identifier module ≠ k) as Hne.
  { intros Heq. unfold get in Ht. by rewrite Heq, Hk in Ht. }
  destruct (cacheLookup c _); simpl;
    repeat case_match; simpl; by rewrite ?lookup_insert_ne.
Qed.

Lemma addModules_keeps_registered calls c k a :
  _modules c !! k = Some a → _modules (addModules calls c) !! k = Some a.
Proof.
  revert c. induction calls as [|call calls IH]; intros c Hk; [done|].
  simpl. apply IH. by apply addModule_keeps_registered.
Qed.

Lemma addModule_true_registers module cacheGroup c c' :
  addModule module cacheGroup c = (RTrue, c') →
  _modules c' !! identifier module = Some module.
Proof.
  unfold addModule.
  destruct (truthy _); [done|].
  destruct (cacheLookup c _); simpl; repeat case_match;
    intros [= <-]; simpl; by rewrite lookup_insert_eq.
Qed.

(** C1.  Once [addModule A] has returned [true], any module [B] with the
    same [identifier()] is refused: after any further [addModule] calls,
    [addModule B] returns [false] and does not change the compilation, and
    both [getModule B] and [findModule] on the identifier return the
    instance [A] that was registered first. *)
Theorem addModule_same_identifier_reuses_first
    (A B : ref) (gA gB : option string) (later : list (ref * option string))
    (c cA : Compilation store) :
  identifier A = identifier B →
  addModule A gA c = (RTrue, cA) →
  let c1 := addModules later cA in
  addModule B gB c1 = (RFalse, c1) ∧
  getModule B (addModule B gB c1).2 = Own A ∧
  findModule (identifier B) (addModule B gB c1).2 = Own A ∧
  getModule A (addModule B gB c1).2 = Own A.
Proof.
  intros Hid HA c1.
  assert (_modules c1 !! identifier B = Some A) as Hreg.
  { subst c1. apply addModules_keeps_registered.
    rewrite <- Hid. by eapply addModule_true_registers. }
  assert (addModule B gB c1 = (RFalse, c1)) as HB.
  { unfold addModule, get. by rewrite Hreg. }
  rewrite HB. simpl. unfold getModule, findModule, get.
  rewrite Hid, Hreg. done.
Qed.
End Registry.

End Registry.

(** A registry over module objects without state of their own, with two
    modules of one identifier. *)
#[local] Instance unit_modules : Registry.ModuleClass unit := {|
  Registry.identifier r := if decide (r < 2) then "./a.js" else "./b.js";
  Registry.unbuild _ s := s;
  Registry.disconnect _ s := s;
  Registry.needRebuild _ _ := true;
  Registry.get_error _ _ := false;
  Registry.get_cacheable _ _ := true;
  Registry.get_errors _ _ := [];
  Registry.get_warnings _ _ := [];
  Registry.copy_lastId _ _ s := s
|}.

Definition emptyRegistry : Registry.Compilation unit :=
  Registry.mkCompilation [] ∅ (Some ∅) true [] [] tt.

Lemma addModule_same_identifier_witness :
  let c1 := Registry.addModules (λ _, false) [(2, None)]
              (Registry.addModule (λ _, false) 0 None emptyRegistry).2 in
  Registry.addModule (λ _, false) 1 None c1 = (Registry.RFalse, c1) ∧
  Registry.getModule (λ _, false) 1 (Registry.addModule (λ _, false) 1 None c1).2 = Own 0 ∧
  Registry.findModule (λ _, false) (Registry.identifier 1)
    (Registry.addModule (λ _, false) 1 None c1).2 = Own 0 ∧
  Registry.getModule (λ _, false) 0 (Registry.addModule (λ _, false) 1 None c1).2 = Own 0.
Proof.
  apply (Registry.addModule_same_identifier_reuses_first (λ _, false) 0 1 None None
           [(2, None)] emptyRegistry
           (Registry.addModule (λ _, false) 0 None emptyRegistry).2);
    reflexivity.
Defined.

(** ** Graph builder: the factory callback of [addModuleDependencies] *)

Module GraphBuilder.

Record Compilation := mkCompilation {
  errors : list ErrorObj;      (* this.errors *)
  warnings : list ErrorObj     (* this.warnings *)
}.

(** What a step of the iterator does with the [callback] async.forEach
    handed to it, or the exception it raises. *)
Inductive Outcome :=
  | Callback (err : option ErrorObj)    (* callback(err) / callback() *)
  | Throws (e : Error).

Definition nullThis : Error :=
  JsError "TypeError" "Cannot read property of null".

Section FactoryCallback.
(** The rest of [factoryCallback], after a module was produced:
    [addModule], [buildModule] and the recursion into
    [processModuleDependencies]. *)
Variable resolved :
  ref → ref → list Dependency → Compilation → Outcome * Compilation.


Definition setOrigin (module : ref) (err : ErrorObj) : ErrorObj :=
  mkErrorObj (eo_error err) (Some module) (eo_dependencies err).

(** [_this] is the closure variable of [addModuleDependencies]: the
    compilation, or [null] once the final callback of async.forEach has
    run. *)
Definition errorAndCallback (module : ref) (bail : bool) (err : ErrorObj)
    (_this : option Compilation) : Outcome * option Compilation :=
  let err := setOrigin module err in
  match _this with
  | None => (Throws nullThis, None)
  | Some c =>
      (Callback (if bail then Some err else None),
       Some (mkCompilation (errors c ++ [err]) (warnings c)))
  end.






End FactoryCallback.

End GraphBuilder.

Definition optionalDep : Dependency := mkDependency 0 None true false.
Definition requiredDep : Dependency := mkDependency 1 None false false.


(** ** Build queue: [buildModule] *)

Module BuildQueue.

Abbreviation aref := nat (only parsing).  (* an array object *)
Abbreviation cb := nat (only parsing).    (* a callback function *)

(** The arrow function [buildModule] passes to [module.build]: it closes
    over [module], the array [building], [optional], [origin] and
    [dependencies]. *)
Record Closure := mkClosure {
  cl_module : ref;
  cl_building : aref;
  cl_optional : bool;
  cl_origin : option ref;
  cl_dependencies : option (list Dependency)
}.

Record State := mkState {
  building : gmap ref aref;               (* module.building; no entry: undefined *)
  arrays : gmap aref (list cb);           (* the arrays of pending callbacks *)
  errors : list ErrorObj;                 (* this.errors *)
  warnings : list ErrorObj;               (* this.warnings *)
  inflight : list Closure;                (* handed to module.build and not called yet *)
  builds : list ref;                      (* the calls module.build(...) made so far *)
  invoked : list (cb * option Error)      (* the calls cb(err) made so far *)
}.

Definition init : State := mkState ∅ ∅ [] [] [] [] [].

Definition buildModule (module : ref) (optional : bool) (origin : option ref)
    (dependencies : option (list Dependency)) (thisCallback : cb) (s : State) : State :=
  match building s !! module with
  | Some a =>
      (* if(module.building) return module.building.push(thisCallback); *)
      mkState (building s) (alter (λ q, q ++ [thisCallback]) a (arrays s))
        (errors s) (warnings s) (inflight s) (builds s) (invoked s)
  | None =>
      (* const building = module.building = [thisCallback]; module.build(..., closure) *)
      let a := fresh (dom (arrays s)) in
      mkState (<[module := a]> (building s)) (<[a := [thisCallback]]> (arrays s))
        (errors s) (warnings s)
        (inflight s ++ [mkClosure module a optional origin dependencies])
        (builds s ++ [module]) (invoked s)
  end.

(** err.origin = origin; err.dependencies = dependencies *)
Definition tag (k : Closure) (err : ErrorObj) : ErrorObj :=
  mkErrorObj (eo_error err) (cl_origin k) (cl_dependencies k).

(** The closure [k] called by [module.build] with [error], when the build
    left [merrors] in module.errors and [mwarnings] in module.warnings.
    It ends in [callback(error)] or [callback()]: module.building is reset
    and every function of the array [building] is called.  The sort of
    module.dependencies in between reorders a field of the module object
    that is no part of this state. *)
Definition buildCallback (k : Closure) (merrors mwarnings : list ErrorObj)
    (error : option Error) (s : State) : State :=
  let errs := tag k <$> merrors in
  let wars := tag k <$> mwarnings in
  mkState (delete (cl_module k) (building s)) (arrays s)
    (if cl_optional k then errors s else errors s ++ errs)
    ((if cl_optional k then warnings s ++ errs else warnings s) ++ wars)
    (inflight s) (builds s)
    (invoked s ++ ((λ c, (c, error)) <$> default [] (arrays s !! cl_building k))).

Inductive event :=
  | Build (module : ref) (optional : bool) (origin : option ref)
      (dependencies : option (list Dependency)) (thisCallback : cb)
  | Done (i : nat) (merrors mwarnings : list ErrorObj) (error : option Error).

(** One event: a call of [buildModule], or [module.build] calling back the
    [i]-th closure it still holds (each closure is called once). *)
Definition fire (e : event) (s : State) : option State :=
  match e with
  | Build m o org deps c => Some (buildModule m o org deps c s)
  | Done i merrors mwarnings error =>
      k ← inflight s !! i;
      let s' := buildCallback k merrors mwarnings error s in
      Some (mkState (building s') (arrays s') (errors s') (warnings s')
              (delete i (inflight s)) (builds s') (invoked s'))
  end.

Fixpoint exec (t : list event) (s : State) : option State :=
  match t with
  | [] => Some s
  | e :: t => s' ← fire e s; exec t s'
  end.

(** The callbacks handed to [buildModule] in a trace. *)
Definition submitted (t : list event) : list cb :=
  omap (λ e, match e with Build _ _ _ _ c => Some c | Done _ _ _ _ => None end) t.

Definition queue (s : State) (k : Closure) : list cb :=
  default [] (arrays s !! cl_building k).

(** The callbacks waiting for a build in flight. *)
Definition queued (s : State) : list cb := mbind (queue s) (inflight s).

Record inv (s : State) : Prop := mkInv {
  inv_building : ∀ k, k ∈ inflight s → building s !! cl_module k = Some (cl_building k);
  inv_inflight : ∀ m a, building s !! m = Some a →
                   ∃ k, k ∈ inflight s ∧ cl_module k = m ∧ cl_building k = a;
  inv_modules : NoDup (cl_module <$> inflight s);
  inv_distinct : NoDup (cl_building <$> inflight s);
  inv_arrays : ∀ k, k ∈ inflight s → cl_building k ∈ dom (arrays s)
}.

Lemma inv_init : inv init.
Proof.
  split; simpl.
  - intros k Hk. by apply elem_of_nil in Hk.
  - intros m a Hm. by rewrite lookup_empty in Hm.
  - constructor.
  - constructor.
  - intros k Hk. by apply elem_of_nil in Hk.
Qed.

Lemma queued_ext (a1 a2 : gmap aref (list cb)) (l : list Closure) :
  (∀ k, k ∈ l → a2 !! cl_building k = a1 !! cl_building k) →
  l ≫= (λ k, default [] (a2 !! cl_building k))
  = l ≫= (λ k, default [] (a1 !! cl_building k)).
Proof.
  intros Hext. induction l as [|k l IH]; [done|].
  rewrite !bind_cons, Hext by apply list_elem_of_here.
  f_equal. apply IH. intros k' Hk'. apply Hext. by apply list_elem_of_further.
Qed.

Lemma queued_push (arr : gmap aref (list cb)) (l : list Closure) k c :
  NoDup (cl_building <$> l) → k ∈ l → cl_building k ∈ dom arr →
  l ≫= (λ k', default [] (alter (λ q, q ++ [c]) (cl_building k) arr !! cl_building k'))
  ≡ₚ (l ≫= (λ k', default [] (arr !! cl_building k'))) ++ [c].
Proof.
  intros Hnd Hk [q Hq]%elem_of_dom.
  induction l as [|k0 l IH]; [by apply elem_of_nil in Hk|].
  simpl in Hnd. apply NoDup_cons in Hnd as [Hk0 Hnd].
  rewrite !bind_cons.
  apply elem_of_cons in Hk as [<-|Hk].
  - rewrite lookup_alter_eq, Hq. simpl.
    rewrite (queued_ext arr).
    + rewrite <- !(assoc (++)). f_equiv. apply Permutation_app_comm.
    + intros k' Hk'. apply lookup_alter_ne. intros Heq. apply Hk0.
      rewrite Heq. by apply list_elem_of_fmap_2.
  - rewrite lookup_alter_ne.
    + rewrite <- (assoc (++)). f_equiv. by apply IH.
    + intros Heq. apply Hk0. rewrite <- Heq. by apply list_elem_of_fmap_2.
Qed.

Lemma buildModule_inv m o org deps c s : inv s → inv (buildModule m o org deps c s).
Proof.
  intros [Hb Hi Hm Hd Ha]. unfold buildModule.
  destruct (building s !! m) as [a|] eqn:Hbm; split; simpl; auto.
  - intros k Hk. rewrite dom_alter_L. auto.
  - intros k [Hk| ->%list_elem_of_singleton]%elem_of_app; simpl.
    + rewrite lookup_insert_ne; [auto|]. intros Heq. apply Hb in Hk. congruence.
    + by rewrite lookup_insert_eq.
  - intros m' a' Hm'. apply lookup_insert_Some in Hm' as [[<- <-]|[Hne Hm']].
    + eexists. split; [apply elem_of_app; right; apply list_elem_of_here|done].
    + destruct (Hi _ _ Hm') as (k & Hk & ? & ?).
      exists k. split; [apply elem_of_app; by left|done].
  - rewrite fmap_app. apply NoDup_app. split_and!; [done| |apply NoDup_singleton].
    intros m' (k & Hm' & Hk)%list_elem_of_fmap Heq%list_elem_of_singleton.
    apply Hb in Hk. simpl in *. congruence.
  - rewrite fmap_app. apply NoDup_app. split_and!; [done| |apply NoDup_singleton].
    intros a' (k & Ha' & Hk)%list_elem_of_fmap Heq%list_elem_of_singleton.
    simpl in Heq. apply Ha in Hk. rewrite <- Ha', Heq in Hk. by apply is_fresh in Hk.
  - intros k [Hk| ->%list_elem_of_singleton]%elem_of_app; rewrite dom_insert_L; simpl.
    + apply elem_of_union. right. auto.
    + apply elem_of_union. left. by apply elem_of_singleton.
Qed.

Lemma delete_lookup_middle {A} (l : list A) i x :
  l !! i = Some x → l = take i l ++ x :: drop (S i) l ∧ delete i l = take i l ++ drop (S i) l.
Proof. intros Hi. by rewrite take_drop_middle, delete_take_drop. Qed.

Lemma fire_inv e s s' : inv s → fire e s = Some s' → inv s'.
Proof.
  intros Hinv. destruct e as [m o org deps c|i merrors mwarnings error]; simpl.
  - intros [= <-]. by apply buildModule_inv.
  - destruct (inflight s !! i) as [k|] eqn:Hi; simpl; [|done]. intros [= <-].
    destruct Hinv as [Hb Hin Hm Hd Ha].
    destruct (delete_lookup_middle _ _ _ Hi) as [Hl Hdel].
    assert (k ∈ inflight s) as Hk by by eapply list_elem_of_lookup_2.
    assert (∀ k', k' ∈ delete i (inflight s) → k' ∈ inflight s ∧ cl_module k' ≠ cl_module k)
      as Hother.
    { intros k' Hk'. split; [by eapply list_elem_of_delete_inv|].
      intros Heq. rewrite Hl, fmap_app, fmap_cons in Hm.
      apply NoDup_app in Hm as (_ & Hm1 & Hm2). apply NoDup_cons in Hm2 as [Hm2 _].
      rewrite Hdel in Hk'. apply elem_of_app in Hk' as [Hk'|Hk'].
      - eapply Hm1; [by apply list_elem_of_fmap_2|]. rewrite Heq. apply list_elem_of_here.
      - apply Hm2. rewrite <- Heq. by apply list_elem_of_fmap_2. }
    split; simpl.
    + intros k' [Hk' Hne]%Hother. rewrite lookup_delete_ne by done. auto.
    + intros m a [Hne Hma]%lookup_delete_Some.
      destruct (Hin _ _ Hma) as (k' & Hk' & Hm' & Ha').
      exists k'. split; [|done].
      rewrite Hl in Hk'. rewrite Hdel.
      apply elem_of_app in Hk' as [Hk'|[->|Hk']%elem_of_cons];
        [apply elem_of_app; by left|done|apply elem_of_app; by right].
    + rewrite Hdel. rewrite Hl in Hm. rewrite fmap_app in *. rewrite fmap_cons in Hm.
      apply NoDup_app in Hm as (H1 & H2 & [_ H3]%NoDup_cons).
      apply NoDup_app. split_and!; [done| |done].
      intros x Hx Hx'. eapply H2; [done|]. by apply list_elem_of_further.
    + rewrite Hdel. rewrite Hl in Hd. rewrite fmap_app in *. rewrite fmap_cons in Hd.
      apply NoDup_app in Hd as (H1 & H2 & [_ H3]%NoDup_cons).
      apply NoDup_app. split_and!; [done| |done].
      intros x Hx Hx'. eapply H2; [done|]. by apply list_elem_of_further.
    + intros k' [Hk' _]%Hother. auto.
Qed.

(** Every callback handed in so far has been called, or waits in the array
    of a build in flight; none is in both, none twice. *)
Definition accounted (sub : list cb) (s : State) : Prop :=
  sub ≡ₚ (invoked s).*1 ++ queued s.

Lemma fst_pair_fmap {A B} (l : list A) (b : B) : ((λ a, (a, b)) <$> l).*1 = l.
Proof. induction l as [|a l IH]; simpl; [done|by f_equal]. Qed.

Lemma fire_accounted e s s' sub :
  inv s → accounted sub s → fire e s = Some s' → accounted (sub ++ submitted [e]) s'.
Proof.
  intros Hinv Hacc. unfold accounted, queued, queue in *.
  destruct e as [m o org deps c|i merrors mwarnings error]; simpl.
  - intros [= <-]. unfold buildModule.
    destruct (building s !! m) as [a|] eqn:Hbm; simpl.
    + destruct (inv_inflight _ Hinv _ _ Hbm) as (k & Hk & _ & <-).
      rewrite queued_push; [|apply Hinv|done|by apply Hinv].
      rewrite Hacc. by rewrite (assoc (++)).
    + rewrite bind_app, bind_singleton. simpl. rewrite lookup_insert_eq. simpl.
      rewrite (queued_ext (arrays s)).
      * rewrite Hacc. by rewrite (assoc (++)).
      * intros k Hk. apply lookup_insert_ne. intros Heq.
        apply (inv_arrays _ Hinv) in Hk. rewrite <- Heq in Hk. by apply is_fresh in Hk.
  - destruct (inflight s !! i) as [k|] eqn:Hi; simpl; [|done]. intros [= <-]. simpl.
    destruct (delete_lookup_middle _ _ _ Hi) as [Hl Hdel].
    rewrite app_nil_r, Hacc, Hdel. rewrite Hl at 1.
    rewrite fmap_app, !bind_app, bind_cons, fst_pair_fmap.
    rewrite <- !(assoc (++)). f_equiv.
    rewrite (assoc (++) _ _ (drop _ _ ≫= _)).
    rewrite (Permutation_app_comm (take _ _ ≫= _)).
    by rewrite <- (assoc (++)).
Qed.

Lemma accounted_init : accounted [] init.
Proof. unfold accounted. simpl. constructor. Qed.

Lemma exec_app t1 t2 s : exec (t1 ++ t2) s = s' ← exec t1 s; exec t2 s'.
Proof.
  revert s. induction t1 as [|e t1 IH]; intros s; simpl; [done|].
  destruct (fire e s); simpl; [apply IH|done].
Qed.

Lemma exec_inv t s s' sub :
  inv s → accounted sub s → exec t s = Some s' →
  inv s' ∧ accounted (sub ++ submitted t) s'.
Proof.
  revert s sub. induction t as [|e t IH]; intros s sub Hinv Hacc; simpl.
  - intros [= <-]. by rewrite app_nil_r.
  - destruct (fire e s) as [s1|] eqn:Hfire; simpl; [|done]. intros Hexec.
    destruct (IH s1 (sub ++ submitted [e])) as [Hinv' Hacc']; [| |done|].
    + by eapply fire_inv.
    + by eapply fire_accounted.
    + split; [done|]. unfold submitted in *.
      by rewrite <- (assoc (++)), <- omap_app in Hacc'.
Qed.

(** Calls of [buildModule] for a module whose build is in flight. *)
Definition requests (m : ref) (es : list event) : Prop :=
  Forall (λ e, ∃ o org deps c, e = Build m o org deps c) es.

Lemma exec_requests m a q es s :
  requests m es → building s !! m = Some a → arrays s !! a = Some q →
  exec es s = Some (mkState (building s) (<[a := q ++ submitted es]> (arrays s))
                      (errors s) (warnings s) (inflight s) (builds s) (invoked s)).
Proof.
  intros Hes. revert s q. induction Hes as [|e es (o & org & deps & c & ->) _ IH];
    intros s q Hb Ha; simpl.
  - rewrite app_nil_r, insert_id by done. by destruct s.
  - unfold buildModule at 1. rewrite Hb.
    rewrite (IH _ (q ++ [c])); simpl; [|done|by rewrite lookup_alter_eq, Ha].
    do 2 f_equal. rewrite <- (assoc (++)). simpl.
    apply map_eq. intros a'. destruct (decide (a = a')) as [<-|Hne].
    + by rewrite !lookup_insert_eq.
    + by rewrite !lookup_insert_ne, lookup_alter_ne.
Qed.

(** C7.  (1) A call of [buildModule] for a module whose [building] is set
    appends its callback to that array and does nothing else: no call of
    module.build, no callback called.  (2) In every state the events can
    lead to, no module has two builds in flight, [building] is set exactly
    for the modules with a build in flight, and the callbacks handed in so
    far are, counted with multiplicity, those already called together with
    those waiting in the array of a build in flight.  (3) When the build in
    flight calls back, every callback of its array is called once, in
    order, with the error of that build, and [building] is reset.  (4) So a
    first request followed by further requests for the same module and the
    completion makes one call of module.build and calls the callbacks of all
    the requests once each with the result. *)
Theorem buildModule_one_build_in_flight :
  (∀ s m a o org deps c, building s !! m = Some a →
     buildModule m o org deps c s
     = mkState (building s) (alter (λ q, q ++ [c]) a (arrays s))
         (errors s) (warnings s) (inflight s) (builds s) (invoked s)) ∧
  (∀ t s, exec t init = Some s →
     NoDup (cl_module <$> inflight s) ∧
     (∀ m, is_Some (building s !! m) ↔ m ∈ cl_module <$> inflight s) ∧
     submitted t ≡ₚ (invoked s).*1 ++ queued s) ∧
  (∀ s i k merrors mwarnings error s',
     inflight s !! i = Some k →
     fire (Done i merrors mwarnings error) s = Some s' →
     invoked s' = invoked s ++ ((λ c, (c, error)) <$> queue s k) ∧
     building s' !! cl_module k = None ∧
     builds s' = builds s ∧
     inflight s' = delete i (inflight s)) ∧
  (∀ t s m o org deps c es merrors mwarnings error,
     exec t init = Some s → building s !! m = None → requests m es →
     ∃ s', exec (Build m o org deps c :: es
                   ++ [Done (length (inflight s)) merrors mwarnings error]) s = Some s' ∧
       builds s' = builds s ++ [m] ∧
       invoked s' = invoked s ++ ((λ c, (c, error)) <$> c :: submitted es) ∧
       inflight s' = inflight s ∧
       building s' = building s).
Proof.
  split_and!.
  - intros s m a o org deps c Hb. unfold buildModule. by rewrite Hb.
  - intros t s Hexec.
    destruct (exec_inv t init s []) as [Hinv Hacc]; [apply inv_init|apply accounted_init|done|].
    split_and!; [apply Hinv| |done].
    intros m. split.
    + intros [a Ha]. destruct (inv_inflight _ Hinv _ _ Ha) as (k & Hk & <- & _).
      by apply list_elem_of_fmap_2.
    + intros (k & -> & Hk)%list_elem_of_fmap. eexists. by apply Hinv.
  - intros s i k merrors mwarnings error s' Hi. simpl. rewrite Hi. simpl.
    intros [= <-]. simpl. by rewrite lookup_delete_eq.
  - intros t s m o org deps c es merrors mwarnings error Hexec Hb Hes.
    destruct (exec_inv t init s []) as [Hinv _]; [apply inv_init|apply accounted_init|done|].
    set (a := fresh (dom (arrays s))).
    set (k := mkClosure m a o org deps).
    change (Build m o org deps c :: es ++ [Done (length (inflight s)) merrors mwarnings error])
      with ([Build m o org deps c] ++ es ++ [Done (length (inflight s)) merrors mwarnings error]).
    rewrite exec_app. simpl. unfold buildModule. rewrite Hb. simpl. fold a. fold k.
    rewrite exec_app.
    rewrite (exec_requests m a [c] es); simpl;
      [|done|by rewrite lookup_insert_eq|by rewrite lookup_insert_eq].
    rewrite lookup_app_r, Nat.sub_diag by done. simpl.
    eexists. split; [done|]. simpl. split_and!.
    + done.
    + by rewrite lookup_insert_eq.
    + rewrite delete_take_drop, take_app_length.
      replace (S (length (inflight s))) with (length (inflight s ++ [k]))
        by (rewrite length_app; simpl; lia).
      by rewrite drop_all, app_nil_r.
    + rewrite delete_insert_eq. by apply delete_id.
Qed.

End BuildQueue.

Lemma buildModule_one_build_in_flight_witness :
  let out := JsError "ModuleBuildError" "Module build failed" in
  ∃ s', BuildQueue.exec
          (BuildQueue.Build 5 false None None 10
             :: [BuildQueue.Build 5 true (Some 3) None 11]
             ++ [BuildQueue.Done 0 [] [] (Some out)]) BuildQueue.init = Some s' ∧
    BuildQueue.builds s' = [5] ∧
    BuildQueue.invoked s' = [(10, Some out); (11, Some out)] ∧
    BuildQueue.inflight s' = [] ∧
    BuildQueue.building s' = ∅.
Proof.
  intros out.
  apply (proj2 (proj2 (proj2 BuildQueue.buildModule_one_build_in_flight))
           [] BuildQueue.init 5 false None None 10
           [BuildQueue.Build 5 true (Some 3) None 11] [] [] (Some out));
    [reflexivity|reflexivity|].
  repeat constructor. by eexists _, _, _, _.
Defined.

(** ** Self check: [checkConstraints] *)

Module SelfCheck.

(** module.id: null until assigned, then a number or a string. *)
Inductive Id :=
  | IdNull
  | IdNum (n : nat)
  | IdStr (s : string).

(** The property name an id is converted to in [usedIds[moduleId]]. *)
Definition idKey (id : Id) : string :=
  match id with
  | IdNull => "null"
  | IdNum n => pretty n
  | IdStr s => s
  end.

Section CheckConstraints.
Variable inherited : string → bool.
Variable chunk_checkConstraints : cref → option Error.  (* chunk.checkConstraints(), Some: it throws *)
Variable debugId : cref → nat.                           (* chunk.debugId *)
Variable module_id : gmap ref Id.                        (* module.id; no entry: null *)

(** chunks.indexOf(chunk) *)
Fixpoint indexOf (chunks : list cref) (chunk : cref) : option nat :=
  match chunks with
  | [] => None
  | c :: chunks =>
      if decide (c = chunk) then Some 0 else S <$> indexOf chunks chunk
  end.

(** The first loop.  [usedIds] is the object the function creates with
    [{}]; the loop reads it and no statement of the function writes it. *)
Fixpoint checkModules (usedIds : gmap string bool) (modules : list ref) : option Error :=
  match modules with
  | [] => None
  | m :: modules =>
      let moduleId := default IdNull (module_id !! m) in
      if truthy (get inherited usedIds (idKey moduleId))
      then Some (JsError "Error" ("checkConstraints: duplicate module id " +:+ idKey moduleId))
      else checkModules usedIds modules
  end.

(** The second loop, from position [indexChunk] on. *)
Fixpoint checkChunks (chunks : list cref) (indexChunk : nat) (rest : list cref)
    : option Error :=
  match rest with
  | [] => None
  | chunk :: rest =>
      if decide (indexOf chunks chunk = Some indexChunk) then
        match chunk_checkConstraints chunk with
        | Some e => Some e
        | None => checkChunks chunks (S indexChunk) rest
        end
      else Some (JsError "Error"
                   ("checkConstraints: duplicate chunk in compilation " +:+ pretty (debugId chunk)))
  end.

(** [Some e]: the function throws [e]; [None]: it returns. *)
Definition checkConstraints (modules : list ref) (chunks : list cref) : option Error :=
  match checkModules ∅ modules with
  | Some e => Some e
  | None => checkChunks chunks 0 chunks
  end.

(** Whatever the ids of the modules are, the first loop throws only on an
    id whose name is inherited from Object.prototype. *)
Lemma checkModules_empty modules :
  (∀ m, m ∈ modules → inherited (idKey (default IdNull (module_id !! m))) = false) →
  checkModules ∅ modules = None.
Proof.
  induction modules as [|m modules IH]; intros Hin; simpl; [done|].
  unfold get. rewrite lookup_empty, (Hin m) by apply list_elem_of_here. simpl.
  apply IH. intros m' Hm'. apply Hin. by apply list_elem_of_further.
Qed.
Lemma indexOf_fresh pre chunk rest :
  chunk ∉ pre → indexOf (pre ++ chunk :: rest) chunk = Some (length pre).
Proof.
  induction pre as [|c pre IH]; simpl; intros Hpre.
  - by rewrite decide_True.
  - apply not_elem_of_cons in Hpre as [Hne Hpre].
    rewrite decide_False by done. by rewrite IH.
Qed.

Lemma indexOf_seen pre chunk rest i :
  chunk ∈ pre → indexOf (pre ++ rest) chunk = Some i → i < length pre.
Proof.
  revert i. induction pre as [|c pre IH]; simpl; intros i Hpre.
  - by apply elem_of_nil in Hpre.
  - destruct (decide (c = chunk)) as [->|Hne]; [intros [= <-]; lia|].
    apply elem_of_cons in Hpre as [->|Hpre]; [done|].
    destruct (indexOf (pre ++ rest) chunk) as [j|] eqn:Hj; [|done].
    intros [= <-]. specialize (IH j Hpre eq_refl). lia.
Qed.

(** The second loop throws exactly when a chunk object occurs twice,
    provided the checks of the chunks themselves pass. *)
Lemma checkChunks_NoDup pre rest :
  (∀ c, chunk_checkConstraints c = None) → NoDup pre →
  checkChunks (pre ++ rest) (length pre) rest = None ↔ NoDup (pre ++ rest).
Proof.
  intros Hchunk. revert pre. induction rest as [|c rest IH]; intros pre Hpre; simpl.
  - by rewrite app_nil_r.
  - destruct (decide (c ∈ pre)) as [Hin|Hout].
    + rewrite decide_False.
      * split; [done|]. intros [_ [Hnot _]]%NoDup_app. exfalso.
        eapply Hnot; [done|apply list_elem_of_here].
      * intros Heq. apply indexOf_seen in Heq; [lia|done].
    + rewrite decide_True by by apply indexOf_fresh.
      rewrite Hchunk. specialize (IH (pre ++ [c])).
      rewrite length_app, Nat.add_1_r, <- (assoc (++)) in IH. apply IH.
      apply NoDup_app. split_and!; [done| |apply NoDup_singleton].
      intros x Hx ->%list_elem_of_singleton. done.
Qed.

(** What [checkConstraints] does check: for modules whose ids are not
    names inherited from Object.prototype, whatever these ids are, and
    chunks whose own checks pass, it throws exactly when a chunk object
    occurs twice in this.chunks. *)
Lemma checkConstraints_checks_chunks_only modules chunks :
  (∀ m, m ∈ modules → inherited (idKey (default IdNull (module_id !! m))) = false) →
  (∀ c, chunk_checkConstraints c = None) →
  checkConstraints modules chunks = None ↔ NoDup chunks.
Proof.
  intros Hids Hchunk. unfold checkConstraints. rewrite checkModules_empty by done.
  apply (checkChunks_NoDup [] chunks Hchunk). constructor.
Qed.
End CheckConstraints.

(** The property names every object inherits from Object.prototype. *)
Definition objectPrototype (k : string) : bool :=
  bool_decide (k ∈ ["constructor"; "hasOwnProperty"; "isPrototypeOf";
                    "propertyIsEnumerable"; "toLocaleString"; "toString"; "valueOf";
                    "__proto__"; "__defineGetter__"; "__defineSetter__";
                    "__lookupGetter__"; "__lookupSetter__"]).

(** C4, on the code: two distinct modules, 0 and 1, both with id 1, and no
    chunk.  [checkConstraints] returns without an exception. *)
Theorem checkConstraints_misses_duplicate_module_id :
  checkConstraints objectPrototype (λ _, None) (λ c, c)
    {[0 := IdNum 1; 1 := IdNum 1]} [0; 1] [] = None.
Proof. vm_compute. reflexivity. Qed.

End SelfCheck.

(** ** Resetting the chunk side of a compilation: [unseal] *)

Module Unseal.

Abbreviation loc := nat (only parsing).   (* an array or a dictionary object *)

(** The arrays and dictionaries the reset fields refer to. *)
Inductive element :=
  | AChunk (chunk : cref)
  | AFile (name : string).

Inductive object :=
  | Array (elements : list element)
  | NamedChunks (byName : gmap string cref)
  | Assets (byFile : gmap string Source).

Record Compilation (store : Type) := mkCompilation {
  entries : list ref;                          (* this.entries *)
  preparedChunks : list (string * option ref); (* this.preparedChunks: name and module of each slot *)
  chunks : loc;                                (* this.chunks, an array *)
  namedChunks : loc;                           (* this.namedChunks, a dictionary *)
  modules : list ref;                          (* this.modules *)
  _modules : gmap string ref;                  (* this._modules *)
  additionalChunkAssets : loc;                 (* this.additionalChunkAssets, an array *)
  assets : loc;                                (* this.assets, a dictionary *)
  errors : list ErrorObj;                      (* this.errors *)
  warnings : list ErrorObj;                    (* this.warnings *)
  heap : gmap loc object;                      (* the arrays and dictionaries *)
  objects : store                              (* the module objects *)
}.
Arguments mkCompilation {store}.
Arguments entries {store}.
Arguments preparedChunks {store}.
Arguments chunks {store}.
Arguments namedChunks {store}.
Arguments modules {store}.
Arguments _modules {store}.
Arguments additionalChunkAssets {store}.
Arguments assets {store}.
Arguments errors {store}.
Arguments warnings {store}.
Arguments heap {store}.
Arguments objects {store}.

Section Unseal.
Context {store : Type}.
Variable module_unseal : ref → store → store.   (* module.unseal() *)

Definition unseal (c : Compilation store) : Compilation store :=
  (* this.chunks.length = 0; *)
  let h1 := <[chunks c := Array []]> (heap c) in
  (* this.namedChunks = {}; *)
  let named := fresh (dom h1) in
  let h2 := <[named := NamedChunks ∅]> h1 in
  (* this.additionalChunkAssets.length = 0; *)
  let h3 := <[additionalChunkAssets c := Array []]> h2 in
  (* this.assets = {}; *)
  let assets := fresh (dom h3) in
  let h4 := <[assets := Assets ∅]> h3 in
  (* this.modules.forEach(module => module.unseal()); *)
  let objs := foldl (λ o m, module_unseal m o) (objects c) (modules c) in
  mkCompilation (entries c) (preparedChunks c) (chunks c) named (modules c)
    (_modules c) (additionalChunkAssets c) assets (errors c) (warnings c) h4 objs.

(** C10.  Let the two array fields refer to existing arrays.  After
    [unseal] this.chunks and this.additionalChunkAssets are the same
    objects as before, now empty; this.namedChunks and this.assets are
    objects that did not exist before, distinct from each other and empty,
    and no other array or dictionary is written, the replaced dictionaries
    included.  this.modules, this._modules, this.errors, this.warnings,
    this.entries and this.preparedChunks are what they were, and the
    module objects went through module.unseal(), once for each element of
    this.modules, in order. *)
Theorem unseal_resets_chunk_side (c : Compilation store) :
  chunks c ∈ dom (heap c) →
  additionalChunkAssets c ∈ dom (heap c) →
  let c' := unseal c in
  chunks c' = chunks c ∧
  heap c' !! (chunks c') = Some (Array []) ∧
  additionalChunkAssets c' = additionalChunkAssets c ∧
  heap c' !! (additionalChunkAssets c') = Some (Array []) ∧
  (namedChunks c' ∉ dom (heap c)) ∧
  heap c' !! (namedChunks c') = Some (NamedChunks ∅) ∧
  (assets c' ∉ dom (heap c)) ∧
  heap c' !! (assets c') = Some (Assets ∅) ∧
  namedChunks c' ≠ assets c' ∧
  (∀ l, l ≠ chunks c → l ≠ additionalChunkAssets c → l ∈ dom (heap c) →
        heap c' !! l = heap c !! l) ∧
  modules c' = modules c ∧
  _modules c' = _modules c ∧
  errors c' = errors c ∧
  warnings c' = warnings c ∧
  entries c' = entries c ∧
  preparedChunks c' = preparedChunks c ∧
  objects c' = foldl (λ o m, module_unseal m o) (objects c) (modules c).
Proof.
  intros Hchunks Hadditional c'. subst c'. unfold unseal. simpl.
  set (h1 := <[chunks c := Array []]> (heap c)).
  set (named := fresh (dom h1)).
  set (h2 := <[named := NamedChunks ∅]> h1).
  set (h3 := <[additionalChunkAssets c := Array []]> h2).
  set (assets' := fresh (dom h3)).
  assert (named ∉ dom h1) as Hnamed by apply is_fresh.
  assert (assets' ∉ dom h3) as Hassets by apply is_fresh.
  assert (dom h1 = {[chunks c]} ∪ dom (heap c)) as Hd1 by apply dom_insert_L.
  assert (dom h3 = {[additionalChunkAssets c]} ∪ ({[named]} ∪ dom h1)) as Hd3.
  { unfold h3, h2. by rewrite !dom_insert_L. }
  assert (∀ l, l ∈ dom (heap c) → l ∈ dom h1) as Hsub1.
  { intros l Hl. rewrite Hd1. apply elem_of_union. by right. }
  assert (∀ l, l ∈ dom h1 → l ∈ dom h3) as Hsub3.
  { intros l Hl. rewrite Hd3, !elem_of_union. auto. }
  assert (named ∈ dom h3) as Hnamed3.
  { rewrite Hd3, !elem_of_union, !elem_of_singleton. auto. }
  assert (chunks c ∈ dom h1) as Hchunks1 by auto.
  assert (named ≠ chunks c) as Hn1 by congruence.
  assert (named ≠ additionalChunkAssets c) as Hn2.
  { intros Heq. apply Hnamed. rewrite Heq. auto. }
  assert (assets' ≠ chunks c) as Ha1.
  { intros Heq. apply Hassets. rewrite Heq. auto. }
  assert (assets' ≠ additionalChunkAssets c) as Ha2.
  { intros Heq. apply Hassets. rewrite Heq. auto. }
  assert (assets' ≠ named) as Ha3 by congruence.
  clearbody named assets'.
  split_and!; try done.
  - rewrite lookup_insert_ne by done. unfold h3, h2, h1.
    destruct (decide (additionalChunkAssets c = chunks c)) as [->|Hne].
    + by rewrite lookup_insert_eq.
    + do 2 rewrite lookup_insert_ne by done. by rewrite lookup_insert_eq.
  - rewrite lookup_insert_ne by done. unfold h3. by rewrite lookup_insert_eq.
  - intros Hin. apply Hnamed. auto.
  - rewrite lookup_insert_ne by done. unfold h3, h2.
    by rewrite lookup_insert_ne, lookup_insert_eq.
  - intros Hin. apply Hassets. auto.
  - by rewrite lookup_insert_eq.
  - intros l Hl1 Hl2 Hl. unfold h3, h2, h1.
    rewrite !lookup_insert_ne; [done|done| |done|].
    + intros ->. auto.
    + intros ->. auto.
Qed.
End Unseal.

End Unseal.

(** A sealed compilation with one chunk named main, one asset and two
    modules; the module objects are represented by the list of modules that
    went through module.unseal(). *)
Definition sealedCompilation : Unseal.Compilation (list ref) :=
  Unseal.mkCompilation [0] [("main", Some 0)] 0 1 [0; 1] {[ "./a.js" := 0; "./b.js" := 1 ]}
    2 3 [] []
    {[ 0 := Unseal.Array [Unseal.AChunk 0];
       1 := Unseal.NamedChunks {[ "main" := 0 ]};
       2 := Unseal.Array [];
       3 := Unseal.Assets {[ "main.js" := RawSource "/* bundle */" ]} ]}
    [].

Lemma unseal_resets_chunk_side_witness :
  let c := sealedCompilation in
  let c' := Unseal.unseal (λ m o, o ++ [m]) c in
  Unseal.heap c' !! (Unseal.chunks c') = Some (Unseal.Array []) ∧
  Unseal.heap c' !! (Unseal.assets c') = Some (Unseal.Assets ∅) ∧
  Unseal.heap c' !! (Unseal.assets c) = Unseal.heap c !! (Unseal.assets c) ∧
  Unseal.modules c' = [0; 1] ∧
  Unseal.objects c' = [0; 1].
Proof.
  intros c c'.
  destruct (Unseal.unseal_resets_chunk_side (λ m o, o ++ [m]) c)
    as (_ & H1 & _ & _ & _ & _ & _ & H2 & _ & H3 & H4 & _ & _ & _ & _ & _ & H5);
    [vm_compute; reflexivity|vm_compute; reflexivity|].
  split_and!; [exact H1|exact H2| |exact H4|exact H5].
  apply H3; [discriminate|discriminate|vm_compute; reflexivity].
Defined.

(** ** Asset emitter: [createChunkAssets] *)

Module AssetEmitter.

(** this.cache["c" + chunk.id] *)
Record ChunkCache := mkChunkCache {
  cc_hash : string;
  cc_source : Source
}.

(** [seal] calls [createChunkAssets] after [createHash]: the hashes are
    strings. *)
Record Compilation := mkCompilation {
  chunks : list cref;                        (* this.chunks *)
  cache : option (gmap string ChunkCache);   (* this.cache, its entries for chunks *)
  assets : gmap string Source;               (* this.assets *)
  errors : list ErrorObj;                    (* this.errors *)
  files : gmap cref (list string);           (* chunk.files *)
  hash : string;                             (* this.hash *)
  fullHash : string                          (* this.fullHash *)
}.

Section CreateChunkAssets.
Variable inherited : string → bool.
Variables filename chunkFilename : string.               (* outputOptions *)
Variable chunk_filenameTemplate : cref → option string.  (* chunk.filenameTemplate *)
Variable chunk_isInitial : cref → bool.                  (* chunk.isInitial() *)
Variable chunk_hasRuntime : cref → bool.                 (* chunk.hasRuntime() *)
Variable chunk_hash : cref → string.                     (* chunk.hash *)
Variable chunk_id : cref → SelfCheck.Id.                 (* chunk.id *)
Variable mainTemplate_useChunkHash : option (cref → bool).
Variable mainTemplate_render : string → cref → result Source.
Variable chunkTemplate_render : cref → result Source.
(** this.getPath(filenameTemplate, { noChunkHash, chunk }), with
    data.hash = this.hash: the "asset-path" waterfall of the main
    template. *)
Variable getPath : string → bool → cref → string → result string.

(** A string as a condition: the empty string is falsy. *)
Definition nonEmpty (s : string) : bool := negb (String.eqb s "").

Definition filenameTemplateOf (chunk : cref) : string :=
  match chunk_filenameTemplate chunk with
  | Some t => if nonEmpty t then t
              else if chunk_isInitial chunk then filename else chunkFilename
  | None => if chunk_isInitial chunk then filename else chunkFilename
  end.

Definition useChunkHash (chunk : cref) : bool :=
  negb (chunk_hasRuntime chunk)
  || match mainTemplate_useChunkHash with
     | Some f => f chunk
     | None => false
     end.

Definition usedHash (c : Compilation) (chunk : cref) : string :=
  if useChunkHash chunk then chunk_hash chunk else fullHash c.

Definition cacheName (chunk : cref) : string := "c" +:+ SelfCheck.idKey (chunk_id chunk).

(** source instanceof CachedSource ? source : new CachedSource(source) *)
Definition cached (source : Source) : Source :=
  match source with
  | CachedSource _ => source
  | _ => CachedSource source
  end.

(** The try block up to the cache: the source of the chunk and the cache
    it leaves. *)
Definition sourceFor (c : Compilation) (chunk : cref)
    : result (Source * option (gmap string ChunkCache)) :=
  let render :=
    match (if chunk_hasRuntime chunk then mainTemplate_render (hash c) chunk
           else chunkTemplate_render chunk) with
    | Throw e => Throw e
    | Ok source =>
        match cache c with
        | Some o =>
            let source := cached source in
            Ok (source, Some (<[cacheName chunk := mkChunkCache (usedHash c chunk) source]> o))
        | None => Ok (source, None)
        end
    end in
  match cache c with
  | Some o =>
      match get inherited o (cacheName chunk) with
      | Own entry =>
          if String.eqb (cc_hash entry) (usedHash c chunk)
          then Ok (cc_source entry, cache c)
          else render
      | _ => render   (* an inherited function has no hash *)
      end
  | None => render
  end.

Definition pathFor (c : Compilation) (chunk : cref) : result string :=
  getPath (filenameTemplateOf chunk) (negb (useChunkHash chunk)) chunk (hash c).

Definition conflict (file : string) : Error :=
  JsError "Error" ("Conflict: Multiple assets emit to the same filename " +:+ file).

(** One turn of the loop. *)
Definition emitChunk (c : Compilation) (chunk : cref) : Compilation :=
  (* chunk.files = []; *)
  let files0 := <[chunk := []]> (files c) in
  let filenameTemplate := filenameTemplateOf chunk in
  match sourceFor c chunk with
  | Throw err =>
      mkCompilation (chunks c) (cache c) (assets c)
        (errors c ++ [newError (ChunkRenderError chunk filenameTemplate err)])
        files0 (hash c) (fullHash c)
  | Ok (source, cache') =>
      match pathFor c chunk with
      | Throw err =>
          mkCompilation (chunks c) cache' (assets c)
            (errors c ++ [newError (ChunkRenderError chunk filenameTemplate err)])
            files0 (hash c) (fullHash c)
      | Ok file =>
          if truthy (get inherited (assets c) file) then
            mkCompilation (chunks c) cache' (assets c)
              (errors c ++ [newError (ChunkRenderError chunk
                                        (if nonEmpty file then file else filenameTemplate)
                                        (conflict file))])
              files0 (hash c) (fullHash c)
          else
            mkCompilation (chunks c) cache' (<[file := source]> (assets c))
              (errors c) (<[chunk := [file]]> files0) (hash c) (fullHash c)
      end
  end.

Definition emitChunks (l : list cref) (c : Compilation) : Compilation :=
  foldl emitChunk c l.

Definition createChunkAssets (c : Compilation) : Compilation :=
  emitChunks (chunks c) c.

(** The chunk gets [source] and the output path [file] in state [c]. *)
Definition resolves (c : Compilation) (chunk : cref) (file : string) (source : Source)
    : Prop :=
  ∃ cache', sourceFor c chunk = Ok (source, cache') ∧ pathFor c chunk = Ok file.

Lemma emitChunk_assets_keep c chunk g v :
  assets c !! g = Some v → assets (emitChunk c chunk) !! g = Some v.
Proof.
  intros Hg. unfold emitChunk.
  destruct (sourceFor c chunk) as [[source cache']|e]; [|done].
  destruct (pathFor c chunk) as [file|e]; [|done].
  destruct (truthy (get inherited (assets c) file)) eqn:Ht; [done|]. simpl.
  rewrite lookup_insert_ne; [done|]. intros ->.
  unfold get in Ht. by rewrite Hg in Ht.
Qed.

Lemma emitChunk_assets_taken c chunk g :
  truthy (get inherited (assets c) g) = true →
  assets (emitChunk c chunk) !! g = assets c !! g.
Proof.
  intros Hg. unfold emitChunk.
  destruct (sourceFor c chunk) as [[source cache']|e]; [|done].
  destruct (pathFor c chunk) as [file|e]; [|done].
  destruct (truthy (get inherited (assets c) file)) eqn:Ht; [done|]. simpl.
  rewrite lookup_insert_ne; [done|]. intros ->. congruence.
Qed.

Lemma emitChunk_truthy_keep c chunk g :
  truthy (get inherited (assets c) g) = true →
  truthy (get inherited (assets (emitChunk c chunk)) g) = true.
Proof.
  intros Hg. unfold get. by rewrite emitChunk_assets_taken.
Qed.

Lemma emitChunks_assets_keep l c g v :
  assets c !! g = Some v → assets (emitChunks l c) !! g = Some v.
Proof.
  revert c. induction l as [|chunk l IH]; intros c Hg; [done|].
  simpl. apply IH. by apply emitChunk_assets_keep.
Qed.

Lemma emitChunks_assets_taken l c g :
  truthy (get inherited (assets c) g) = true →
  assets (emitChunks l c) !! g = assets c !! g.
Proof.
  revert c. induction l as [|chunk l IH]; intros c Hg; [done|].
  simpl. rewrite IH by by apply emitChunk_truthy_keep.
  by apply emitChunk_assets_taken.
Qed.

Lemma emitChunk_errors c chunk : ∃ rest, errors (emitChunk c chunk) = errors c ++ rest.
Proof.
  unfold emitChunk.
  destruct (sourceFor c chunk) as [[source cache']|e]; [|by eexists].
  destruct (pathFor c chunk) as [file|e]; [|by eexists].
  destruct (truthy _); [by eexists|].
  exists []. by rewrite app_nil_r.
Qed.

Lemma emitChunks_errors l c : ∃ rest, errors (emitChunks l c) = errors c ++ rest.
Proof.
  revert c. induction l as [|chunk l IH]; intros c; simpl.
  - exists []. by rewrite app_nil_r.
  - destruct (IH (emitChunk c chunk)) as [r1 ->].
    destruct (emitChunk_errors c chunk) as [r2 ->].
    exists (r2 ++ r1). by rewrite (assoc (++)).
Qed.

Lemma emitChunk_files c chunk k :
  k ≠ chunk → files (emitChunk c chunk) !! k = files c !! k.
Proof.
  intros Hk. unfold emitChunk.
  destruct (sourceFor c chunk) as [[source cache']|e]; simpl;
    [|by rewrite lookup_insert_ne].
  destruct (pathFor c chunk) as [file|e]; simpl; [|by rewrite lookup_insert_ne].
  destruct (truthy _); simpl; by rewrite !lookup_insert_ne.
Qed.

Lemma emitChunks_files l c k :
  k ∉ l → files (emitChunks l c) !! k = files c !! k.
Proof.
  revert c. induction l as [|chunk l IH]; intros c Hk; [done|].
  apply not_elem_of_cons in Hk as [Hne Hk].
  simpl. rewrite IH by done. by apply emitChunk_files.
Qed.

Lemma emitChunk_conflict c chunk file source :
  resolves c chunk file source →
  truthy (get inherited (assets c) file) = true →
  assets (emitChunk c chunk) = assets c ∧
  files (emitChunk c chunk) !! chunk = Some [] ∧
  errors (emitChunk c chunk)
  = errors c ++ [newError (ChunkRenderError chunk
                             (if nonEmpty file then file else filenameTemplateOf chunk)
                             (conflict file))].
Proof.
  intros (cache' & Hs & Hp) Ht. unfold emitChunk. rewrite Hs, Hp, Ht. simpl.
  by rewrite lookup_insert_eq.
Qed.

Lemma emitChunk_fresh c chunk file source :
  resolves c chunk file source →
  truthy (get inherited (assets c) file) = false →
  assets (emitChunk c chunk) = <[file := source]> (assets c) ∧
  files (emitChunk c chunk) !! chunk = Some [file] ∧
  errors (emitChunk c chunk) = errors c.
Proof.
  intros (cache' & Hs & Hp) Ht. unfold emitChunk. rewrite Hs, Hp, Ht. simpl.
  by rewrite lookup_insert_eq.
Qed.

Lemma resolves_taken c chunk file source :
  resolves c chunk file source →
  truthy (get inherited (assets (emitChunk c chunk)) file) = true.
Proof.
  intros Hr. destruct (truthy (get inherited (assets c) file)) eqn:Ht.
  - by apply emitChunk_truthy_keep.
  - destruct (emitChunk_fresh _ _ _ _ Hr Ht) as (-> & _).
    unfold get. by rewrite lookup_insert_eq.
Qed.

Lemma emitChunks_app l1 l2 c :
  emitChunks (l1 ++ l2) c = emitChunks l2 (emitChunks l1 c).
Proof. apply foldl_app. Qed.

Lemma emitChunks_truthy_keep l c g :
  truthy (get inherited (assets c) g) = true →
  truthy (get inherited (assets (emitChunks l c)) g) = true.
Proof.
  intros Hg. unfold get. by rewrite emitChunks_assets_taken.
Qed.

(** C8.  Let the chunks be [pre ++ c1 :: mid ++ c2 :: post], and let [c1]
    and [c2] both get a source and the same output path [file] at their
    turn.  Then the turn of [c2] appends the conflict error of [c2] for
    [file] to this.errors and leaves this.assets as it is; what
    this.assets holds for [file] after the turn of [c1] is what it holds
    at the end, the source of [c1] if the path was free for [c1]; the
    loop goes on over [post], and every later chunk that gets a source
    and a path that is free at its turn has its source in this.assets
    under that path at the end, and the path as its files unless the same
    chunk object comes again later in the list. *)
Theorem createChunkAssets_conflict_recorded
    (c : Compilation) (pre mid post : list cref) (c1 c2 : cref)
    (file : string) (src1 src2 : Source) :
  chunks c = pre ++ c1 :: mid ++ c2 :: post →
  let s1 := emitChunks pre c in
  let s2 := emitChunk s1 c1 in
  let s3 := emitChunks mid s2 in
  let s4 := emitChunk s3 c2 in
  resolves s1 c1 file src1 →
  resolves s3 c2 file src2 →
  createChunkAssets c = emitChunks post s4 ∧
  errors s4 = errors s3 ++ [newError (ChunkRenderError c2
                                        (if nonEmpty file then file else filenameTemplateOf c2)
                                        (conflict file))] ∧
  (∃ rest, errors (createChunkAssets c) = errors s4 ++ rest) ∧
  assets s4 = assets s3 ∧
  assets (createChunkAssets c) !! file = assets s2 !! file ∧
  (get inherited (assets s1) file = Undefined →
   assets (createChunkAssets c) !! file = Some src1) ∧
  (∀ p1 ck p2 g src,
     post = p1 ++ ck :: p2 →
     resolves (emitChunks p1 s4) ck g src →
     get inherited (assets (emitChunks p1 s4)) g = Undefined →
     assets (createChunkAssets c) !! g = Some src ∧
     (ck ∉ p2 → files (createChunkAssets c) !! ck = Some [g])).
Proof.
  intros Hchunks s1 s2 s3 s4 Hr1 Hr2.
  assert (createChunkAssets c = emitChunks post s4) as Hrun.
  { unfold createChunkAssets. rewrite Hchunks, emitChunks_app. simpl.
    by rewrite emitChunks_app. }
  assert (truthy (get inherited (assets s2) file) = true) as Ht2
    by by eapply resolves_taken.
  assert (truthy (get inherited (assets s3) file) = true) as Ht3
    by by apply emitChunks_truthy_keep.
  destruct (emitChunk_conflict _ _ _ _ Hr2 Ht3) as (Ha4 & _ & He4).
  assert (assets (createChunkAssets c) !! file = assets s2 !! file) as Hfile.
  { rewrite Hrun, emitChunks_assets_taken by by apply emitChunk_truthy_keep.
    unfold s4. rewrite Ha4. by apply emitChunks_assets_taken. }
  split_and!; try done.
  - rewrite Hrun. apply emitChunks_errors.
  - intros Hfree. rewrite Hfile.
    assert (truthy (get inherited (assets s1) file) = false) as Ht1 by by rewrite Hfree.
    destruct (emitChunk_fresh _ _ _ _ Hr1 Ht1) as (Ha2 & _).
    unfold s2. by rewrite Ha2, lookup_insert_eq.
  - intros p1 ck p2 g src -> Hrk Hfree.
    assert (truthy (get inherited (assets (emitChunks p1 s4)) g) = false) as Htk
      by by rewrite Hfree.
    destruct (emitChunk_fresh _ _ _ _ Hrk Htk) as (Hak & Hfk & _).
    rewrite Hrun, emitChunks_app. simpl.
    split.
    + apply emitChunks_assets_keep. by rewrite Hak, lookup_insert_eq.
    + intros Hnot. by rewrite emitChunks_files.
Qed.
End CreateChunkAssets.

End AssetEmitter.

(** Two entry chunks, 0 and 1, whose file name template has no
    placeholder, and a third chunk, 2, with a template of its own. *)
Definition sameFile : AssetEmitter.Compilation :=
  AssetEmitter.mkCompilation [0; 1; 2] None ∅ [] ∅ "f00d" "f00dcafe".

Lemma createChunkAssets_conflict_witness :
  let emit := AssetEmitter.createChunkAssets SelfCheck.objectPrototype
                "bundle.js" "[id].js"
                (λ chunk, if decide (chunk = 2) then Some "lazy.js" else None)
                (λ _, true) (λ _, true) (λ _, "c0ffee") (λ chunk, SelfCheck.IdNum chunk) None
                (λ _ chunk, Ok (RawSource (pretty chunk))) (λ chunk, Ok (RawSource "chunk"))
                (λ template _ _ _, Ok template) in
  AssetEmitter.assets (emit sameFile) !! "bundle.js" = Some (RawSource "0") ∧
  AssetEmitter.assets (emit sameFile) !! "lazy.js" = Some (RawSource "2") ∧
  AssetEmitter.files (emit sameFile) !! 2 = Some ["lazy.js"] ∧
  AssetEmitter.errors (emit sameFile)
  = [newError (ChunkRenderError 1 "bundle.js" (AssetEmitter.conflict "bundle.js"))].
Proof.
  intros emit.
  destruct (AssetEmitter.createChunkAssets_conflict_recorded SelfCheck.objectPrototype
              "bundle.js" "[id].js"
              (λ chunk, if decide (chunk = 2) then Some "lazy.js" else None)
              (λ _, true) (λ _, true) (λ _, "c0ffee") (λ chunk, SelfCheck.IdNum chunk) None
              (λ _ chunk, Ok (RawSource (pretty chunk))) (λ chunk, Ok (RawSource "chunk"))
              (λ template _ _ _, Ok template)
              sameFile [] [] [2] 0 1 "bundle.js" (RawSource "0") (RawSource "1"))
    as (Hrun & Herr & _ & _ & _ & Hfirst & Hlater).
  - reflexivity.
  - by exists None.
  - by exists None.
  - destruct (Hlater [] 2 [] "lazy.js" (RawSource "2")) as [Hlazy Hfiles].
    + reflexivity.
    + by exists None.
    + reflexivity.
    + split_and!.
      * apply Hfirst. reflexivity.
      * exact Hlazy.
      * apply Hfiles. apply not_elem_of_nil.
      * subst emit. rewrite Hrun. vm_compute. reflexivity.
Defined.

(** ** Hasher: [createHash] *)

Module Hasher.

Record OutputOptions := mkOutputOptions {
  hashFunction : string;
  hashDigest : string;
  hashDigestLength : option nat;
  hashSalt : option string
}.

Record Compilation := mkCompilation {
  chunks : list cref;                      (* this.chunks *)
  children : list string;                  (* child.hash of every element of this.children *)
  chunk_hash : gmap cref string;           (* chunk.hash *)
  chunk_renderedHash : gmap cref string;   (* chunk.renderedHash *)
  fullHash : option string;                (* this.fullHash *)
  hash : option string                     (* this.hash *)
}.

Section CreateHash.
Variable outputOptions : OutputOptions.
(** crypto: the digest of the strings a hash object was updated with, in
    order, for a hash function and an encoding. *)
Variable digest : string → list string → string → string.
(** What each updateHash method feeds into the hash object it is given. *)
Variable mainTemplate_updateHash : list string.
Variable chunkTemplate_updateHash : list string.
Variable moduleTemplate_updateHash : list string.
Variable chunk_updateHash : cref → list string.
Variable chunkTemplate_updateHashForChunk : list string.
(** mainTemplate.updateHashForChunk(chunkHash, chunk) may read the hash
    and renderedHash of other chunks. *)
Variable mainTemplate_updateHashForChunk :
  cref → gmap cref string → gmap cref string → list string.
Variable chunk_hasRuntime : cref → bool.

(** if(outputOptions.hashSalt) hash.update(outputOptions.hashSalt) *)
Definition salt : list string :=
  match hashSalt outputOptions with
  | Some s => if String.eqb s "" then [] else [s]
  | None => []
  end.

(** s.substr(0, hashDigestLength) *)
Definition truncate (s : string) : string :=
  match hashDigestLength outputOptions with
  | Some n => String.substring 0 n s
  | None => s
  end.

Definition digestOf (updates : list string) : string :=
  digest (hashFunction outputOptions) updates (hashDigest outputOptions).

(** The comparison function handed to chunks.sort. *)
Definition compareRuntime (a b : cref) : Z :=
  let aEntry := chunk_hasRuntime a in
  let bEntry := chunk_hasRuntime b in
  if aEntry && negb bEntry then 1%Z
  else if negb aEntry && bEntry then (-1)%Z
  else 0%Z.

Definition before (a b : cref) : Prop := (compareRuntime a b ≤ 0)%Z.

#[local] Instance before_dec a b : Decision (before a b).
Proof. unfold before. apply _. Defined.

(** The state of the loop over the sorted chunks: the updates of [hash]
    and the two fields of the chunk objects. *)
Definition loopState : Type := list string * gmap cref string * gmap cref string.

Definition hashChunk (st : loopState) (chunk : cref) : loopState :=
  let '(hash, hashes, rendered) := st in
  let chunkHash :=
    salt ++ chunk_updateHash chunk
      ++ (if chunk_hasRuntime chunk
          then mainTemplate_updateHashForChunk chunk hashes rendered
          else chunkTemplate_updateHashForChunk) in
  let h := digestOf chunkHash in
  (hash ++ [h], <[chunk := h]> hashes, <[chunk := truncate h]> rendered).

Definition createHash (c : Compilation) : Compilation :=
  let hash0 :=
    salt ++ mainTemplate_updateHash ++ chunkTemplate_updateHash
      ++ moduleTemplate_updateHash ++ children c in
  (* const chunks = this.chunks.slice(); chunks.sort(...): the sort of the
     engine is embedded as merge sort; the proofs below use only that the
     result is a permutation of this.chunks ordered by the comparison *)
  let sorted := merge_sort before (chunks c) in
  let '(hash, hashes, rendered) :=
    foldl hashChunk (hash0, chunk_hash c, chunk_renderedHash c) sorted in
  let fullHash := digestOf hash in
  mkCompilation (chunks c) (children c) hashes rendered
    (Some fullHash) (Some (truncate fullHash)).

#[local] Instance before_total : Total before.
Proof.
  intros a b. unfold before, compareRuntime.
  destruct (chunk_hasRuntime a), (chunk_hasRuntime b); simpl; lia.
Qed.

#[local] Instance before_trans : Transitive before.
Proof.
  intros a b c. unfold before, compareRuntime.
  destruct (chunk_hasRuntime a), (chunk_hasRuntime b), (chunk_hasRuntime c); simpl; lia.
Qed.

(** The comment above the sort: after it, the chunks without a runtime
    come first. *)
Lemma sorted_split (l : list cref) :
  StronglySorted before l →
  ∃ l1 l2, l = l1 ++ l2 ∧
    Forall (λ k, chunk_hasRuntime k = false) l1 ∧
    Forall (λ k, chunk_hasRuntime k = true) l2.
Proof.
  induction 1 as [|a l Hl (l1 & l2 & -> & H1 & H2) Ha].
  - by exists [], [].
  - destruct (chunk_hasRuntime a) eqn:Hra.
    + exists [], (a :: l1 ++ l2). split_and!; [done|constructor|].
      constructor; [done|]. eapply Forall_impl; [exact Ha|].
      intros b. unfold before, compareRuntime. rewrite Hra.
      destruct (chunk_hasRuntime b); simpl; [done|lia].
    + exists (a :: l1), l2. split_and!; [done| |done]. by constructor.
Qed.

(** Two stores of chunk fields agree on the chunks of [P]. *)
Definition agree (P : cref → Prop) (s1 s2 : gmap cref string) : Prop :=
  ∀ k, P k → s1 !! k = s2 !! k.


(** The comment in [createHash]: "the hasRuntime() chunks are dependent on
    the hashes of the non-runtime chunks".  What the main template feeds
    for a chunk is determined by the hash fields of the chunks without a
    runtime. *)
Hypothesis main_reads_no_runtime :
  ∀ chunk h1 r1 h2 r2,
    agree (λ k, chunk_hasRuntime k = false) h1 h2 →
    agree (λ k, chunk_hasRuntime k = false) r1 r2 →
    mainTemplate_updateHashForChunk chunk h1 r1
    = mainTemplate_updateHashForChunk chunk h2 r2.


Lemma fold_other l u h r k :
  k ∉ l →
  (foldl hashChunk (u, h, r) l).1.2 !! k = h !! k ∧
  (foldl hashChunk (u, h, r) l).2 !! k = r !! k.
Proof.
  revert u h r. induction l as [|a l IH]; intros u h r Hk; [done|].
  apply not_elem_of_cons in Hk as [Hne Hk]. simpl.
  destruct (IH (u ++ [digestOf (salt ++ chunk_updateHash a
                                  ++ (if chunk_hasRuntime a
                                      then mainTemplate_updateHashForChunk a h r
                                      else chunkTemplate_updateHashForChunk))])
              (<[a := digestOf (salt ++ chunk_updateHash a
                                  ++ (if chunk_hasRuntime a
                                      then mainTemplate_updateHashForChunk a h r
                                      else chunkTemplate_updateHashForChunk))]> h)
              (<[a := truncate (digestOf (salt ++ chunk_updateHash a
                                  ++ (if chunk_hasRuntime a
                                      then mainTemplate_updateHashForChunk a h r
                                      else chunkTemplate_updateHashForChunk)))]> r) Hk)
    as [-> ->].
  by rewrite !lookup_insert_ne.
Qed.


End CreateHash.

End Hasher.

(** An entry chunk 0 with the runtime and a chunk 1 without; the main
    template feeds the renderedHash of chunk 1 into the hash of chunk 0,
    and the digest is the concatenation of the updates. *)
Definition hashOptions : Hasher.OutputOptions :=
  Hasher.mkOutputOptions "md5" "hex" (Some 4) None.

Definition readsLazyChunk (chunk : cref) (hashes rendered : gmap cref string)
    : list string :=
  [default "" (rendered !! 1)].

Definition staleHashes : Hasher.Compilation :=
  Hasher.mkCompilation [0; 1] [] {[0 := "stale"]} {[1 := "old"]} None None.


(** ** Indexer: [assignIndex] and [assignDepth] *)

Module Indexer.

(** A variable of a block, with the dependencies of its expression. *)
Record DependenciesBlockVariable := mkVariable {
  var_dependencies : list Dependency
}.

(** A module or one of its nested blocks, as the walks read it. *)
Inductive DependenciesBlock := mkBlock {
  variables : list DependenciesBlockVariable;
  dependencies : list Dependency;
  blocks : list DependenciesBlock
}.

Definition emptyBlock : DependenciesBlock := mkBlock [] [] [].

(** The module graph while it is sealed: the block of every module object.
    A module without an entry has no variables, dependencies or blocks. *)
Definition blockOf (g : gmap ref DependenciesBlock) (m : ref) : DependenciesBlock :=
  default emptyBlock (g !! m).

(** iterationBlockVariable(block.variables, fn) followed by
    iterationOfArrayCallback(block.dependencies, fn): the dependencies [fn]
    is called on, in order. *)
Definition ownDependencies (b : DependenciesBlock) : list Dependency :=
  (variables b ≫= var_dependencies) ++ dependencies b.

(** The modules the dependencies of a block and of its nested blocks point
    to: own dependencies first, then block by block. *)
Fixpoint blockTargets (b : DependenciesBlock) : list ref :=
  omap dep_module (ownDependencies b)
    ++ (fix nested (bs : list DependenciesBlock) : list ref :=
          match bs with
          | [] => []
          | b' :: bs => blockTargets b' ++ nested bs
          end) (blocks b).

Definition nestedTargets (bs : list DependenciesBlock) : list ref :=
  bs ≫= blockTargets.

(** *** assignIndex *)

(** The functions pushed on [queue]. *)
Inductive task :=
  | EnterModule (m : ref)              (* () => assignIndexToModule(module) *)
  | LeaveModule (m : ref)              (* () => module.index2 = _this.nextFreeModuleIndex2++ *)
  | EnterDependency (d : Dependency)   (* () => assignIndexToDependency(d) *)
  | EnterBlock (b : DependenciesBlock). (* () => assignIndexToDependencyBlock(b) *)

Record IndexState := mkIndexState {
  index : gmap ref nat;             (* module.index; no entry: not a number *)
  index2 : gmap ref nat;            (* module.index2 *)
  nextFreeModuleIndex : nat;        (* this.nextFreeModuleIndex *)
  nextFreeModuleIndex2 : nat;       (* this.nextFreeModuleIndex2 *)
  assigned : list (ref * nat);      (* the assignments module.index = i made so far, in order *)
  assigned2 : list (ref * nat)      (* the assignments module.index2 = i made so far, in order *)
}.

(** assignIndexToDependencyBlock(block), on a queue whose top is the head
    of the list: the blocks are pushed from the last to the first, then the
    dependencies from the last to the first. *)
Definition assignIndexToDependencyBlock (block : DependenciesBlock) (queue : list task)
    : list task :=
  (EnterDependency <$> ownDependencies block) ++ (EnterBlock <$> blocks block) ++ queue.

(** queue.pop()() *)
Definition runTask (g : gmap ref DependenciesBlock) (t : task) (s : IndexState)
    (queue : list task) : IndexState * list task :=
  match t with
  | EnterModule module =>
      match index s !! module with
      | Some _ => (s, queue)
      | None =>
          let i := nextFreeModuleIndex s in
          (mkIndexState (<[module := i]> (index s)) (index2 s)
             (S i) (nextFreeModuleIndex2 s)
             (assigned s ++ [(module, i)]) (assigned2 s),
           assignIndexToDependencyBlock (blockOf g module) (LeaveModule module :: queue))
      end
  | LeaveModule module =>
      let i := nextFreeModuleIndex2 s in
      (mkIndexState (index s) (<[module := i]> (index2 s))
         (nextFreeModuleIndex s) (S i)
         (assigned s) (assigned2 s ++ [(module, i)]),
       queue)
  | EnterDependency d =>
      match dep_module d with
      | Some m => (s, EnterModule m :: queue)
      | None => (s, queue)
      end
  | EnterBlock b => (s, assignIndexToDependencyBlock b queue)
  end.

(** while(queue.length) queue.pop()(); at most [fuel] turns. *)
Fixpoint runQueue (fuel : nat) (g : gmap ref DependenciesBlock) (s : IndexState)
    (queue : list task) : option IndexState :=
  match queue with
  | [] => Some s
  | t :: queue =>
      match fuel with
      | 0 => None
      | S fuel => let '(s, queue) := runTask g t s queue in runQueue fuel g s queue
      end
  end.

Definition assignIndex (fuel : nat) (g : gmap ref DependenciesBlock) (module : ref)
    (s : IndexState) : option IndexState :=
  runQueue fuel g s [EnterModule module].

(** *** assignDepth *)

(** assignDepthToDependencyBlock(block, depth): what it pushes, in order. *)
Definition depthPushes (block : DependenciesBlock) (depth : nat) : list (ref * nat) :=
  (λ m, (m, depth)) <$> blockTargets block.

(** queue.pop()() for () => assignDepthToModule(module, depth) *)
Definition assignDepthToModule (g : gmap ref DependenciesBlock) (module : ref) (depth : nat)
    (depths : gmap ref nat) (queue : list (ref * nat)) : gmap ref nat * list (ref * nat) :=
  match depths !! module with
  | Some d0 =>
      if decide (d0 ≤ depth) then (depths, queue)
      else (<[module := depth]> depths,
            reverse (depthPushes (blockOf g module) (depth + 1)) ++ queue)
  | None =>
      (<[module := depth]> depths,
       reverse (depthPushes (blockOf g module) (depth + 1)) ++ queue)
  end.

Fixpoint runDepth (fuel : nat) (g : gmap ref DependenciesBlock) (depths : gmap ref nat)
    (queue : list (ref * nat)) : option (gmap ref nat) :=
  match queue with
  | [] => Some depths
  | (module, depth) :: queue =>
      match fuel with
      | 0 => None
      | S fuel =>
          let '(depths, queue) := assignDepthToModule g module depth depths queue in
          runDepth fuel g depths queue
      end
  end.

Definition assignDepth (fuel : nat) (g : gmap ref DependenciesBlock) (module : ref)
    (depths : gmap ref nat) : option (gmap ref nat) :=
  runDepth fuel g depths [(module, 0)].

(** *** The loop of [seal] over the prepared chunks *)

Record State := mkState {
  indices : IndexState;
  depth : gmap ref nat       (* module.depth; no entry: not a number *)
}.

(** self.nextFreeModuleIndex = 0; self.nextFreeModuleIndex2 = 0; *)
Definition resetCounters (s : State) : State :=
  let i := indices s in
  mkState (mkIndexState (index i) (index2 i) 0 0 (assigned i) (assigned2 i)) (depth s).

(** The body of the forEach, for the module of a prepared chunk: the calls
    self.assignIndex(module) and self.assignDepth(module).  The statements
    around them build the chunk graph and do not touch index, index2 or
    depth. *)
Definition sealModule (fuel : nat) (g : gmap ref DependenciesBlock) (s : State)
    (module : ref) : option State :=
  i ← assignIndex fuel g module (indices s);
  d ← assignDepth fuel g module (depth s);
  Some (mkState i d).

Fixpoint sealModules (fuel : nat) (g : gmap ref DependenciesBlock) (s : State)
    (modules : list ref) : option State :=
  match modules with
  | [] => Some s
  | module :: modules => s' ← sealModule fuel g s module; sealModules fuel g s' modules
  end.

Definition seal (fuel : nat) (g : gmap ref DependenciesBlock) (entryModules : list ref)
    (s : State) : option State :=
  sealModules fuel g (resetCounters s) entryModules.

(** A compilation whose modules were never indexed (or went through
    unseal). *)
Definition unindexed : State := mkState (mkIndexState ∅ ∅ 0 0 [] []) ∅.

(** *** Reachability *)

(** [hops g roots m n]: a chain of [n] dependencies leads from one of the
    [roots] to [m]. *)
Inductive hops (g : gmap ref DependenciesBlock) (roots : list ref) : ref → nat → Prop :=
  | hops_root m : m ∈ roots → hops g roots m 0
  | hops_step m c n :
      hops g roots m n → c ∈ blockTargets (blockOf g m) → hops g roots c (S n).

Definition reachable (g : gmap ref DependenciesBlock) (roots : list ref) (m : ref) : Prop :=
  ∃ n, hops g roots m n.

Lemma blockTargets_eq b :
  blockTargets b = omap dep_module (ownDependencies b) ++ nestedTargets (blocks b).
Proof.
  destruct b as [vs ds bs]. simpl. f_equal.
  all: unfold nestedTargets; induction bs as [|b' bs IH]; [done|];
    by rewrite bind_cons, IH.
Qed.

(** Every module a walk can meet: the roots, the modules of the graph and
    the targets of their blocks. *)
Definition universe (g : gmap ref DependenciesBlock) (roots : list ref) : list ref :=
  roots ++ (map_to_list g ≫= λ mb, mb.1 :: blockTargets mb.2).

Lemma universe_root g roots m : m ∈ roots → m ∈ universe g roots.
Proof. intros Hm. apply elem_of_app. by left. Qed.

Lemma universe_target g roots m c :
  c ∈ blockTargets (blockOf g m) → c ∈ universe g roots.
Proof.
  unfold blockOf. destruct (g !! m) as [b|] eqn:Hm; simpl.
  - intros Hc. apply elem_of_app. right. apply list_elem_of_bind.
    exists (m, b). split; [by apply list_elem_of_further|].
    by apply elem_of_map_to_list.
  - intros Hc. by apply elem_of_nil in Hc.
Qed.

Lemma filter_length_le {A} (P Q : A → Prop) `{!∀ x, Decision (P x)} `{!∀ x, Decision (Q x)}
    (l : list A) :
  (∀ x, Q x → P x) → length (filter Q l) ≤ length (filter P l).
Proof.
  intros HQP. induction l as [|y l IH]; [done|].
  rewrite !filter_cons. destruct (decide (Q y)) as [Hy|Hy].
  - rewrite decide_True by auto. simpl. lia.
  - destruct (decide (P y)); simpl; lia.
Qed.

Lemma filter_length_lt {A} (P Q : A → Prop) `{!∀ x, Decision (P x)} `{!∀ x, Decision (Q x)}
    (l : list A) (x0 : A) :
  (∀ x, Q x → P x) → x0 ∈ l → P x0 → ¬ Q x0 →
  length (filter Q l) < length (filter P l).
Proof.
  intros HQP. induction l as [|x l IH]; intros Hx0 HP HQ.
  - by apply elem_of_nil in Hx0.
  - pose proof (filter_length_le P Q l HQP) as Hle.
    rewrite !filter_cons. apply elem_of_cons in Hx0 as [<-|Hx0].
    + destruct (decide (Q x0)); [done|]. destruct (decide (P x0)); [|done].
      simpl. lia.
    + specialize (IH Hx0 HP HQ). destruct (decide (Q x)) as [Hy|Hy].
      * rewrite decide_True by auto. simpl. lia.
      * destruct (decide (P x)); simpl; lia.
Qed.

Lemma hops_reachable_step g roots m c :
  reachable g roots m → c ∈ blockTargets (blockOf g m) → reachable g roots c.
Proof. intros [n Hn] Hc. exists (S n). by eapply hops_step. Qed.

(** *** assignIndex: termination and what it assigns *)

Fixpoint blockWeight (b : DependenciesBlock) : nat :=
  2 * length (ownDependencies b)
  + (fix nested (bs : list DependenciesBlock) : nat :=
       match bs with
       | [] => 0
       | b' :: bs => S (blockWeight b') + nested bs
       end) (blocks b).

Definition taskWeight (t : task) : nat :=
  match t with
  | EnterModule _ => 1
  | LeaveModule _ => 1
  | EnterDependency _ => 2
  | EnterBlock b => S (blockWeight b)
  end.

Definition queueWeight (q : list task) : nat := sum_list_with taskWeight q.

Definition taskTargets (t : task) : list ref :=
  match t with
  | EnterModule m => [m]
  | LeaveModule _ => []
  | EnterDependency d => option_list (dep_module d)
  | EnterBlock b => blockTargets b
  end.

(** The modules the queue will still enter. *)
Definition pending (q : list task) : list ref := q ≫= taskTargets.

(** The modules the queue will still leave. *)
Definition leaves (q : list task) : list ref :=
  omap (λ t, match t with LeaveModule m => Some m | _ => None end) q.

Lemma queueWeight_app q1 q2 : queueWeight (q1 ++ q2) = queueWeight q1 + queueWeight q2.
Proof. apply sum_list_with_app. Qed.

Lemma queueWeight_dependencies ds :
  queueWeight (EnterDependency <$> ds) = 2 * length ds.
Proof.
  unfold queueWeight. induction ds as [|d ds IH]; [done|].
  rewrite fmap_cons. cbn [sum_list_with taskWeight length]. rewrite IH. lia.
Qed.

Lemma blockWeight_eq b :
  blockWeight b = 2 * length (ownDependencies b) + queueWeight (EnterBlock <$> blocks b).
Proof.
  destruct b as [vs ds bs]. unfold queueWeight.
  cbn [blockWeight blocks]. f_equal.
  induction bs as [|b' bs IH]; [done|].
  rewrite fmap_cons. cbn [sum_list_with taskWeight]. by rewrite IH.
Qed.

Lemma queueWeight_block b q :
  queueWeight (assignIndexToDependencyBlock b q) = blockWeight b + queueWeight q.
Proof.
  unfold assignIndexToDependencyBlock.
  rewrite !queueWeight_app, queueWeight_dependencies, blockWeight_eq. lia.
Qed.

Lemma pending_app q1 q2 : pending (q1 ++ q2) = pending q1 ++ pending q2.
Proof. apply bind_app. Qed.

Lemma pending_cons t q : pending (t :: q) = taskTargets t ++ pending q.
Proof. apply bind_cons. Qed.

Lemma pending_block b q :
  pending (assignIndexToDependencyBlock b q) = blockTargets b ++ pending q.
Proof.
  unfold assignIndexToDependencyBlock. rewrite !pending_app, blockTargets_eq, (assoc (++)).
  f_equal. f_equal.
  - unfold pending. induction (ownDependencies b) as [|d ds IH]; [done|].
    rewrite fmap_cons, bind_cons, IH. simpl. by destruct (dep_module d).
  - unfold pending, nestedTargets. induction (blocks b) as [|b' bs IH]; [done|].
    by rewrite fmap_cons, !bind_cons, IH.
Qed.

Lemma leaves_app q1 q2 : leaves (q1 ++ q2) = leaves q1 ++ leaves q2.
Proof. apply omap_app. Qed.

Lemma leaves_block b q : leaves (assignIndexToDependencyBlock b q) = leaves q.
Proof.
  unfold assignIndexToDependencyBlock. rewrite !leaves_app.
  assert (leaves (EnterDependency <$> ownDependencies b) = []) as ->.
  { unfold leaves. by induction (ownDependencies b). }
  assert (leaves (EnterBlock <$> blocks b) = []) as ->.
  { unfold leaves. by induction (blocks b). }
  done.
Qed.

Section AssignIndex.
Variable g : gmap ref DependenciesBlock.
Variable roots : list ref.

Lemma reachable_universe m : reachable g roots m → m ∈ universe g roots.
Proof.
  intros [n Hn]. destruct Hn as [m Hm|m c n _ Hc].
  - by apply universe_root.
  - by eapply universe_target.
Qed.

(** The modules of the universe that have no index yet. *)
Definition unindexedCount (s : IndexState) : nat :=
  length (filter (λ m, index s !! m = None) (universe g roots)).

Record indexInv (s : IndexState) (q : list task) : Prop := mkIndexInv {
  ii_index : ∀ m i, index s !! m = Some i ↔ (m, i) ∈ assigned s;
  ii_nodup : NoDup (assigned s).*1;
  ii_values : (assigned s).*2 = seq 0 (nextFreeModuleIndex s);
  ii_index2 : ∀ m i, index2 s !! m = Some i ↔ (m, i) ∈ assigned2 s;
  ii_values2 : (assigned2 s).*2 = seq 0 (nextFreeModuleIndex2 s);
  ii_leaves : (assigned2 s).*1 ++ leaves q ≡ₚ (assigned s).*1;
  ii_closed : ∀ m c, m ∈ (assigned s).*1 → c ∈ blockTargets (blockOf g m) →
                c ∈ (assigned s).*1 ∨ c ∈ pending q;
  ii_sound : ∀ m, m ∈ (assigned s).*1 → reachable g roots m;
  ii_pending : ∀ c, c ∈ pending q → reachable g roots c
}.

Lemma indexed_assigned s q m :
  indexInv s q → (is_Some (index s !! m) ↔ m ∈ (assigned s).*1).
Proof.
  intros Hinv. split.
  - intros [i Hi]. apply (ii_index _ _ Hinv) in Hi.
    apply list_elem_of_fmap. by exists (m, i).
  - intros ([m' i] & -> & Hi)%list_elem_of_fmap. exists i. by apply (ii_index _ _ Hinv).
Qed.

Lemma indexed2_assigned s q m :
  indexInv s q → (is_Some (index2 s !! m) ↔ m ∈ (assigned2 s).*1).
Proof.
  intros Hinv. split.
  - intros [i Hi]. apply (ii_index2 _ _ Hinv) in Hi.
    apply list_elem_of_fmap. by exists (m, i).
  - intros ([m' i] & -> & Hi)%list_elem_of_fmap. exists i. by apply (ii_index2 _ _ Hinv).
Qed.

Lemma log_insert (idx : gmap ref nat) (log : list (ref * nat)) m i :
  (∀ m' i', idx !! m' = Some i' ↔ (m', i') ∈ log) →
  idx !! m = None →
  ∀ m' i', <[m := i]> idx !! m' = Some i' ↔ (m', i') ∈ log ++ [(m, i)].
Proof.
  intros Hlog Hm m' i'. rewrite lookup_insert_Some, elem_of_app, list_elem_of_singleton.
  rewrite <- Hlog. split.
  - intros [[-> ->]|[_ ?]]; auto.
  - intros [Hm'|[= -> ->]]; [|by left]. right. split; [|done]. intros ->. congruence.
Qed.

Lemma log_values (log : list (ref * nat)) m n :
  log.*2 = seq 0 n → (log ++ [(m, n)]).*2 = seq 0 (S n).
Proof. intros Hlog. by rewrite fmap_app, Hlog, seq_S. Qed.

(** The measure of the loop: the unindexed modules, then the weight of
    the queue. *)
Definition indexStep (s : IndexState) (q : list task) (s' : IndexState) (q' : list task)
    : Prop :=
  unindexedCount s' < unindexedCount s
  ∨ (unindexedCount s' = unindexedCount s ∧ queueWeight q' < queueWeight q).

Lemma runTask_inv t s q :
  indexInv s (t :: q) →
  indexInv (runTask g t s q).1 (runTask g t s q).2 ∧
  indexStep s (t :: q) (runTask g t s q).1 (runTask g t s q).2 ∧
  assigned s `prefix_of` assigned (runTask g t s q).1 ∧
  assigned2 s `prefix_of` assigned2 (runTask g t s q).1 ∧
  (∀ c, c ∈ pending (t :: q) →
        c ∈ (assigned (runTask g t s q).1).*1 ∨ c ∈ pending (runTask g t s q).2).
Proof.
  intros Hinv. pose proof Hinv as [Hi Hnd Hv Hi2 Hv2 Hl Hc Hs Hp].
  destruct t as [m|m|d|b].
  - (* assignIndexToModule *)
    simpl. destruct (index s !! m) as [i|] eqn:Hm; simpl.
    + assert (m ∈ (assigned s).*1) as Hin by (eapply indexed_assigned; eauto).
      split_and!; [| |done|done|].
      * split; try done.
        -- intros m' c Hm' Hc'. destruct (Hc m' c Hm' Hc') as [?|Hpc]; [by left|].
           apply elem_of_cons in Hpc as [->|?]; auto.
        -- intros c Hc'. apply Hp. by apply list_elem_of_further.
      * right. split; [done|]. unfold queueWeight. simpl. lia.
      * intros c [->|?]%elem_of_cons; auto.
    + assert (m ∉ (assigned s).*1) as Hout.
      { intros Hin. eapply indexed_assigned in Hin; [|done]. destruct Hin. congruence. }
      assert (reachable g roots m) as Hrm by (apply Hp, list_elem_of_here).
      split_and!; [| |by apply prefix_app_r|done|].
      * split; simpl.
        -- by apply log_insert.
        -- rewrite fmap_app. apply NoDup_app. split_and!; [done| |apply NoDup_singleton].
           intros x Hx ->%list_elem_of_singleton. done.
        -- by apply log_values.
        -- done.
        -- done.
        -- rewrite leaves_block, fmap_app. simpl. rewrite <- Hl. simpl.
           rewrite <- (assoc (++)). f_equiv. rewrite (Permutation_app_comm _ [m]). done.
        -- intros m' c Hm' Hc'. rewrite pending_block, fmap_app, !elem_of_app. simpl.
           rewrite list_elem_of_singleton.
           rewrite fmap_app, elem_of_app in Hm'. destruct Hm' as [Hm'|Hm'].
           ++ destruct (Hc m' c Hm' Hc') as [?|Hpc]; [by left; left|].
              apply elem_of_cons in Hpc as [->|?]; auto.
           ++ simpl in Hm'. apply list_elem_of_singleton in Hm' as ->. auto.
        -- intros m'. rewrite fmap_app, elem_of_app. simpl.
           intros [?| ->%list_elem_of_singleton]; auto.
        -- intros c. rewrite pending_block, elem_of_app. intros [Hc'|Hc'].
           ++ by eapply hops_reachable_step.
           ++ apply Hp. by apply list_elem_of_further.
      * left. unfold unindexedCount. simpl.
        apply (filter_length_lt _ _ _ m).
        -- intros x. rewrite lookup_insert_None. tauto.
        -- by apply reachable_universe.
        -- done.
        -- by rewrite lookup_insert_eq.
      * intros c. rewrite pending_block, fmap_app, !elem_of_app. simpl.
        rewrite list_elem_of_singleton.
        intros [->|?]%elem_of_cons; auto.
  - (* module.index2 = ... *)
    simpl. assert (m ∉ (assigned2 s).*1) as Hout.
    { simpl in Hl. rewrite <- Hl in Hnd. apply NoDup_app in Hnd as (_ & Hnd & _).
      intros Hin. eapply Hnd; [done|]. apply list_elem_of_here. }
    assert (index2 s !! m = None) as Hm.
    { destruct (index2 s !! m) eqn:Hm; [|done]. exfalso. apply Hout.
      eapply indexed2_assigned; eauto. }
    split_and!; [| |done|by apply prefix_app_r|].
    + split; simpl; try done.
      * by apply log_insert.
      * by apply log_values.
      * rewrite fmap_app. simpl. rewrite <- Hl. simpl. by rewrite <- (assoc (++)).
    + right. split; [done|]. unfold queueWeight. simpl. lia.
    + intros c Hc'. by right.
  - (* assignIndexToDependency *)
    assert (pending (runTask g (EnterDependency d) s q).2 = pending (EnterDependency d :: q))
      as Hpe.
    { rewrite (pending_cons (EnterDependency d)). unfold runTask.
      destruct (dep_module d) eqn:Hd; cbn [fst snd taskTargets]; by rewrite Hd. }
    assert ((runTask g (EnterDependency d) s q).1 = s) as Hst
      by (simpl; by destruct (dep_module d)).
    assert (queueWeight (runTask g (EnterDependency d) s q).2
            < queueWeight (EnterDependency d :: q)) as Hw.
    { simpl. destruct (dep_module d); unfold queueWeight; simpl; lia. }
    assert (leaves (runTask g (EnterDependency d) s q).2 = leaves q) as Hle
      by (simpl; by destruct (dep_module d)).
    rewrite Hst.
    split_and!; [| |done|done|].
    + split; try done.
      * rewrite Hle. exact Hl.
      * intros m' c Hm' Hc'. rewrite Hpe. exact (Hc m' c Hm' Hc').
      * intros c. rewrite Hpe. apply Hp.
    + by right.
    + intros c Hc'. right. by rewrite Hpe.
  - (* assignIndexToDependencyBlock *)
    simpl. assert (pending (assignIndexToDependencyBlock b q) = pending (EnterBlock b :: q)) as Hpe
      by by rewrite pending_block.
    split_and!; [| |done|done|].
    + split; try done.
      * by rewrite leaves_block.
      * intros m' c Hm' Hc'. rewrite Hpe. exact (Hc m' c Hm' Hc').
      * intros c. rewrite Hpe. apply Hp.
    + right. split; [done|]. rewrite queueWeight_block. unfold queueWeight. simpl. lia.
    + intros c Hc'. right. by rewrite Hpe.
Qed.

Lemma runQueue_more fuel fuel' s q s' :
  runQueue fuel g s q = Some s' → fuel ≤ fuel' → runQueue fuel' g s q = Some s'.
Proof.
  revert fuel' s q. induction fuel as [|fuel IH]; intros fuel' s q Hrun Hle.
  - destruct q; [|done]. by destruct fuel'.
  - destruct q as [|t q]; [by destruct fuel'|].
    destruct fuel' as [|fuel']; [lia|]. simpl in *.
    destruct (runTask g t s q) as [s1 q1]. apply IH; [done|lia].
Qed.

(** The loop of [assignIndex] ends, whatever the queue it starts from. *)
Lemma runQueue_terminates s q :
  indexInv s q →
  ∃ fuel s', runQueue fuel g s q = Some s' ∧
    indexInv s' [] ∧
    assigned s `prefix_of` assigned s' ∧
    assigned2 s `prefix_of` assigned2 s' ∧
    (∀ c, c ∈ pending q → c ∈ (assigned s').*1).
Proof.
  remember (unindexedCount s) as n eqn:Hn. revert s q Hn.
  induction n as [n IHn] using lt_wf_ind. intros s q Hn.
  remember (queueWeight q) as w eqn:Hw. revert s q Hn Hw.
  induction w as [w IHw] using lt_wf_ind. intros s q Hn Hw Hinv.
  destruct q as [|t q].
  - exists 0, s. split_and!; [done|done|done|done|].
    intros c Hc. by apply elem_of_nil in Hc.
  - destruct (runTask_inv t s q Hinv) as (Hinv1 & Hstep & Hpre & Hpre2 & Hpend).
    destruct (runTask g t s q) as [s1 q1] eqn:Htask. cbn [fst snd] in *.
    assert (∃ fuel s', runQueue fuel g s1 q1 = Some s' ∧ indexInv s' [] ∧
              assigned s1 `prefix_of` assigned s' ∧
              assigned2 s1 `prefix_of` assigned2 s' ∧
              (∀ c, c ∈ pending q1 → c ∈ (assigned s').*1))
      as (fuel & s' & Hrun & Hinv' & Hp1 & Hp2 & Hall).
    { destruct Hstep as [Hlt|[Heq Hlt]].
      - eapply (IHn (unindexedCount s1)); [lia|done|done].
      - eapply (IHw (queueWeight q1)); [lia|lia|done|done]. }
    exists (S fuel), s'. simpl. rewrite Htask.
    split_and!; [done|done|by etrans|by etrans|].
    intros c Hc. destruct (Hpend c Hc) as [Hc1|Hc1]; [|by apply Hall].
    destruct Hp1 as [k ->]. rewrite fmap_app. apply elem_of_app. by left.
Qed.

Lemma indexInv_enter s m :
  indexInv s [] → reachable g roots m → indexInv s [EnterModule m].
Proof.
  intros [Hi Hnd Hv Hi2 Hv2 Hl Hc Hs Hp] Hm. split; try done.
  - intros m' c Hm' Hc'. destruct (Hc m' c Hm' Hc') as [?|Hpc]; [by left|].
    by apply elem_of_nil in Hpc.
  - intros c ->%list_elem_of_singleton. done.
Qed.

Lemma assignIndex_terminates s m :
  indexInv s [] → reachable g roots m →
  ∃ fuel s', assignIndex fuel g m s = Some s' ∧
    indexInv s' [] ∧
    assigned s `prefix_of` assigned s' ∧
    assigned2 s `prefix_of` assigned2 s' ∧
    m ∈ (assigned s').*1.
Proof.
  intros Hinv Hm.
  destruct (runQueue_terminates s [EnterModule m]) as (fuel & s' & Hrun & ? & ? & ? & Hall);
    [by apply indexInv_enter|].
  exists fuel, s'. split_and!; try done. apply Hall, list_elem_of_here.
Qed.


End AssignIndex.

(** *** assignDepth: termination and what it leaves *)

Lemma sum_list_with_le {A} (f f' : A → nat) (l : list A) :
  (∀ x, f' x ≤ f x) → sum_list_with f' l ≤ sum_list_with f l.
Proof.
  intros Hle. induction l as [|x l IH]; simpl; [done|]. specialize (Hle x). lia.
Qed.

Lemma sum_list_with_lt {A} (f f' : A → nat) (l : list A) (x0 : A) :
  (∀ x, f' x ≤ f x) → x0 ∈ l → f' x0 < f x0 →
  sum_list_with f' l < sum_list_with f l.
Proof.
  intros Hle. induction l as [|x l IH]; intros Hx0 Hlt.
  - by apply elem_of_nil in Hx0.
  - pose proof (sum_list_with_le f f' l Hle) as Hl. simpl.
    apply elem_of_cons in Hx0 as [<-|Hx0]; [lia|].
    specialize (IH Hx0 Hlt). specialize (Hle x). lia.
Qed.

Section AssignDepth.
Variable g : gmap ref DependenciesBlock.
Variable roots : list ref.

Definition undepthedCount (depths : gmap ref nat) : nat :=
  length (filter (λ m, depths !! m = None) (universe g roots)).

Definition depthSum (depths : gmap ref nat) : nat :=
  sum_list_with (λ m, default 0 (depths !! m)) (universe g roots).

Record depthInv (depths : gmap ref nat) (q : list (ref * nat)) : Prop := mkDepthInv {
  di_sound : ∀ m d, depths !! m = Some d → hops g roots m d;
  di_queue : ∀ m d, (m, d) ∈ q → hops g roots m d;
  di_closed : ∀ m d c, depths !! m = Some d → c ∈ blockTargets (blockOf g m) →
                (∃ d', depths !! c = Some d' ∧ d' ≤ S d) ∨ (∃ d', (c, d') ∈ q ∧ d' ≤ S d)
}.

Definition depthStep (depths : gmap ref nat) (q : list (ref * nat))
    (depths' : gmap ref nat) (q' : list (ref * nat)) : Prop :=
  undepthedCount depths' < undepthedCount depths
  ∨ (undepthedCount depths' = undepthedCount depths ∧ depthSum depths' < depthSum depths)
  ∨ (undepthedCount depths' = undepthedCount depths ∧ depthSum depths' = depthSum depths
     ∧ length q' < length q).

(** Writing a depth that is new or smaller. *)
Lemma lower_inv depths m d q :
  depthInv depths ((m, d) :: q) →
  (∀ d0, depths !! m = Some d0 → d < d0) →
  depthInv (<[m := d]> depths) (reverse (depthPushes (blockOf g m) (d + 1)) ++ q).
Proof.
  intros [Hs Hq Hc] Hlow. split.
  - intros m' d' [[-> ->]|[Hne Hm']]%lookup_insert_Some; [|by apply Hs].
    apply Hq, list_elem_of_here.
  - intros m' d' [Hin|Hin]%elem_of_app.
    + apply elem_of_reverse, list_elem_of_fmap in Hin as (c & [= -> ->] & Hc').
      rewrite Nat.add_1_r. eapply hops_step; [|done]. apply Hq, list_elem_of_here.
    + apply Hq. by apply list_elem_of_further.
  - intros m1 d1 c [[-> ->]|[Hne Hm1]]%lookup_insert_Some Hc1.
    + right. exists (S d1). split; [|done]. apply elem_of_app. left.
      apply elem_of_reverse, list_elem_of_fmap. exists c. by rewrite Nat.add_1_r.
    + destruct (Hc m1 d1 c Hm1 Hc1) as [(d' & Hd' & Hle)|(d' & Hin & Hle)].
      * left. destruct (decide (c = m)) as [->|Hcm].
        -- exists d. rewrite lookup_insert_eq. split; [done|].
           specialize (Hlow d' Hd'). lia.
        -- exists d'. by rewrite lookup_insert_ne.
      * apply elem_of_cons in Hin as [[= -> ->]|Hin].
        -- left. exists d. by rewrite lookup_insert_eq.
        -- right. exists d'. split; [|done]. apply elem_of_app. by right.
Qed.

Lemma lower_mono (depths : gmap ref nat) (m d : nat) (q : list (ref * nat)) :
  (∀ d1, depths !! m = Some d1 → d < d1) →
  (∀ m' d', depths !! m' = Some d' →
            ∃ d'', <[m := d]> depths !! m' = Some d'' ∧ d'' ≤ d') ∧
  (∀ m' d', (m', d') ∈ (m, d) :: q →
            (∃ d'', <[m := d]> depths !! m' = Some d'' ∧ d'' ≤ d')
            ∨ (m', d') ∈ reverse (depthPushes (blockOf g m) (d + 1)) ++ q).
Proof.
  intros Hlow. split.
  - intros m' d' Hm'. destruct (decide (m' = m)) as [->|Hne].
    + exists d. rewrite lookup_insert_eq. split; [done|]. specialize (Hlow d' Hm'). lia.
    + exists d'. by rewrite lookup_insert_ne.
  - intros m' d' [[= -> ->]|Hin]%elem_of_cons.
    + left. exists d. by rewrite lookup_insert_eq.
    + right. apply elem_of_app. by right.
Qed.

Lemma assignDepthToModule_inv depths m d q :
  depthInv depths ((m, d) :: q) →
  depthInv (assignDepthToModule g m d depths q).1 (assignDepthToModule g m d depths q).2 ∧
  depthStep depths ((m, d) :: q)
    (assignDepthToModule g m d depths q).1 (assignDepthToModule g m d depths q).2 ∧
  (∀ m' d', depths !! m' = Some d' →
            ∃ d'', (assignDepthToModule g m d depths q).1 !! m' = Some d'' ∧ d'' ≤ d') ∧
  (∀ m' d', (m', d') ∈ (m, d) :: q →
            (∃ d'', (assignDepthToModule g m d depths q).1 !! m' = Some d'' ∧ d'' ≤ d')
            ∨ (m', d') ∈ (assignDepthToModule g m d depths q).2).
Proof.
  intros Hinv. pose proof Hinv as [Hs Hq Hc].
  assert (m ∈ universe g roots) as Hu.
  { apply reachable_universe. exists d. apply Hq, list_elem_of_here. }
  unfold assignDepthToModule. destruct (depths !! m) as [d0|] eqn:Hm.
  - destruct (decide (d0 ≤ d)) as [Hle|Hgt]; simpl.
    + split_and!.
      * split; [done| |].
        -- intros m' d' Hin. apply Hq. by apply list_elem_of_further.
        -- intros m1 d1 c Hm1 Hc1.
           destruct (Hc m1 d1 c Hm1 Hc1) as [?|(d' & Hin & Hle')]; [by left|].
           apply elem_of_cons in Hin as [[= -> ->]|Hin].
           ++ left. exists d0. split; [done|lia].
           ++ right. by exists d'.
      * right. right. simpl. split_and!; [done|done|lia].
      * intros m' d' Hm'. by exists d'.
      * intros m' d' [[= -> ->]|Hin]%elem_of_cons; [left|by right].
        by exists d0.
    + assert (∀ d1, depths !! m = Some d1 → d < d1) as Hlow.
      { intros d1 Hd1. rewrite Hm in Hd1. injection Hd1 as <-. lia. }
      destruct (lower_mono depths m d q Hlow) as [H1 H2].
      split_and!; [by apply lower_inv| |done|done].
      right. left. split.
      * unfold undepthedCount. f_equal. apply list_filter_iff. intros x.
        rewrite lookup_insert_None. split; [tauto|].
        intros Hx. split; [done|]. intros ->. congruence.
      * unfold depthSum. apply (sum_list_with_lt _ _ _ m); [|done|].
        -- intros x. destruct (decide (x = m)) as [->|Hne].
           ++ rewrite lookup_insert_eq, Hm. simpl. lia.
           ++ by rewrite lookup_insert_ne.
        -- rewrite lookup_insert_eq, Hm. simpl. lia.
  - assert (∀ d1, depths !! m = Some d1 → d < d1) as Hlow by (intros d1; by rewrite Hm).
    destruct (lower_mono depths m d q Hlow) as [H1 H2].
    split_and!; [by apply lower_inv| |done|done].
    left. unfold undepthedCount. apply (filter_length_lt _ _ _ m); [|done|done|].
    + intros x. simpl. rewrite lookup_insert_None. tauto.
    + simpl. by rewrite lookup_insert_eq.
Qed.

Lemma runDepth_more fuel fuel' depths q depths' :
  runDepth fuel g depths q = Some depths' → fuel ≤ fuel' →
  runDepth fuel' g depths q = Some depths'.
Proof.
  revert fuel' depths q. induction fuel as [|fuel IH]; intros fuel' depths q Hrun Hle.
  - destruct q as [|[m d] q]; [|done]. by destruct fuel'.
  - destruct q as [|[m d] q]; [by destruct fuel'|].
    destruct fuel' as [|fuel']; [lia|]. simpl in *.
    destruct (assignDepthToModule g m d depths q) as [d1 q1]. apply IH; [done|lia].
Qed.

(** The loop of [assignDepth] ends: a turn writes a first depth, lowers a
    depth, or shortens the queue. *)
Lemma runDepth_terminates depths q :
  depthInv depths q →
  ∃ fuel depths', runDepth fuel g depths q = Some depths' ∧
    depthInv depths' [] ∧
    (∀ m d, depths !! m = Some d → ∃ d', depths' !! m = Some d' ∧ d' ≤ d) ∧
    (∀ m d, (m, d) ∈ q → ∃ d', depths' !! m = Some d' ∧ d' ≤ d).
Proof.
  remember (undepthedCount depths) as n eqn:Hn. revert depths q Hn.
  induction n as [n IHn] using lt_wf_ind. intros depths q Hn.
  remember (depthSum depths) as w eqn:Hw. revert depths q Hn Hw.
  induction w as [w IHw] using lt_wf_ind. intros depths q Hn Hw.
  remember (length q) as k eqn:Hk. revert depths q Hn Hw Hk.
  induction k as [k IHk] using lt_wf_ind. intros depths q Hn Hw Hk Hinv.
  destruct q as [|[m d] q].
  - exists 0, depths. split_and!; [done|done| |].
    + intros m d Hm. by exists d.
    + intros m d Hin. by apply elem_of_nil in Hin.
  - destruct (assignDepthToModule_inv depths m d q Hinv) as (Hinv1 & Hstep & Hmono & Hitems).
    destruct (assignDepthToModule g m d depths q) as [d1 q1] eqn:Hturn. cbn [fst snd] in *.
    assert (∃ fuel depths', runDepth fuel g d1 q1 = Some depths' ∧ depthInv depths' [] ∧
              (∀ m d, d1 !! m = Some d → ∃ d', depths' !! m = Some d' ∧ d' ≤ d) ∧
              (∀ m d, (m, d) ∈ q1 → ∃ d', depths' !! m = Some d' ∧ d' ≤ d))
      as (fuel & depths' & Hrun & Hinv' & Hmono' & Hitems').
    { destruct Hstep as [Hlt|[[Heq Hlt]|(Heq1 & Heq2 & Hlt)]].
      - eapply (IHn (undepthedCount d1)); [lia|done|done].
      - eapply (IHw (depthSum d1)); [lia|lia|done|done].
      - eapply (IHk (length q1)); [lia|lia|lia|done|done]. }
    exists (S fuel), depths'. simpl. rewrite Hturn.
    split_and!; [done|done| |].
    + intros m' d' Hm'. destruct (Hmono m' d' Hm') as (d2 & Hd2 & Hle).
      destruct (Hmono' m' d2 Hd2) as (d3 & Hd3 & Hle'). exists d3. split; [done|lia].
    + intros m' d' Hin. destruct (Hitems m' d' Hin) as [(d2 & Hd2 & Hle)|Hin1].
      * destruct (Hmono' m' d2 Hd2) as (d3 & Hd3 & Hle'). exists d3. split; [done|lia].
      * by apply Hitems'.
Qed.

Lemma depthInv_enter depths m :
  depthInv depths [] → m ∈ roots → depthInv depths [(m, 0)].
Proof.
  intros [Hs Hq Hc] Hm. split; [done| |].
  - intros m' d' [= -> ->]%list_elem_of_singleton. by apply hops_root.
  - intros m1 d1 c Hm1 Hc1. destruct (Hc m1 d1 c Hm1 Hc1) as [?|(d' & Hin & _)]; [by left|].
    by apply elem_of_nil in Hin.
Qed.

Lemma assignDepth_terminates depths m :
  depthInv depths [] → m ∈ roots →
  ∃ fuel depths', assignDepth fuel g m depths = Some depths' ∧
    depthInv depths' [] ∧
    (∀ m' d, depths !! m' = Some d → ∃ d', depths' !! m' = Some d' ∧ d' ≤ d) ∧
    depths' !! m = Some 0.
Proof.
  intros Hinv Hm.
  destruct (runDepth_terminates depths [(m, 0)])
    as (fuel & depths' & Hrun & Hinv' & Hmono & Hitems); [by apply depthInv_enter|].
  exists fuel, depths'. split_and!; try done.
  destruct (Hitems m 0) as (d' & Hd' & Hle); [apply list_elem_of_here|].
  by replace d' with 0 in Hd' by lia.
Qed.

(** With an empty queue and the roots at depth 0, every chain of
    dependencies bounds the depth of its end. *)
Lemma depthInv_bound depths m n :
  depthInv depths [] → (∀ r, r ∈ roots → depths !! r = Some 0) →
  hops g roots m n → ∃ d, depths !! m = Some d ∧ d ≤ n.
Proof.
  intros Hinv Hroots. induction 1 as [m Hm|m c n _ (d & Hd & Hle) Hc].
  - exists 0. split; [by apply Hroots|done].
  - destruct (di_closed _ _ Hinv m d c Hd Hc) as [(d' & Hd' & Hle')|(d' & Hin & _)].
    + exists d'. split; [done|lia].
    + by apply elem_of_nil in Hin.
Qed.

End AssignDepth.

(** *** The pass of [seal] over the entry modules *)

Section Seal.
Variable g : gmap ref DependenciesBlock.
Variable roots : list ref.

(** What holds between two turns of the forEach, [ready] being the entry
    modules already walked. *)
Record sealInv (s : State) (ready : list ref) : Prop := mkSealInv {
  si_index : indexInv g roots (indices s) [];
  si_depth : depthInv g roots (depth s) [];
  si_indexed : ∀ r, r ∈ ready → r ∈ (assigned (indices s)).*1;
  si_depth0 : ∀ r, r ∈ ready → depth s !! r = Some 0
}.

Lemma sealInv_unindexed : sealInv (resetCounters unindexed) [].
Proof.
  split; simpl.
  - split; simpl; try done.
    + intros m i. rewrite lookup_empty. split; [done|]. intros Hin. by apply elem_of_nil in Hin.
    + constructor.
    + intros m i. rewrite lookup_empty. split; [done|]. intros Hin. by apply elem_of_nil in Hin.
    + intros m c Hm. by apply elem_of_nil in Hm.
    + intros m Hm. by apply elem_of_nil in Hm.
    + intros c Hc. by apply elem_of_nil in Hc.
  - split.
    + intros m d. by rewrite lookup_empty.
    + intros m d Hin. by apply elem_of_nil in Hin.
    + intros m d c. by rewrite lookup_empty.
  - intros r Hr. by apply elem_of_nil in Hr.
  - intros r Hr. by apply elem_of_nil in Hr.
Qed.

Lemma sealModules_more fuel fuel' s modules s' :
  sealModules fuel g s modules = Some s' → fuel ≤ fuel' →
  sealModules fuel' g s modules = Some s'.
Proof.
  revert s. induction modules as [|m modules IH]; intros s Hrun Hle; [done|].
  simpl in *. unfold sealModule in *.
  destruct (assignIndex fuel g m (indices s)) as [i|] eqn:Hi; [|done]. simpl in Hrun.
  destruct (assignDepth fuel g m (depth s)) as [d|] eqn:Hd; [|done]. simpl in Hrun.
  unfold assignIndex, assignDepth in *.
  rewrite (runQueue_more g fuel fuel' _ _ _ Hi Hle). simpl.
  rewrite (runDepth_more g fuel fuel' _ _ _ Hd Hle). simpl.
  by apply IH.
Qed.

Lemma sealModules_terminates modules s ready :
  (∀ m, m ∈ modules → m ∈ roots) → sealInv s ready →
  ∃ fuel s', sealModules fuel g s modules = Some s' ∧ sealInv s' (ready ++ modules).
Proof.
  revert s ready. induction modules as [|m modules IH]; intros s ready Hroots Hinv.
  - exists 0, s. by rewrite app_nil_r.
  - destruct Hinv as [Hi Hd Hin H0].
    assert (m ∈ roots) as Hm by apply Hroots, list_elem_of_here.
    destruct (assignIndex_terminates g roots (indices s) m Hi)
      as (fuel1 & i & Hrun1 & Hi' & Hpre & _ & Hmi); [exists 0; by apply hops_root|].
    destruct (assignDepth_terminates g roots (depth s) m Hd Hm)
      as (fuel2 & d & Hrun2 & Hd' & Hmono & Hmd).
    destruct (IH (mkState i d) (ready ++ [m])) as (fuel3 & s' & Hrun3 & Hinv').
    { intros m' Hm'. apply Hroots. by apply list_elem_of_further. }
    { split; simpl; [done|done| |].
      - intros r [Hr| ->%list_elem_of_singleton]%elem_of_app; [|done].
        destruct Hpre as [k ->]. rewrite fmap_app. apply elem_of_app. left. by apply Hin.
      - intros r [Hr| ->%list_elem_of_singleton]%elem_of_app; [|done].
        destruct (Hmono r 0 (H0 r Hr)) as (d' & Hd'' & Hle).
        by replace d' with 0 in Hd'' by lia. }
    exists (fuel1 `max` (fuel2 `max` fuel3)), s'.
    rewrite <- (assoc (++)) in Hinv'. split; [|done].
    simpl. unfold sealModule, assignIndex, assignDepth in *.
    rewrite (runQueue_more g fuel1 _ _ _ _ Hrun1) by lia. simpl.
    rewrite (runDepth_more g fuel2 _ _ _ _ Hrun2) by lia. simpl.
    apply (sealModules_more fuel3); [done|lia].
Qed.

End Seal.

Lemma seal_terminates g entryModules :
  ∃ fuel s, (∀ fuel', fuel ≤ fuel' → seal fuel' g entryModules unindexed = Some s) ∧
    sealInv g entryModules s entryModules.
Proof.
  destruct (sealModules_terminates g entryModules entryModules (resetCounters unindexed) [])
    as (fuel & s & Hrun & Hinv); [done|apply sealInv_unindexed|].
  exists fuel, s. split; [|done]. intros fuel' Hle. by apply (sealModules_more g fuel).
Qed.


(** C2.  In a pass of [seal] over modules that carry no depth yet, the
    walk ends (with enough fuel, and then with the same result for any
    larger fuel), and afterwards the depth of a module is [d] exactly when [d]
    is the least number of dependency hops from an entry module to it;
    modules out of reach keep no depth. *)
Theorem seal_depth_is_least_hops g entryModules :
  ∃ fuel s, (∀ fuel', fuel ≤ fuel' → seal fuel' g entryModules unindexed = Some s) ∧
    ∀ m d, depth s !! m = Some d ↔
           (hops g entryModules m d ∧ ∀ n, hops g entryModules m n → d ≤ n).
Proof.
  destruct (seal_terminates g entryModules) as (fuel & s & Hrun & [Hi Hd Hin H0]).
  exists fuel, s. split; [done|]. intros m d. split.
  - intros Hm. split; [by apply (di_sound _ _ _ _ Hd)|].
    intros n Hn. destruct (depthInv_bound g entryModules (depth s) m n Hd H0 Hn)
      as (d' & Hd' & Hle). congruence.
  - intros [Hm Hmin].
    destruct (depthInv_bound g entryModules (depth s) m d Hd H0 Hm) as (d' & Hd' & Hle).
    pose proof (di_sound _ _ _ _ Hd _ _ Hd') as Hd''. apply Hmin in Hd''.
    by replace d with d' by lia.
Qed.

(** The graph of the claim: the entry module 0 depends on A = 1 and on
    C = 2, and A depends on C.  C is first met below A, at depth 2, and then
    lowered to 1. *)
Definition diamond : gmap ref DependenciesBlock :=
  {[ 0 := mkBlock [] [mkDependency 0 (Some 2) false false;
                      mkDependency 1 (Some 1) false false] [];
     1 := mkBlock [] [mkDependency 2 (Some 2) false false] [];
     2 := emptyBlock ]}.

Example diamond_depths :
  depth <$> seal 20 diamond [0] unindexed = Some {[ 0 := 0; 1 := 1; 2 := 1 ]}.
Proof. vm_compute. reflexivity. Qed.

Example diamond_indices :
  (λ s, (assigned (indices s), assigned2 (indices s))) <$> seal 20 diamond [0] unindexed
  = Some ([(0, 0); (2, 1); (1, 2)], [(2, 0); (1, 1); (0, 2)]).
Proof. vm_compute. reflexivity. Qed.

End Indexer.

(** ** Chunk graph: [removeChunkFromDependencies] and [rebuildModule] *)

Module ChunkGraph.

(** A nested block of a module: a split point with the chunks it loads
    ([null] until the chunk graph is built). *)
Record AsyncBlock := mkAsyncBlock {
  ab_chunks : option (list cref)        (* blocks[indexBlock].chunks *)
}.

(** A module as a block, as [removeChunkFromDependencies] reads it. *)
Record ModuleBlock := mkModuleBlock {
  mb_blocks : list AsyncBlock;                      (* block.blocks *)
  mb_dependencies : list Dependency;                (* block.dependencies *)
  mb_variables : list (list Dependency)             (* the dependencies of each of block.variables *)
}.

Definition emptyModule : ModuleBlock := mkModuleBlock [] [] [].

Definition moduleBlock (g : gmap ref ModuleBlock) (m : ref) : ModuleBlock :=
  default emptyModule (g !! m).

(** A reason of a module: the requesting module and the dependency. *)
Record Reason := mkReason {
  r_module : ref;
  r_dependency : nat       (* the dependency object, by identity *)
}.

#[global] Instance Reason_eq_dec : EqDecision Reason.
Proof. solve_decision. Defined.

Record State := mkState {
  module_chunks : gmap ref (list cref);     (* module.chunks *)
  module_reasons : gmap ref (list Reason);  (* module.reasons *)
  chunk_modules : gmap cref (list ref);     (* chunk.modules *)
  chunk_chunks : gmap cref (list cref);     (* chunk.chunks *)
  chunk_parents : gmap cref (list cref)     (* chunk.parents *)
}.

Definition field {A} (f : gmap nat (list A)) (o : nat) : list A := default [] (f !! o).

(** Removing the first occurrence, as indexOf and splice do. *)
Fixpoint removeFirst {A} `{EqDecision A} (x : A) (l : list A) : list A :=
  match l with
  | [] => []
  | y :: l => if decide (y = x) then l else y :: removeFirst x l
  end.

(** Modelled from the spec: Module.removeReason(module, dependency), absent
    from src: the reasons are "a multiset of (requesting module, dependency)
    pairs"; one occurrence of the pair is removed and the result tells
    whether there was one. *)
Definition removeReason (m : ref) (r : Reason) (s : State) : bool * State :=
  if decide (r ∈ field (module_reasons s) m) then
    (true, mkState (module_chunks s)
             (<[m := removeFirst r (field (module_reasons s) m)]> (module_reasons s))
             (chunk_modules s) (chunk_chunks s) (chunk_parents s))
  else (false, s).

(** Modelled from the spec: Module.hasReasonForChunk(chunk), absent from
    src: "no remaining reason justifies that module's presence in that
    chunk"; a reason justifies the presence in a chunk when its requesting
    module is a member of the chunk. *)
Definition hasReasonForChunk (m : ref) (chunk : cref) (s : State) : bool :=
  bool_decide (Exists (λ r, chunk ∈ field (module_chunks s) (r_module r))
                 (field (module_reasons s) m)).

(** Modelled from the spec: Module.removeChunk(chunk), absent from src:
    the module leaves the chunk, on both sides of the membership ("set of
    Chunks it belongs to", "set of member Modules"); the result tells
    whether it was a member. *)
Definition removeChunk (m : ref) (chunk : cref) (s : State) : bool * State :=
  if decide (chunk ∈ field (module_chunks s) m) then
    (true, mkState (<[m := removeFirst chunk (field (module_chunks s) m)]> (module_chunks s))
             (module_reasons s)
             (<[chunk := removeFirst m (field (chunk_modules s) chunk)]> (chunk_modules s))
             (chunk_chunks s) (chunk_parents s))
  else (false, s).

(** Modelled from the spec: chunk.removeChunk(blockChunk) and
    blockChunk.removeParent(chunk), absent from src: the two directions of
    the "parent/child Chunk relations". *)
Definition detachChunk (chunk blockChunk : cref) (s : State) : State :=
  mkState (module_chunks s) (module_reasons s) (chunk_modules s)
    (<[chunk := removeFirst blockChunk (field (chunk_chunks s) chunk)]> (chunk_chunks s))
    (<[blockChunk := removeFirst chunk (field (chunk_parents s) blockChunk)]> (chunk_parents s)).

(** How a call ends. *)
Inductive outcome :=
  | Returned (s : State)
  | Thrown (e : Error) (s : State)
  | OutOfFuel.

(** What is passed as [block]: a module, or the array [chunks] of a
    nested block (line 889). *)
Inductive blockArg :=
  | AModule (m : ref)
  | AChunks (chunks : list cref).

Definition lengthOfUndefined : Error :=
  JsError "TypeError" "Cannot read property 'length' of undefined".

Definition lengthOfNull : Error :=
  JsError "TypeError" "Cannot read property 'length' of null".

(** The loop over block.blocks for a module.  The call of line 889 passes
    the array [chunks], whose [blocks] is undefined: it throws on
    blocks.length. *)
Fixpoint detachBlocks (blocks : list AsyncBlock) (chunk : cref) (s : State) : outcome :=
  match blocks with
  | [] => Returned s
  | b :: blocks =>
      match ab_chunks b with
      | None => Thrown lengthOfNull s                  (* chunks.length *)
      | Some [] => detachBlocks blocks chunk s
      | Some (blockChunk :: _) =>
          (* chunk.removeChunk(blockChunk); blockChunk.removeParent(chunk);
             this.removeChunkFromDependencies(chunks, blockChunk); *)
          Thrown lengthOfUndefined (detachChunk chunk blockChunk s)
      end
  end.

Fixpoint removeChunkFromDependencies (fuel : nat) (g : gmap ref ModuleBlock)
    (block : blockArg) (chunk : cref) (s : State) : outcome :=
  match fuel with
  | 0 => OutOfFuel
  | S fuel =>
      match block with
      | AChunks _ => Thrown lengthOfUndefined s        (* var blocks = block.blocks; blocks.length *)
      | AModule m =>
          let iteratorDependency (d : Dependency) (s : State) : outcome :=
            match dep_module d with
            | None => Returned s
            | Some dm =>
                if hasReasonForChunk dm chunk s then Returned s
                else
                  let '(removed, s) := removeChunk dm chunk s in
                  if removed then removeChunkFromDependencies fuel g (AModule dm) chunk s
                  else Returned s
            end in
          let iterate :=
            fix iterate (ds : list Dependency) (s : State) : outcome :=
              match ds with
              | [] => Returned s
              | d :: ds =>
                  match iteratorDependency d s with
                  | Returned s => iterate ds s
                  | o => o
                  end
              end in
          match detachBlocks (mb_blocks (moduleBlock g m)) chunk s with
          | Returned s =>
              match iterate (mb_dependencies (moduleBlock g m)) s with
              | Returned s => iterate (concat (mb_variables (moduleBlock g m))) s
              | o => o
              end
          | o => o
          end
      end
  end.

(** module.chunks.forEach(chunk => ...) of [rebuildModule]: the elements
    are read from the live array, position by position, up to the length
    the array had at the start. *)
Fixpoint forEachChunk (fuel : nat) (g : gmap ref ModuleBlock) (module dm : ref)
    (k todo : nat) (s : State) : outcome :=
  match todo with
  | 0 => Returned s
  | S todo =>
      match field (module_chunks s) module !! k with
      | None => forEachChunk fuel g module dm (S k) todo s
      | Some chunk =>
          if hasReasonForChunk dm chunk s then forEachChunk fuel g module dm (S k) todo s
          else
            let '(removed, s1) := removeChunk dm chunk s in
            if removed then
              match removeChunkFromDependencies fuel g (AModule dm) chunk s1 with
              | Returned s2 => forEachChunk fuel g module dm (S k) todo s2
              | o => o
              end
            else forEachChunk fuel g module dm (S k) todo s1
      end
  end.

(** The callback of processModuleDependencies in [rebuildModule]:
    deps.forEach(d => ...) over the dependencies the module had before the
    rebuild. *)
Fixpoint rebuildModuleDone (fuel : nat) (g : gmap ref ModuleBlock) (module : ref)
    (deps : list Dependency) (s : State) : outcome :=
  match deps with
  | [] => Returned s
  | d :: deps =>
      match dep_module d with
      | None => rebuildModuleDone fuel g module deps s
      | Some dm =>
          let '(removed, s1) := removeReason dm (mkReason module (dep_oid d)) s in
          if removed then
            match forEachChunk fuel g module dm 0
                    (length (field (module_chunks s1) module)) s1 with
            | Returned s2 => rebuildModuleDone fuel g module deps s2
            | o => o
            end
          else rebuildModuleDone fuel g module deps s1
      end
  end.

Definition complexModule : Error :=
  JsError "Error" "Cannot rebuild a complex module with variables or blocks".

(** [rebuildModule], from the guard to the callback: [before] is the block
    of the module when the rebuild starts, and [g] and [s] are the graph
    and the chunk graph once buildModule and processModuleDependencies have
    run (the reasons of the new dependencies are in). *)
Definition rebuildModule (fuel : nat) (before : ModuleBlock) (g : gmap ref ModuleBlock)
    (module : ref) (s : State) : outcome :=
  match mb_variables before, mb_blocks before with
  | [], [] => rebuildModuleDone fuel g module (mb_dependencies before) s
  | _, _ => Thrown complexModule s
  end.

(** While every chunk of the rebuilt module still has a reason for the
    target, the target keeps its chunks: nothing is written. *)
Lemma forEachChunk_justified fuel g module dm k todo s :
  (∀ chunk, chunk ∈ field (module_chunks s) module → hasReasonForChunk dm chunk s = true) →
  forEachChunk fuel g module dm k todo s = Returned s.
Proof.
  intros Hall. revert k. induction todo as [|todo IH]; intros k; simpl; [done|].
  destruct (field (module_chunks s) module !! k) as [chunk|] eqn:Hk; [|apply IH].
  rewrite Hall; [apply IH|]. by eapply list_elem_of_lookup_2.
Qed.

(** Whatever the reasons are: for a module whose first nested block has a
    chunk, the call detaches that chunk and throws, before any dependency
    of the module is looked at. *)
Lemma removeChunkFromDependencies_split_point fuel g m chunk s b bs blockChunk more :
  mb_blocks (moduleBlock g m) = b :: bs →
  ab_chunks b = Some (blockChunk :: more) →
  removeChunkFromDependencies (S fuel) g (AModule m) chunk s
  = Thrown lengthOfUndefined (detachChunk chunk blockChunk s).
Proof. intros Hblocks Hchunks. simpl. by rewrite Hblocks; simpl; rewrite Hchunks. Qed.

(** The rebuilt module 0 is in chunk 0 and has dropped its dependency 10
    on module 1.  Module 1 is in chunk 0 for that reason only, has a split
    point that loads chunk 1, and a dependency 11 on module 2, which is in
    chunk 0 because of module 1 only. *)
Definition splitGraph : gmap ref ModuleBlock :=
  {[ 0 := emptyModule;
     1 := mkModuleBlock [mkAsyncBlock (Some [1])] [mkDependency 11 (Some 2) false false] [];
     2 := emptyModule ]}.

Definition beforeRebuild : ModuleBlock :=
  mkModuleBlock [] [mkDependency 10 (Some 1) false false] [].

Definition splitState : State :=
  mkState {[ 0 := [0]; 1 := [0]; 2 := [0] ]}
    {[ 1 := [mkReason 0 10]; 2 := [mkReason 1 11] ]}
    {[ 0 := [0; 1; 2] ]}
    {[ 0 := [1] ]}
    {[ 1 := [0] ]}.

(** C3, on the code: removing the last reason of module 1 takes it out of
    chunk 0 and detaches chunk 1, and then the call of line 889 throws:
    module 2, left without a reason for chunk 0, is still a member. *)
Theorem rebuildModule_throws_at_split_point :
  rebuildModule 10 beforeRebuild splitGraph 0 splitState
  = Thrown lengthOfUndefined
      (mkState {[ 0 := [0]; 1 := []; 2 := [0] ]}
         {[ 1 := []; 2 := [mkReason 1 11] ]}
         {[ 0 := [0; 2] ]}
         {[ 0 := [] ]}
         {[ 1 := [] ]}).
Proof. vm_compute. reflexivity. Qed.

(** The same graph without the split point: the removal goes on to
    module 2. *)
Example rebuildModule_cascades_without_blocks :
  rebuildModule 10 beforeRebuild
    (<[1 := mkModuleBlock [] [mkDependency 11 (Some 2) false false] []]> splitGraph)
    0 splitState
  = Returned
      (mkState {[ 0 := [0]; 1 := []; 2 := [] ]}
         {[ 1 := []; 2 := [mkReason 1 11] ]}
         {[ 0 := [0] ]}
         {[ 0 := [1] ]}
         {[ 1 := [0] ]}).
Proof. vm_compute. reflexivity. Qed.

(** A second reason for module 1 from a member of chunk 0: removing the
    first changes the reasons and nothing else. *)
Example rebuildModule_keeps_justified_module :
  let s := mkState (module_chunks splitState)
             (<[1 := [mkReason 0 10; mkReason 2 12]]> (module_reasons splitState))
             (chunk_modules splitState) (chunk_chunks splitState) (chunk_parents splitState) in
  rebuildModule 10 beforeRebuild splitGraph 0 s
  = Returned (mkState (module_chunks s) (<[1 := [mkReason 2 12]]> (module_reasons s))
                (chunk_modules s) (chunk_chunks s) (chunk_parents s)).
Proof. vm_compute. reflexivity. Qed.

End ChunkGraph.

(** ** Id assigner: [applyModuleIds] and [applyChunkIds] *)

Module Ids.

Import SelfCheck.

#[global] Instance Id_eq_dec : EqDecision Id.
Proof. solve_decision. Defined.

(** An id as a condition: null, 0 and the empty string are falsy. *)
Definition truthyId (id : Id) : bool :=
  match id with
  | IdNull => false
  | IdNum n => negb (n =? 0)
  | IdStr s => negb (String.eqb s "")
  end.

(** if(!usedIdMap[id]) { usedIds.push(id); usedIdMap[id] = true; }, on the
    pair of [usedIds] and the property names of [usedIdMap] (an object
    without prototype). *)
Definition markUsed (st : list Id * gset string) (id : Id) : list Id * gset string :=
  if decide (idKey id ∈ st.2) then st else (st.1 ++ [id], {[idKey id]} ∪ st.2).

(** The first two loops: the values of this.usedModuleIds (in the order of
    Object.keys), then the ids of the modules that are truthy. *)
Definition collectUsed (usedModuleIds : option (list (string * Id)))
    (ids : gmap ref Id) (modules : list ref) : list Id * gset string :=
  let st := foldl (λ st kv, markUsed st kv.2) ([], ∅) (default [] usedModuleIds) in
  foldl (λ st m,
           let id := default IdNull (ids !! m) in
           if truthyId id then markUsed st id else st) st modules.

(** The largest number among usedIds, from -1. *)
Definition usedIdMax (usedIds : list Id) : Z :=
  foldl (λ acc id, match id with
                   | IdNum n => Z.max acc (Z.of_nat n)
                   | _ => acc
                   end) (-1)%Z usedIds.

(** while(lengthFreeModules--) if(!usedIdMap[lengthFreeModules])
    unusedIds.push(lengthFreeModules): the array, from the largest unused
    number down to the smallest. *)
Definition unusedBelow (usedIdMap : gset string) (next : nat) : list nat :=
  filter (λ k, pretty k ∉ usedIdMap) (reverse (seq 0 next)).

(** array.pop() *)
Definition pop {A} (array : list A) : option (A * list A) :=
  match reverse array with
  | [] => None
  | x :: rest => Some (x, reverse rest)
  end.

(** The body of the last loop, on [unusedIds], [nextFreeModuleId] and the
    ids of the module objects. *)
Definition assignId (st : list nat * nat * gmap ref Id) (m : ref)
    : list nat * nat * gmap ref Id :=
  let '(unusedIds, next, ids) := st in
  match default IdNull (ids !! m) with
  | IdNull =>
      match pop unusedIds with
      | Some (id, unusedIds) => (unusedIds, next, <[m := IdNum id]> ids)
      | None => (unusedIds, S next, <[m := IdNum next]> ids)
      end
  | _ => st
  end.

(** The module ids after [applyModuleIds]. *)
Definition applyModuleIds (usedModuleIds : option (list (string * Id)))
    (ids : gmap ref Id) (modules : list ref) : gmap ref Id :=
  let '(usedIds, usedIdMap) := collectUsed usedModuleIds ids modules in
  let '(unusedIds, next) :=
    if decide (0 < length usedIds) then
      let next := Z.to_nat (usedIdMax usedIds + 1) in
      (unusedBelow usedIdMap next, next)
    else ([], 0) in
  (foldl assignId (unusedIds, next, ids) modules).2.

(** getNextFreeChunkId(usedChunkIds) + 1 *)
Definition nextFreeChunkId (usedChunkIds : gmap string Id) : nat :=
  Z.to_nat (map_fold (λ _ id acc, match id with
                                  | IdNum n => Z.max acc (Z.of_nat n)
                                  | _ => acc
                                  end) (-1)%Z usedChunkIds + 1).

(** while(index--) if(this.usedChunkIds[index] !== index) unusedIds.push(index) *)
Definition unusedChunkIds (usedChunkIds : gmap string Id) (next : nat) : list nat :=
  filter (λ k, usedChunkIds !! pretty k ≠ Some (IdNum k)) (reverse (seq 0 next)).

Record ChunkIds := mkChunkIds {
  chunk_id : gmap cref Id;            (* chunk.id; no entry: null *)
  chunk_ids : gmap cref (list Id)     (* chunk.ids; no entry: not set *)
}.

(** The body of the loop of [applyChunkIds]. *)
Definition assignChunk (st : list nat * nat * ChunkIds) (chunk : cref)
    : list nat * nat * ChunkIds :=
  let '(unusedIds, next, c) := st in
  let '(unusedIds, next, id) :=
    match default IdNull (chunk_id c !! chunk) with
    | IdNull =>
        match pop unusedIds with
        | Some (id, unusedIds) => (unusedIds, next, <[chunk := IdNum id]> (chunk_id c))
        | None => (unusedIds, S next, <[chunk := IdNum next]> (chunk_id c))
        end
    | _ => (unusedIds, next, chunk_id c)
    end in
  (unusedIds, next,
   mkChunkIds id
     (match chunk_ids c !! chunk with
      | Some _ => chunk_ids c
      | None => <[chunk := [default IdNull (id !! chunk)]]> (chunk_ids c)
      end)).

Definition applyChunkIds (usedChunkIds : option (gmap string Id)) (c : ChunkIds)
    (chunks : list cref) : ChunkIds :=
  let '(unusedIds, next) :=
    match usedChunkIds with
    | Some used =>
        let next := nextFreeChunkId used in (unusedChunkIds used next, next)
    | None => ([], 0)
    end in
  (foldl assignChunk (unusedIds, next, c) chunks).2.

(** The ids handed out to [n] objects, in order: the unused numbers from the
    smallest up, then the numbers from [next] on. *)
Definition supply (free : list nat) (next n : nat) : list nat :=
  take n free ++ seq next (n - length free).

(** The ids the first two loops look at: the values of usedModuleIds and
    the truthy ids of the modules. *)
Definition idOf (ids : gmap ref Id) (m : ref) : Id := default IdNull (ids !! m).

Definition usedList (usedModuleIds : option (list (string * Id)))
    (ids : gmap ref Id) (modules : list ref) : list Id :=
  (snd <$> default [] usedModuleIds) ++ filter (λ id, Is_true (truthyId id)) (idOf ids <$> modules).

Definition isNull (ids : gmap ref Id) (m : ref) : Prop := default IdNull (ids !! m) = IdNull.

#[global] Instance isNull_dec ids m : Decision (isNull ids m).
Proof. unfold isNull. solve_decision. Defined.

Example applyModuleIds_reuses_freed :
  applyModuleIds (Some [("a", IdNum 0); ("b", IdNum 2); ("c", IdNum 4)])
    {[ 0 := IdNum 2; 1 := IdNum 4 ]} [0; 1; 2; 3; 4]
  = {[ 0 := IdNum 2; 1 := IdNum 4; 2 := IdNum 1; 3 := IdNum 3; 4 := IdNum 5 ]}.
Proof. vm_compute. reflexivity. Qed.

Lemma pop_reverse_cons {A} (a : A) (asc : list A) :
  pop (reverse (a :: asc)) = Some (a, reverse asc).
Proof. unfold pop. rewrite reverse_involutive. reflexivity. Qed.

Lemma filter_isNull_insert (ids : gmap ref Id) (m : ref) (id : Id) (modules : list ref) :
  m ∉ modules → filter (isNull (<[m := id]> ids)) modules = filter (isNull ids) modules.
Proof.
  intros Hm. induction modules as [|x l IH]; [done|].
  apply not_elem_of_cons in Hm as [Hx Hl].
  rewrite !filter_cons, (IH Hl).
  assert (Hiff : isNull (<[m := id]> ids) x ↔ isNull ids x).
  { unfold isNull. rewrite lookup_insert_ne by done. reflexivity. }
  repeat case_decide; tauto.
Qed.

(** The last loop hands out [supply] to the objects without id, in list
    order, and touches nothing else. *)
Lemma assign_supply (modules : list ref) :
  ∀ (asc : list nat) (next : nat) (ids : gmap ref Id),
  NoDup modules →
  let nulls := filter (isNull ids) modules in
  let r := foldl assignId (reverse asc, next, ids) modules in
  r.1.1 = reverse (drop (length nulls) asc) ∧
  r.1.2 = next + (length nulls - length asc) ∧
  (∀ m, m ∉ nulls → r.2 !! m = ids !! m) ∧
  (λ m, r.2 !! m) <$> nulls = Some ∘ IdNum <$> supply asc next (length nulls).
Proof.
  induction modules as [|m l IH]; intros asc next ids Hnd.
  { simpl. rewrite drop_0. unfold supply. simpl. repeat split; try done; lia. }
  apply NoDup_cons in Hnd as [Hm Hl]. cbn zeta.
  destruct (decide (isNull ids m)) as [Hnull|Hnull].
  - rewrite filter_cons_True by done.
    assert (Hout : m ∉ filter (isNull ids) l).
    { intros Hin. apply list_elem_of_filter in Hin as [_ Hin]. done. }
    cbn [foldl assignId]. unfold isNull in Hnull. rewrite Hnull.
    destruct asc as [|a asc].
    + change (reverse []) with (@nil nat). cbn [pop reverse rev_append].
      destruct (IH [] (S next) (<[m := IdNum next]> ids) Hl) as (H1 & H2 & H3 & H4).
      rewrite filter_isNull_insert in H1, H2, H3, H4 by done.
      change (reverse []) with (@nil nat) in H1, H2, H3, H4. cbn zeta in *.
      split; [rewrite H1; by rewrite !drop_nil|].
      split; [rewrite H2; cbn [length]; lia|].
      split.
      * intros m' Hm'. apply not_elem_of_cons in Hm' as [Hne Hm'].
        rewrite (H3 m' Hm'). by rewrite lookup_insert_ne.
      * rewrite fmap_cons, H4, (H3 m Hout), lookup_insert_eq.
        unfold supply. cbn [length take app]. rewrite !Nat.sub_0_r, take_nil.
        reflexivity.
    + rewrite pop_reverse_cons.
      destruct (IH asc next (<[m := IdNum a]> ids) Hl) as (H1 & H2 & H3 & H4).
      rewrite filter_isNull_insert in H1, H2, H3, H4 by done. cbn zeta in *.
      split; [exact H1|]. split; [rewrite H2; cbn [length]; lia|].
      split.
      * intros m' Hm'. apply not_elem_of_cons in Hm' as [Hne Hm'].
        rewrite (H3 m' Hm'). by rewrite lookup_insert_ne.
      * rewrite fmap_cons, H4, (H3 m Hout), lookup_insert_eq. reflexivity.
  - rewrite filter_cons_False by done.
    assert (Hstep : assignId (reverse asc, next, ids) m = (reverse asc, next, ids)).
    { unfold assignId. unfold isNull in Hnull.
      destruct (default IdNull (ids !! m)); done. }
    cbn [foldl]. rewrite Hstep. apply IH, Hl.
Qed.

Lemma supply_NoDup (P : nat → Prop) `{∀ k, Decision (P k)} (next n : nat) :
  NoDup (supply (filter P (seq 0 next)) next n).
Proof.
  unfold supply. apply NoDup_app. split; [|split].
  - eapply sublist_NoDup; [|apply sublist_take].
    apply NoDup_filter, NoDup_seq.
  - intros k Hk Hk'. apply subseteq_take in Hk.
    apply list_elem_of_filter in Hk as [_ Hk].
    apply elem_of_seq in Hk. apply elem_of_seq in Hk'. lia.
  - apply NoDup_seq.
Qed.

Lemma supply_length (free : list nat) (next n : nat) : length (supply free next n) = n.
Proof. unfold supply. rewrite length_app, length_take, length_seq. lia. Qed.

Lemma supply_elem (P : nat → Prop) `{∀ k, Decision (P k)} (next n k : nat) :
  k ∈ supply (filter P (seq 0 next)) next n → (k < next ∧ P k) ∨ next ≤ k.
Proof.
  unfold supply. intros [Hk|Hk]%elem_of_app.
  - apply subseteq_take in Hk. apply list_elem_of_filter in Hk as [HP Hk].
    apply elem_of_seq in Hk. left. split; [lia|done].
  - apply elem_of_seq in Hk. right. lia.
Qed.

(** What the first two loops establish about [usedIds] and [usedIdMap],
    for the list [L] of ids they have looked at. *)
Definition usedInv (st : list Id * gset string) (L : list Id) : Prop :=
  st.2 = list_to_set (idKey <$> st.1) ∧
  (∀ id, id ∈ st.1 → id ∈ L) ∧
  (∀ id, id ∈ L → idKey id ∈ st.2).

Lemma markUsed_inv (st : list Id * gset string) (L : list Id) (id : Id) :
  usedInv st L → usedInv (markUsed st id) (L ++ [id]).
Proof.
  destruct st as [usedIds usedIdMap]. unfold usedInv, markUsed. simpl.
  intros (Hmap & Hsub & Hkeys). case_decide as Hin; simpl.
  - split; [done|]. split.
    + intros x Hx. apply elem_of_app. left. by apply Hsub.
    + intros x [Hx| ->%list_elem_of_singleton]%elem_of_app; [by apply Hkeys|done].
  - split; [|split].
    + rewrite fmap_app, list_to_set_app_L, Hmap. simpl. set_solver.
    + intros x [Hx| ->%list_elem_of_singleton]%elem_of_app; apply elem_of_app.
      * left. by apply Hsub.
      * right. by apply list_elem_of_singleton.
    + intros x [Hx| ->%list_elem_of_singleton]%elem_of_app.
      * apply elem_of_union. right. by apply Hkeys.
      * apply elem_of_union. left. by apply elem_of_singleton.
Qed.

Lemma usedInv_values (l : list (string * Id)) :
  ∀ st L, usedInv st L →
  usedInv (foldl (λ st kv, markUsed st kv.2) st l) (L ++ (snd <$> l)).
Proof.
  induction l as [|kv l IH]; intros st L Hinv.
  - simpl. by rewrite app_nil_r.
  - rewrite fmap_cons. cbn [foldl].
    replace (L ++ kv.2 :: (snd <$> l)) with ((L ++ [kv.2]) ++ (snd <$> l))
      by (by rewrite <- (assoc_L (++))).
    apply IH, markUsed_inv, Hinv.
Qed.

Lemma usedInv_modules (ids : gmap ref Id) (modules : list ref) :
  ∀ st L, usedInv st L →
  usedInv (foldl (λ st m, let id := default IdNull (ids !! m) in
                          if truthyId id then markUsed st id else st) st modules)
          (L ++ filter (λ id, Is_true (truthyId id)) (idOf ids <$> modules)).
Proof.
  induction modules as [|m l IH]; intros st L Hinv.
  - simpl. by rewrite app_nil_r.
  - rewrite fmap_cons. cbn [foldl].
    destruct (decide (Is_true (truthyId (idOf ids m)))) as [Ht|Ht].
    + rewrite filter_cons_True by done.
      apply Is_true_true in Ht. unfold idOf in Ht. rewrite Ht.
      replace (L ++ idOf ids m :: filter (λ id, Is_true (truthyId id)) (idOf ids <$> l))
        with ((L ++ [idOf ids m]) ++ filter (λ id, Is_true (truthyId id)) (idOf ids <$> l))
        by (by rewrite <- (assoc_L (++))).
      apply IH, markUsed_inv, Hinv.
    + rewrite filter_cons_False by done.
      apply Is_true_false in Ht. unfold idOf in Ht. rewrite Ht. apply IH, Hinv.
Qed.

Lemma collectUsed_inv (usedModuleIds : option (list (string * Id)))
    (ids : gmap ref Id) (modules : list ref) :
  usedInv (collectUsed usedModuleIds ids modules) (usedList usedModuleIds ids modules).
Proof.
  unfold collectUsed, usedList. apply usedInv_modules.
  apply (usedInv_values _ ([], ∅) []). unfold usedInv. simpl. set_solver.
Qed.

Lemma usedIdMax_ge (usedIds : list Id) (k : nat) :
  IdNum k ∈ usedIds → (Z.of_nat k ≤ usedIdMax usedIds)%Z.
Proof.
  unfold usedIdMax. generalize (-1)%Z.
  induction usedIds as [|id l IH] using rev_ind; intros acc Hin.
  - by apply elem_of_nil in Hin.
  - rewrite foldl_app. simpl.
    apply elem_of_app in Hin as [Hin|Heq%list_elem_of_singleton].
    + specialize (IH acc Hin). destruct id; lia.
    + subst id. lia.
Qed.

(** nextFreeModuleId and, from the smallest up, unusedIds, as the last loop
    of [applyModuleIds] finds them. *)
Definition nextFreeModuleId (usedModuleIds : option (list (string * Id)))
    (ids : gmap ref Id) (modules : list ref) : nat :=
  Z.to_nat (usedIdMax (collectUsed usedModuleIds ids modules).1 + 1).

Definition freeModuleIds (usedModuleIds : option (list (string * Id)))
    (ids : gmap ref Id) (modules : list ref) : list nat :=
  filter (λ k, pretty k ∉ (collectUsed usedModuleIds ids modules).2)
         (seq 0 (nextFreeModuleId usedModuleIds ids modules)).

Lemma applyModuleIds_loop (usedModuleIds : option (list (string * Id)))
    (ids : gmap ref Id) (modules : list ref) :
  applyModuleIds usedModuleIds ids modules
  = (foldl assignId (reverse (freeModuleIds usedModuleIds ids modules),
                     nextFreeModuleId usedModuleIds ids modules, ids) modules).2.
Proof.
  unfold applyModuleIds, freeModuleIds, nextFreeModuleId.
  destruct (collectUsed usedModuleIds ids modules) as [usedIds usedIdMap].
  cbn [fst snd]. case_decide as Hlen.
  - unfold unusedBelow. by rewrite filter_reverse.
  - destruct usedIds; [reflexivity|simpl in Hlen; lia].
Qed.

Lemma assigned_lookup (usedModuleIds : option (list (string * Id)))
    (ids : gmap ref Id) (modules : list ref) (i : nat) (m : ref) :
  NoDup modules →
  filter (isNull ids) modules !! i = Some m →
  ∃ k, supply (freeModuleIds usedModuleIds ids modules)
              (nextFreeModuleId usedModuleIds ids modules)
              (length (filter (isNull ids) modules)) !! i = Some k ∧
       applyModuleIds usedModuleIds ids modules !! m = Some (IdNum k).
Proof.
  intros Hnd Hi. rewrite applyModuleIds_loop.
  destruct (assign_supply modules (freeModuleIds usedModuleIds ids modules)
              (nextFreeModuleId usedModuleIds ids modules) ids Hnd) as (_ & _ & _ & H4).
  apply (f_equal (λ l, l !! i)) in H4. rewrite !list_lookup_fmap, Hi in H4.
  simpl in H4. destruct (supply _ _ _ !! i) as [k|]; [|done].
  exists k. split; [done|]. simpl in H4. congruence.
Qed.

Lemma assigned_null (usedModuleIds : option (list (string * Id)))
    (ids : gmap ref Id) (modules : list ref) (m : ref) :
  NoDup modules → m ∈ modules → isNull ids m →
  ∃ i k, filter (isNull ids) modules !! i = Some m ∧
         supply (freeModuleIds usedModuleIds ids modules)
                (nextFreeModuleId usedModuleIds ids modules)
                (length (filter (isNull ids) modules)) !! i = Some k ∧
         applyModuleIds usedModuleIds ids modules !! m = Some (IdNum k).
Proof.
  intros Hnd Hm Hnull.
  assert (Hin : m ∈ filter (isNull ids) modules) by by apply list_elem_of_filter.
  apply list_elem_of_lookup in Hin as [i Hi].
  destruct (assigned_lookup usedModuleIds ids modules i m Hnd Hi) as (k & Hk & Hid).
  by exists i, k.
Qed.

Lemma kept_not_null (usedModuleIds : option (list (string * Id)))
    (ids : gmap ref Id) (modules : list ref) (m : ref) :
  NoDup modules → ¬ isNull ids m →
  applyModuleIds usedModuleIds ids modules !! m = ids !! m.
Proof.
  intros Hnd Hnull. rewrite applyModuleIds_loop.
  destruct (assign_supply modules (freeModuleIds usedModuleIds ids modules)
              (nextFreeModuleId usedModuleIds ids modules) ids Hnd) as (_ & _ & H3 & _).
  apply H3. intros Hin. apply list_elem_of_filter in Hin as [Hin _]. done.
Qed.

(** A new id is no id that the first two loops have seen, provided that
    every id whose property name reads as a number is that number. *)
Lemma assigned_fresh (usedModuleIds : option (list (string * Id)))
    (ids : gmap ref Id) (modules : list ref) (m : ref) (k : nat) :
  NoDup modules →
  (∀ id k, id ∈ usedList usedModuleIds ids modules → idKey id = pretty k → id = IdNum k) →
  m ∈ modules → isNull ids m →
  applyModuleIds usedModuleIds ids modules !! m = Some (IdNum k) →
  IdNum k ∉ usedList usedModuleIds ids modules.
Proof.
  intros Hnd Hnum Hm Hnull Hid Hused.
  destruct (assigned_null usedModuleIds ids modules m Hnd Hm Hnull) as (i & k' & _ & Hk & Hid').
  assert (k' = k) by congruence. subst k'.
  apply list_elem_of_lookup_2 in Hk. unfold freeModuleIds in Hk.
  apply supply_elem in Hk.
  destruct (collectUsed_inv usedModuleIds ids modules) as (Hmap & Hsub & Hkeys).
  specialize (Hkeys _ Hused). simpl in Hkeys.
  destruct Hk as [[_ Hk]|Hk]; [done|].
  rewrite Hmap in Hkeys. apply elem_of_list_to_set in Hkeys.
  apply list_elem_of_fmap in Hkeys as (id & Hkey & Hin).
  assert (id = IdNum k) by (apply Hnum; [by apply Hsub|done]). subst id.
  apply usedIdMax_ge in Hin. unfold nextFreeModuleId in Hk. lia.
Qed.

Lemma supply_head (P : nat → Prop) `{∀ k, Decision (P k)} (next n : nat) :
  P 0 → supply (filter P (seq 0 next)) next (S n) !! 0 = Some 0.
Proof.
  intros HP. unfold supply. destruct next as [|next].
  - reflexivity.
  - cbn [seq]. rewrite filter_cons_True by done. reflexivity.
Qed.

Lemma assigned_distinct (usedModuleIds : option (list (string * Id)))
    (ids : gmap ref Id) (modules : list ref) (m1 m2 : ref) :
  NoDup modules →
  m1 ∈ modules → m2 ∈ modules → isNull ids m1 → isNull ids m2 → m1 ≠ m2 →
  idOf (applyModuleIds usedModuleIds ids modules) m1
  ≠ idOf (applyModuleIds usedModuleIds ids modules) m2.
Proof.
  intros Hnd Hm1 Hm2 Hn1 Hn2 Hne. unfold idOf.
  destruct (assigned_null usedModuleIds ids modules m1 Hnd Hm1 Hn1)
    as (i & k1 & Hi & Hk1 & Hid1).
  destruct (assigned_null usedModuleIds ids modules m2 Hnd Hm2 Hn2)
    as (j & k2 & Hj & Hk2 & Hid2).
  rewrite Hid1, Hid2. simpl. intros [= Heq]. subst k2.
  assert (i = j); [|subst j; congruence].
  eapply NoDup_lookup; [|exact Hk1|exact Hk2].
  unfold freeModuleIds. apply supply_NoDup.
Qed.

Lemma supply_from_zero (n k : nat) : k < n → supply [] 0 n !! k = Some k.
Proof.
  intros Hk. unfold supply. rewrite take_nil. cbn [app length].
  rewrite Nat.sub_0_r. by rewrite lookup_seq_lt.
Qed.

(** X1: [applyModuleIds] gives the modules that have no id, in the order of
    this.modules, the unused numbers below the largest used number from the
    smallest up and then the numbers above it; every other id stays. *)
Theorem applyModuleIds_fills_lowest_free (usedModuleIds : option (list (string * Id)))
    (ids : gmap ref Id) (modules : list ref) :
  NoDup modules →
  (∀ m, m ∉ filter (isNull ids) modules →
        applyModuleIds usedModuleIds ids modules !! m = ids !! m) ∧
  (λ m, applyModuleIds usedModuleIds ids modules !! m) <$> filter (isNull ids) modules
  = Some ∘ IdNum <$> supply (freeModuleIds usedModuleIds ids modules)
                            (nextFreeModuleId usedModuleIds ids modules)
                            (length (filter (isNull ids) modules)).
Proof.
  intros Hnd. rewrite applyModuleIds_loop.
  destruct (assign_supply modules (freeModuleIds usedModuleIds ids modules)
              (nextFreeModuleId usedModuleIds ids modules) ids Hnd) as (_ & _ & H3 & H4).
  split; assumption.
Qed.

(** X2: after [applyModuleIds] every module of this.modules has an id, and
    two modules that had none have received different ids. *)
Theorem applyModuleIds_new_ids_distinct (usedModuleIds : option (list (string * Id)))
    (ids : gmap ref Id) (modules : list ref) :
  NoDup modules →
  (∀ m, m ∈ modules → idOf (applyModuleIds usedModuleIds ids modules) m ≠ IdNull) ∧
  (∀ m1 m2, m1 ∈ modules → m2 ∈ modules → isNull ids m1 → isNull ids m2 → m1 ≠ m2 →
     idOf (applyModuleIds usedModuleIds ids modules) m1
     ≠ idOf (applyModuleIds usedModuleIds ids modules) m2).
Proof.
  intros Hnd. split.
  - intros m Hm. unfold idOf. destruct (decide (isNull ids m)) as [Hnull|Hnull].
    + destruct (assigned_null usedModuleIds ids modules m Hnd Hm Hnull)
        as (i & k & _ & _ & Hid).
      rewrite Hid. done.
    + rewrite kept_not_null by done. exact Hnull.
  - intros m1 m2 Hm1 Hm2 Hn1 Hn2 Hne. by apply assigned_distinct.
Qed.

(** X3: when the modules that come with an id carry pairwise different,
    truthy ids, and no recorded id is a string or null that reads as a number,
    all modules of this.modules have pairwise different ids after
    [applyModuleIds]. *)
Theorem applyModuleIds_ids_unique (usedModuleIds : option (list (string * Id)))
    (ids : gmap ref Id) (modules : list ref) :
  NoDup modules →
  (∀ id k, id ∈ usedList usedModuleIds ids modules → idKey id = pretty k → id = IdNum k) →
  (∀ m, m ∈ modules → ¬ isNull ids m → truthyId (idOf ids m)) →
  (∀ m1 m2, m1 ∈ modules → m2 ∈ modules → ¬ isNull ids m1 → ¬ isNull ids m2 →
     m1 ≠ m2 → idOf ids m1 ≠ idOf ids m2) →
  ∀ m1 m2, m1 ∈ modules → m2 ∈ modules → m1 ≠ m2 →
    idOf (applyModuleIds usedModuleIds ids modules) m1
    ≠ idOf (applyModuleIds usedModuleIds ids modules) m2.
Proof.
  intros Hnd Hnum Htruthy Hold.
  assert (Hmixed : ∀ m1 m2, m1 ∈ modules → m2 ∈ modules → isNull ids m1 → ¬ isNull ids m2 →
            idOf (applyModuleIds usedModuleIds ids modules) m1
            ≠ idOf (applyModuleIds usedModuleIds ids modules) m2).
  { intros m1 m2 Hm1 Hm2 Hn1 Hn2. unfold idOf at 1 2.
    destruct (assigned_null usedModuleIds ids modules m1 Hnd Hm1 Hn1)
      as (i & k & _ & _ & Hid).
    rewrite Hid, (kept_not_null _ _ _ m2 Hnd Hn2). simpl. intros Heq.
    apply (assigned_fresh usedModuleIds ids modules m1 k); try done.
    unfold usedList. apply elem_of_app. right.
    apply list_elem_of_filter. split.
    - rewrite Heq. by apply Htruthy.
    - apply list_elem_of_fmap. exists m2. by split. }
  intros m1 m2 Hm1 Hm2 Hne.
  destruct (decide (isNull ids m1)) as [Hn1|Hn1], (decide (isNull ids m2)) as [Hn2|Hn2].
  - by apply assigned_distinct.
  - by apply Hmixed.
  - intros Heq. by apply (Hmixed m2 m1).
  - unfold idOf. rewrite !kept_not_null by done. by apply Hold.
Qed.

(** X4: a module that carries the id 0 is not counted as using it: unless a
    recorded id has the property name 0, the first module without id also
    receives 0. *)
Theorem applyModuleIds_reissues_zero (usedModuleIds : option (list (string * Id)))
    (ids : gmap ref Id) (modules : list ref) (m0 m : ref) (rest : list ref) :
  NoDup modules →
  m0 ∈ modules → ids !! m0 = Some (IdNum 0) →
  (∀ id, id ∈ usedList usedModuleIds ids modules → idKey id ≠ "0") →
  filter (isNull ids) modules = m :: rest →
  applyModuleIds usedModuleIds ids modules !! m = Some (IdNum 0) ∧
  applyModuleIds usedModuleIds ids modules !! m0 = Some (IdNum 0) ∧
  m ≠ m0.
Proof.
  intros Hnd Hm0 Hid0 Hzero Hnulls.
  assert (Hn0 : ¬ isNull ids m0) by (unfold isNull; by rewrite Hid0).
  assert (Hm : m ∈ filter (isNull ids) modules) by (rewrite Hnulls; left).
  apply list_elem_of_filter in Hm as [Hnull Hm].
  split; [|split].
  - assert (Hi : filter (isNull ids) modules !! 0 = Some m) by by rewrite Hnulls.
    destruct (assigned_lookup usedModuleIds ids modules 0 m Hnd Hi) as (k & Hk & Hid).
    rewrite Hnulls in Hk. cbn [length] in Hk. unfold freeModuleIds in Hk.
    rewrite supply_head in Hk; [congruence|].
    destruct (collectUsed_inv usedModuleIds ids modules) as (Hmap & Hsub & _).
    rewrite Hmap. intros Hin. apply elem_of_list_to_set in Hin.
    apply list_elem_of_fmap in Hin as (id & Hkey & Hin).
    apply (Hzero id); [by apply Hsub|]. rewrite <- Hkey. reflexivity.
  - rewrite kept_not_null by done. exact Hid0.
  - intros ->. done.
Qed.

(** The loop of [applyChunkIds] treats chunk.id as the last loop of
    [applyModuleIds] treats module.id. *)
Lemma assignChunk_assignId (st : list nat * nat * ChunkIds) (chunk : cref) :
  ((assignChunk st chunk).1, chunk_id (assignChunk st chunk).2)
  = assignId (st.1, chunk_id st.2) chunk.
Proof.
  destruct st as [[unusedIds next] c]. unfold assignChunk, assignId. cbn [fst snd].
  destruct (default IdNull (chunk_id c !! chunk)); try reflexivity.
  destruct (pop unusedIds) as [[id rest]|]; reflexivity.
Qed.

Lemma foldl_assignChunk_assignId (chunks : list cref) :
  ∀ st : list nat * nat * ChunkIds,
  ((foldl assignChunk st chunks).1, chunk_id (foldl assignChunk st chunks).2)
  = foldl assignId (st.1, chunk_id st.2) chunks.
Proof.
  induction chunks as [|chunk l IH]; intros st.
  - simpl. by destruct st as [[? ?] ?].
  - cbn [foldl]. rewrite IH, assignChunk_assignId. reflexivity.
Qed.

Lemma assignId_keeps (modules : list ref) (m : ref) :
  ∀ st : list nat * nat * gmap ref Id,
  ¬ isNull st.2 m → (foldl assignId st modules).2 !! m = st.2 !! m.
Proof.
  induction modules as [|x l IH]; intros st Hm; [done|].
  cbn [foldl].
  assert (Hstep : (assignId st x).2 !! m = st.2 !! m).
  { destruct st as [[unusedIds next] ids]. unfold assignId.
    destruct (default IdNull (ids !! x)) eqn:Hx; try reflexivity.
    assert (x ≠ m) by (intros ->; done).
    destruct (pop unusedIds) as [[id rest]|]; simpl; by rewrite lookup_insert_ne. }
  rewrite IH; [exact Hstep|]. unfold isNull. by rewrite Hstep.
Qed.

Lemma assignChunk_ids (chunks : list cref) :
  ∀ st : list nat * nat * ChunkIds,
  NoDup chunks →
  ∀ chunk,
  chunk_ids (foldl assignChunk st chunks).2 !! chunk
  = if decide (chunk ∈ chunks)
    then Some (default [idOf (chunk_id (foldl assignChunk st chunks).2) chunk]
                       (chunk_ids st.2 !! chunk))
    else chunk_ids st.2 !! chunk.
Proof.
  induction chunks as [|x l IH]; intros st Hnd chunk.
  - rewrite decide_False by apply not_elem_of_nil. reflexivity.
  - apply NoDup_cons in Hnd as [Hx Hl]. cbn [foldl]. rewrite (IH _ Hl).
    assert (Hids : chunk_ids (assignChunk st x).2 !! chunk
                   = if decide (chunk = x)
                     then Some (default [idOf (chunk_id (assignChunk st x).2) x]
                                        (chunk_ids st.2 !! x))
                     else chunk_ids st.2 !! chunk).
    { destruct st as [[unusedIds next] c]. unfold assignChunk. cbn [snd].
      destruct (match default IdNull (chunk_id c !! x) with
                | IdNull => _ | _ => _ end) as [[u n] id]. cbn [snd chunk_ids chunk_id].
      case_decide as Heq.
      - subst chunk. destruct (chunk_ids c !! x) eqn:Hold; [done|].
        by rewrite lookup_insert_eq.
      - destruct (chunk_ids c !! x) eqn:Hold; [done|].
        by rewrite lookup_insert_ne. }
    assert (Hset : ¬ isNull (chunk_id (assignChunk st x).2) x).
    { destruct st as [[unusedIds next] c]. unfold assignChunk, isNull. cbn [snd].
      destruct (default IdNull (chunk_id c !! x)) eqn:Hcur.
      - destruct (pop unusedIds) as [[id rest]|]; cbn [snd chunk_id];
          rewrite lookup_insert_eq; simpl; done.
      - cbn [snd chunk_id]. rewrite Hcur. done.
      - cbn [snd chunk_id]. rewrite Hcur. done. }
    destruct (decide (chunk = x)) as [->|Hne].
    + rewrite decide_False by done. rewrite decide_True by left.
      rewrite Hids. unfold idOf.
      pose proof (foldl_assignChunk_assignId l (assignChunk st x)) as Hproj.
      apply (f_equal snd) in Hproj. cbn [snd] in Hproj. rewrite Hproj.
      rewrite (assignId_keeps l x ((assignChunk st x).1, chunk_id (assignChunk st x).2))
        by done.
      reflexivity.
    + rewrite Hids. destruct (decide (chunk ∈ l)) as [Hin|Hin].
      * rewrite decide_True by by right. reflexivity.
      * rewrite decide_False; [reflexivity|].
        intros [?|?]%elem_of_cons; done.
Qed.

(** nextFreeChunkId and, from the smallest up, unusedIds, as the loop of
    [applyChunkIds] finds them. *)
Definition nextChunkId (usedChunkIds : option (gmap string Id)) : nat :=
  match usedChunkIds with
  | Some used => nextFreeChunkId used
  | None => 0
  end.

Definition freeChunkIds (usedChunkIds : option (gmap string Id)) : list nat :=
  match usedChunkIds with
  | Some used => filter (λ k, used !! pretty k ≠ Some (IdNum k)) (seq 0 (nextFreeChunkId used))
  | None => []
  end.

Lemma applyChunkIds_loop (usedChunkIds : option (gmap string Id)) (c : ChunkIds)
    (chunks : list cref) :
  applyChunkIds usedChunkIds c chunks
  = (foldl assignChunk (reverse (freeChunkIds usedChunkIds), nextChunkId usedChunkIds, c) chunks).2.
Proof.
  unfold applyChunkIds, freeChunkIds, nextChunkId. destruct usedChunkIds as [used|].
  - unfold unusedChunkIds. by rewrite filter_reverse.
  - reflexivity.
Qed.

Lemma applyChunkIds_chunk_id (usedChunkIds : option (gmap string Id)) (c : ChunkIds)
    (chunks : list cref) :
  chunk_id (applyChunkIds usedChunkIds c chunks)
  = (foldl assignId (reverse (freeChunkIds usedChunkIds), nextChunkId usedChunkIds, chunk_id c)
       chunks).2.
Proof.
  rewrite applyChunkIds_loop.
  pose proof (foldl_assignChunk_assignId chunks
                (reverse (freeChunkIds usedChunkIds), nextChunkId usedChunkIds, c)) as Hproj.
  apply (f_equal snd) in Hproj. exact Hproj.
Qed.

(** X5: [applyChunkIds] gives the chunks that have no id, in the order of
    this.chunks, the numbers below the largest recorded number that are not
    recorded under their own name, from the smallest up, and then the numbers
    above it; every other chunk.id stays. *)
Theorem applyChunkIds_fills_lowest_free (usedChunkIds : option (gmap string Id))
    (c : ChunkIds) (chunks : list cref) :
  NoDup chunks →
  (∀ chunk, chunk ∉ filter (isNull (chunk_id c)) chunks →
     chunk_id (applyChunkIds usedChunkIds c chunks) !! chunk = chunk_id c !! chunk) ∧
  (λ chunk, chunk_id (applyChunkIds usedChunkIds c chunks) !! chunk)
    <$> filter (isNull (chunk_id c)) chunks
  = Some ∘ IdNum <$> supply (freeChunkIds usedChunkIds) (nextChunkId usedChunkIds)
                            (length (filter (isNull (chunk_id c)) chunks)).
Proof.
  intros Hnd. rewrite applyChunkIds_chunk_id.
  destruct (assign_supply chunks (freeChunkIds usedChunkIds) (nextChunkId usedChunkIds)
              (chunk_id c) Hnd) as (_ & _ & H3 & H4).
  split; assumption.
Qed.

(** X6: after [applyChunkIds] every chunk of this.chunks has its ids: the
    ones it had, or else the list of its one id; no other chunk.ids is
    touched. *)
Theorem applyChunkIds_sets_ids (usedChunkIds : option (gmap string Id))
    (c : ChunkIds) (chunks : list cref) :
  NoDup chunks →
  (∀ chunk, chunk ∈ chunks →
     chunk_ids (applyChunkIds usedChunkIds c chunks) !! chunk
     = Some (default [idOf (chunk_id (applyChunkIds usedChunkIds c chunks)) chunk]
                     (chunk_ids c !! chunk))) ∧
  (∀ chunk, chunk ∉ chunks →
     chunk_ids (applyChunkIds usedChunkIds c chunks) !! chunk = chunk_ids c !! chunk).
Proof.
  intros Hnd. rewrite applyChunkIds_loop. split; intros chunk Hin.
  - rewrite (assignChunk_ids chunks _ Hnd chunk). by rewrite decide_True.
  - rewrite (assignChunk_ids chunks _ Hnd chunk). by rewrite decide_False.
Qed.

(** X7: [applyChunkIds] does not look at the ids that chunks already carry:
    without usedChunkIds, a number below the count of chunks without id is
    given to one of them although another chunk has it. *)
Theorem applyChunkIds_ignores_present_ids (c : ChunkIds) (chunks : list cref)
    (chunk0 : cref) (k : nat) :
  NoDup chunks →
  chunk0 ∈ chunks → chunk_id c !! chunk0 = Some (IdNum k) →
  k < length (filter (isNull (chunk_id c)) chunks) →
  ∃ chunk, chunk ∈ chunks ∧ chunk ≠ chunk0 ∧
    chunk_id (applyChunkIds None c chunks) !! chunk = Some (IdNum k) ∧
    chunk_id (applyChunkIds None c chunks) !! chunk0 = Some (IdNum k).
Proof.
  intros Hnd Hin0 Hid0 Hk. rewrite applyChunkIds_chunk_id.
  destruct (assign_supply chunks (freeChunkIds None) (nextChunkId None)
              (chunk_id c) Hnd) as (_ & _ & H3 & H4).
  cbn zeta in H3, H4.
  destruct (lookup_lt_is_Some_2 _ _ Hk) as [chunk Hchunk].
  assert (Hin : chunk ∈ filter (isNull (chunk_id c)) chunks)
    by by eapply list_elem_of_lookup_2.
  apply (f_equal (λ l, l !! k)) in H4. rewrite !list_lookup_fmap, Hchunk in H4.
  change (freeChunkIds None) with (@nil nat) in H4.
  change (nextChunkId None) with 0 in H4.
  rewrite supply_from_zero in H4 by done. simpl in H4.
  apply list_elem_of_filter in Hin as [Hnull Hin].
  assert (Hn0 : ¬ isNull (chunk_id c) chunk0) by (unfold isNull; by rewrite Hid0).
  exists chunk. split; [done|]. split; [by intros ->|].
  split; [injection H4 as H4; exact H4|].
  rewrite H3; [done|]. intros [? _]%list_elem_of_filter. done.
Qed.

Example applyChunkIds_reuses_freed :
  applyChunkIds (Some {[ "0" := IdNum 0; "1" := IdNum 3 ]})
    (mkChunkIds {[ 0 := IdNum 0 ]} {[ 0 := [IdNum 0; IdNum 7] ]}) [0; 1; 2]
  = mkChunkIds {[ 0 := IdNum 0; 1 := IdNum 1; 2 := IdNum 2 ]}
      {[ 0 := [IdNum 0; IdNum 7]; 1 := [IdNum 1]; 2 := [IdNum 2] ]}.
Proof. vm_compute. reflexivity. Qed.

End Ids.

(** Three modules, the first of which comes with an id. *)
Definition threeModules : list ref := [0; 1; 2].

Lemma threeModules_NoDup : NoDup threeModules.
Proof. by apply (bool_decide_unpack _). Qed.

Lemma threeModules_cases (P : ref → Prop) : P 0 → P 1 → P 2 → ∀ m, m ∈ threeModules → P m.
Proof.
  intros H0 H1 H2 m Hm. unfold threeModules in Hm.
  repeat (apply elem_of_cons in Hm as [->|Hm]); try assumption.
  by apply elem_of_nil in Hm.
Qed.

Lemma applyModuleIds_fills_lowest_free_witness :
  (λ m, Ids.applyModuleIds (Some [("a", SelfCheck.IdNum 0); ("b", SelfCheck.IdNum 4)])
          {[ 0 := SelfCheck.IdNum 2 ]} threeModules !! m) <$> [1; 2]
  = [Some (SelfCheck.IdNum 1); Some (SelfCheck.IdNum 3)].
Proof.
  destruct (Ids.applyModuleIds_fills_lowest_free
              (Some [("a", SelfCheck.IdNum 0); ("b", SelfCheck.IdNum 4)])
              {[ 0 := SelfCheck.IdNum 2 ]} threeModules threeModules_NoDup) as [_ H].
  exact H.
Defined.

Lemma applyModuleIds_new_ids_distinct_witness :
  Ids.idOf (Ids.applyModuleIds None {[ 0 := SelfCheck.IdNum 2 ]} threeModules) 1
  ≠ Ids.idOf (Ids.applyModuleIds None {[ 0 := SelfCheck.IdNum 2 ]} threeModules) 2.
Proof.
  apply (proj2 (Ids.applyModuleIds_new_ids_distinct None {[ 0 := SelfCheck.IdNum 2 ]}
                  threeModules threeModules_NoDup)).
  - unfold threeModules. set_solver.
  - unfold threeModules. set_solver.
  - reflexivity.
  - reflexivity.
  - discriminate.
Defined.

Lemma applyModuleIds_ids_unique_witness :
  Ids.idOf (Ids.applyModuleIds (Some [("a", SelfCheck.IdNum 0)])
              {[ 0 := SelfCheck.IdNum 2 ]} threeModules) 0
  ≠ Ids.idOf (Ids.applyModuleIds (Some [("a", SelfCheck.IdNum 0)])
                {[ 0 := SelfCheck.IdNum 2 ]} threeModules) 2.
Proof.
  apply (Ids.applyModuleIds_ids_unique (Some [("a", SelfCheck.IdNum 0)])
           {[ 0 := SelfCheck.IdNum 2 ]} threeModules threeModules_NoDup).
  - intros id k Hin Hk.
    assert (Hl : Ids.usedList (Some [("a", SelfCheck.IdNum 0)])
                   {[ 0 := SelfCheck.IdNum 2 ]} threeModules
                 = [SelfCheck.IdNum 0; SelfCheck.IdNum 2]) by reflexivity.
    rewrite Hl in Hin.
    repeat (apply elem_of_cons in Hin as [->|Hin]);
      [| |by apply elem_of_nil in Hin];
      cbn [SelfCheck.idKey] in Hk; apply (inj pretty) in Hk; by subst k.
  - apply (threeModules_cases (λ m, ¬ Ids.isNull {[ 0 := SelfCheck.IdNum 2 ]} m → _)).
    + intros _. exact I.
    + intros Hn. exfalso. apply Hn. reflexivity.
    + intros Hn. exfalso. apply Hn. reflexivity.
  - intros m1 m2 Hm1 Hm2 Hn1 Hn2 Hne.
    revert m1 Hm1 Hn1 Hne.
    apply (threeModules_cases (λ m1, ¬ Ids.isNull {[ 0 := SelfCheck.IdNum 2 ]} m1 → m1 ≠ m2 → _));
      intros Hn1 Hne; [|exfalso; apply Hn1; reflexivity..].
    revert m2 Hm2 Hn2 Hne.
    apply (threeModules_cases (λ m2, ¬ Ids.isNull {[ 0 := SelfCheck.IdNum 2 ]} m2 → 0 ≠ m2 → _));
      intros Hn2 Hne; [done|exfalso; apply Hn2; reflexivity..].
  - unfold threeModules. set_solver.
  - unfold threeModules. set_solver.
  - discriminate.
Defined.

Lemma applyModuleIds_reissues_zero_witness :
  Ids.applyModuleIds None {[ 0 := SelfCheck.IdNum 0 ]} threeModules !! 1 = Some (SelfCheck.IdNum 0) ∧
  Ids.applyModuleIds None {[ 0 := SelfCheck.IdNum 0 ]} threeModules !! 0 = Some (SelfCheck.IdNum 0) ∧
  1 ≠ 0.
Proof.
  apply (Ids.applyModuleIds_reissues_zero None {[ 0 := SelfCheck.IdNum 0 ]} threeModules
           0 1 [2] threeModules_NoDup).
  - unfold threeModules. set_solver.
  - reflexivity.
  - intros id Hin. by apply elem_of_nil in Hin.
  - reflexivity.
Defined.

Lemma applyChunkIds_fills_lowest_free_witness :
  (λ chunk, Ids.chunk_id
              (Ids.applyChunkIds (Some {[ "0" := SelfCheck.IdNum 0; "1" := SelfCheck.IdNum 3 ]})
                 (Ids.mkChunkIds {[ 0 := SelfCheck.IdNum 0 ]} ∅) threeModules) !! chunk) <$> [1; 2]
  = [Some (SelfCheck.IdNum 1); Some (SelfCheck.IdNum 2)].
Proof.
  destruct (Ids.applyChunkIds_fills_lowest_free
              (Some {[ "0" := SelfCheck.IdNum 0; "1" := SelfCheck.IdNum 3 ]})
              (Ids.mkChunkIds {[ 0 := SelfCheck.IdNum 0 ]} ∅) threeModules
              threeModules_NoDup) as [_ H].
  vm_compute in H. vm_compute. exact H.
Defined.

Lemma applyChunkIds_sets_ids_witness :
  Ids.chunk_ids (Ids.applyChunkIds None (Ids.mkChunkIds {[ 0 := SelfCheck.IdNum 5 ]} ∅)
                   threeModules) !! 1
  = Some [SelfCheck.IdNum 0].
Proof.
  rewrite (proj1 (Ids.applyChunkIds_sets_ids None (Ids.mkChunkIds {[ 0 := SelfCheck.IdNum 5 ]} ∅)
                    threeModules threeModules_NoDup) 1).
  - reflexivity.
  - unfold threeModules. set_solver.
Defined.

Lemma applyChunkIds_ignores_present_ids_witness :
  ∃ chunk, chunk ∈ threeModules ∧ chunk ≠ 0 ∧
    Ids.chunk_id (Ids.applyChunkIds None (Ids.mkChunkIds {[ 0 := SelfCheck.IdNum 1 ]} ∅)
                    threeModules) !! chunk = Some (SelfCheck.IdNum 1) ∧
    Ids.chunk_id (Ids.applyChunkIds None (Ids.mkChunkIds {[ 0 := SelfCheck.IdNum 1 ]} ∅)
                    threeModules) !! 0 = Some (SelfCheck.IdNum 1).
Proof.
  apply (Ids.applyChunkIds_ignores_present_ids (Ids.mkChunkIds {[ 0 := SelfCheck.IdNum 1 ]} ∅)
           threeModules 0 1 threeModules_NoDup).
  - unfold threeModules. set_solver.
  - reflexivity.
  - vm_compute. lia.
Defined.

(** ** Dependency batches: [processModuleDependencies] *)

Module Batches.

Import Indexer.

Section ProcessModuleDependencies.
Variable isEqualResource : Dependency → option Dependency → bool.
  (* dep.isEqualResource(other); None: other is undefined *)

(** addDependency(dep), on the local array [dependencies] of arrays. *)
Fixpoint addDependency (dependencies : list (list Dependency)) (dep : Dependency)
    : list (list Dependency) :=
  match dependencies with
  | [] => [[dep]]
  | batch :: rest =>
      if isEqualResource dep (head batch)
      then (batch ++ [dep]) :: rest
      else batch :: addDependency rest dep
  end.

(** addDependenciesBlock(block): the dependencies of the block, then its
    nested blocks, then the dependencies of its variables. *)
Fixpoint addDependenciesBlock (block : DependenciesBlock)
    (acc : list (list Dependency)) : list (list Dependency) :=
  let acc := foldl addDependency acc (dependencies block) in
  let acc :=
    (fix nested (bs : list DependenciesBlock) (acc : list (list Dependency)) :=
       match bs with
       | [] => acc
       | b :: bs => nested bs (addDependenciesBlock b acc)
       end) (blocks block) acc in
  foldl addDependency acc (variables block ≫= var_dependencies).

(** The array [dependencies] that [processModuleDependencies] hands to
    [addModuleDependencies]. *)
Definition processModuleDependencies (module : DependenciesBlock) : list (list Dependency) :=
  addDependenciesBlock module [].

(** The dependencies in the order in which addDependency is called on
    them. *)
Fixpoint collected (block : DependenciesBlock) : list Dependency :=
  dependencies block
    ++ (fix nested (bs : list DependenciesBlock) : list Dependency :=
          match bs with
          | [] => []
          | b :: bs => collected b ++ nested bs
          end) (blocks block)
    ++ (variables block ≫= var_dependencies).

Lemma block_ind (P : DependenciesBlock → Prop) :
  (∀ vs ds bs, Forall P bs → P (mkBlock vs ds bs)) → ∀ b, P b.
Proof.
  intros H. fix IH 1. intros [vs ds bs]. apply H.
  induction bs as [|b bs IHbs]; constructor; [apply IH|apply IHbs].
Qed.

Lemma addDependenciesBlock_collected (block : DependenciesBlock) :
  ∀ acc, addDependenciesBlock block acc = foldl addDependency acc (collected block).
Proof.
  induction block as [vs ds bs IH] using block_ind. intros acc.
  cbn [addDependenciesBlock collected dependencies blocks variables].
  rewrite !foldl_app. f_equal.
  generalize (foldl addDependency acc ds). clear acc.
  induction IH as [|b bs Hb _ IHbs]; intros acc; [done|].
  rewrite foldl_app, <- Hb. apply IHbs.
Qed.

(** A batch starts with a dependency that every later member names as an
    equal resource, and no member of a later batch does. *)
Fixpoint wellBatched (batches : list (list Dependency)) : Prop :=
  match batches with
  | [] => True
  | batch :: rest =>
      (∃ d0 tl, batch = d0 :: tl ∧
         Forall (λ d, isEqualResource d (Some d0) = true) tl ∧
         Forall (Forall (λ d, isEqualResource d (Some d0) = false)) rest) ∧
      wellBatched rest
  end.

Lemma addDependency_Forall (Q : Dependency → Prop) (batches : list (list Dependency))
    (dep : Dependency) :
  Forall (Forall Q) batches → Q dep → Forall (Forall Q) (addDependency batches dep).
Proof.
  intros Hall Hdep. induction Hall as [|batch rest Hb Hrest IH]; simpl.
  - by repeat constructor.
  - destruct (isEqualResource dep (head batch)).
    + constructor; [|done]. apply Forall_app. by split; [|constructor].
    + by constructor.
Qed.

Lemma addDependency_wellBatched (batches : list (list Dependency)) (dep : Dependency) :
  wellBatched batches → wellBatched (addDependency batches dep).
Proof.
  induction batches as [|batch rest IH]; simpl.
  - intros _. split; [|done]. exists dep, []. by repeat constructor.
  - intros [(d0 & tl & -> & Htl & Hrest) Hwb].
    destruct (isEqualResource dep (head (d0 :: tl))) eqn:Heq; simpl.
    + split; [|done]. exists d0, (tl ++ [dep]). split; [done|]. split; [|done].
      apply Forall_app. split; [done|]. by constructor.
    + split; [|by apply IH]. exists d0, tl. split; [done|]. split; [done|].
      by apply addDependency_Forall.
Qed.

Lemma foldl_addDependency_wellBatched (deps : list Dependency) :
  ∀ batches, wellBatched batches → wellBatched (foldl addDependency batches deps).
Proof.
  induction deps as [|d deps IH]; intros batches Hwb; [done|].
  simpl. by apply IH, addDependency_wellBatched.
Qed.

Lemma addDependency_concat (batches : list (list Dependency)) (dep : Dependency) :
  concat (addDependency batches dep) ≡ₚ concat batches ++ [dep].
Proof.
  induction batches as [|batch rest IH]; simpl; [done|].
  destruct (isEqualResource dep (head batch)); simpl.
  - rewrite <- !(assoc_L (++)). f_equiv. apply Permutation_app_comm.
  - rewrite IH. by rewrite (assoc_L (++)).
Qed.

Lemma foldl_addDependency_concat (deps : list Dependency) :
  ∀ batches, concat (foldl addDependency batches deps) ≡ₚ concat batches ++ deps.
Proof.
  induction deps as [|d deps IH]; intros batches; simpl.
  - by rewrite app_nil_r.
  - rewrite IH, addDependency_concat. by rewrite <- (assoc_L (++)).
Qed.

Lemma processModuleDependencies_wellBatched (module : DependenciesBlock) :
  wellBatched (processModuleDependencies module).
Proof.
  unfold processModuleDependencies. rewrite addDependenciesBlock_collected.
  by apply foldl_addDependency_wellBatched.
Qed.

Lemma wellBatched_lookup (batches : list (list Dependency)) :
  wellBatched batches →
  ∀ j bj, batches !! j = Some bj →
  ∃ d0 tl, bj = d0 :: tl ∧
    Forall (λ d, isEqualResource d (Some d0) = true) tl ∧
    ∀ k bk d, j < k → batches !! k = Some bk → d ∈ bk →
      isEqualResource d (Some d0) = false.
Proof.
  induction batches as [|batch rest IH]; intros Hwb j bj Hj; [done|].
  destruct Hwb as [(d0 & tl & -> & Htl & Hrest) Hwb].
  destruct j as [|j]; simpl in Hj.
  - injection Hj as <-. exists d0, tl. split; [done|]. split; [done|].
    intros k bk d Hk Hbk Hd. destruct k as [|k]; [lia|]. simpl in Hbk.
    rewrite Forall_lookup in Hrest. specialize (Hrest k bk Hbk).
    rewrite Forall_forall in Hrest. by apply Hrest.
  - destruct (IH Hwb j bj Hj) as (d1 & tl1 & -> & Htl1 & Hlater).
    exists d1, tl1. split; [done|]. split; [done|].
    intros k bk d Hk Hbk Hd. destruct k as [|k]; [lia|]. simpl in Hbk.
    apply (Hlater k bk d); [lia|done..].
Qed.

(** X8: the batches that [processModuleDependencies] hands on hold every
    dependency of the module, of its nested blocks and of its variables
    exactly once, and no batch is empty. *)
Theorem processModuleDependencies_partitions (module : DependenciesBlock) :
  concat (processModuleDependencies module) ≡ₚ collected module ∧
  Forall (λ batch, batch ≠ []) (processModuleDependencies module).
Proof.
  split.
  - unfold processModuleDependencies.
    rewrite addDependenciesBlock_collected, foldl_addDependency_concat. done.
  - apply Forall_lookup. intros j bj Hj.
    destruct (wellBatched_lookup _ (processModuleDependencies_wellBatched module) j bj Hj)
      as (d0 & tl & -> & _). done.
Qed.

(** X9: every later member of a batch answered isEqualResource for the first
    member of its batch, and no member of a batch, the first included, did so
    for the first member of an earlier batch. *)
Theorem processModuleDependencies_first_fit (module : DependenciesBlock) :
  ∀ j bj, processModuleDependencies module !! j = Some bj →
  ∃ d0 tl, bj = d0 :: tl ∧
    (∀ d, d ∈ tl → isEqualResource d (Some d0) = true) ∧
    (∀ k bk d, j < k → processModuleDependencies module !! k = Some bk → d ∈ bk →
       isEqualResource d (Some d0) = false).
Proof.
  intros j bj Hj.
  destruct (wellBatched_lookup _ (processModuleDependencies_wellBatched module) j bj Hj)
    as (d0 & tl & -> & Htl & Hlater).
  exists d0, tl. split; [done|]. split; [|done].
  by apply Forall_forall.
Qed.

Lemma elem_of_concat (d : Dependency) (batches : list (list Dependency)) :
  d ∈ concat batches → ∃ batch, d ∈ batch ∧ batch ∈ batches.
Proof.
  induction batches as [|batch rest IH]; simpl.
  - intros Hd. by apply elem_of_nil in Hd.
  - intros [Hd|Hd]%elem_of_app.
    + exists batch. split; [done|left].
    + destruct (IH Hd) as (b & Hb & Hin). exists b. split; [done|by right].
Qed.

Lemma equal_same_index (module : DependenciesBlock) :
  (∀ d, isEqualResource d (Some d) = true) →
  (∀ d1 d2, isEqualResource d1 (Some d2) = true → isEqualResource d2 (Some d1) = true) →
  (∀ d1 d2 d3, isEqualResource d1 (Some d2) = true → isEqualResource d2 (Some d3) = true →
     isEqualResource d1 (Some d3) = true) →
  ∀ i j bi bj d1 d2,
    processModuleDependencies module !! i = Some bi →
    processModuleDependencies module !! j = Some bj →
    d1 ∈ bi → d2 ∈ bj →
    isEqualResource d1 (Some d2) = true → i = j.
Proof.
  intros Hrefl Hsym Htrans.
  assert (Hle : ∀ i j bi bj d1 d2,
            processModuleDependencies module !! i = Some bi →
            processModuleDependencies module !! j = Some bj →
            d1 ∈ bi → d2 ∈ bj →
            isEqualResource d1 (Some d2) = true → ¬ i < j).
  { intros i j bi bj d1 d2 Hi Hj Hd1 Hd2 Heq Hlt.
    destruct (wellBatched_lookup _ (processModuleDependencies_wellBatched module) i bi Hi)
      as (d0 & tl & -> & Htl & Hlater).
    assert (Hd1' : isEqualResource d1 (Some d0) = true).
    { apply elem_of_cons in Hd1 as [->|Hd1]; [apply Hrefl|].
      rewrite Forall_forall in Htl. by apply Htl. }
    specialize (Hlater j bj d2 Hlt Hj Hd2).
    rewrite (Htrans d2 d1 d0) in Hlater; [done|by apply Hsym|done]. }
  intros i j bi bj d1 d2 Hi Hj Hd1 Hd2 Heq.
  destruct (Nat.lt_trichotomy i j) as [Hlt|[->|Hgt]]; [|done|].
  - by destruct (Hle i j bi bj d1 d2).
  - destruct (Hle j i bj bi d2 d1); try done. by apply Hsym.
Qed.

(** X10: when isEqualResource is an equivalence on the dependencies, a batch
    holds every collected dependency that one of its members names as an
    equal resource. *)
Theorem processModuleDependencies_groups_equal (module : DependenciesBlock) :
  (∀ d, isEqualResource d (Some d) = true) →
  (∀ d1 d2, isEqualResource d1 (Some d2) = true → isEqualResource d2 (Some d1) = true) →
  (∀ d1 d2 d3, isEqualResource d1 (Some d2) = true → isEqualResource d2 (Some d3) = true →
     isEqualResource d1 (Some d3) = true) →
  ∀ batch d1 d2,
    batch ∈ processModuleDependencies module →
    d1 ∈ batch → d2 ∈ collected module →
    isEqualResource d1 (Some d2) = true → d2 ∈ batch.
Proof.
  intros Hrefl Hsym Htrans batch d1 d2 Hbatch Hd1 Hd2 Heq.
  apply list_elem_of_lookup in Hbatch as [i Hi].
  assert (Hin : d2 ∈ concat (processModuleDependencies module)).
  { unfold processModuleDependencies.
    by rewrite addDependenciesBlock_collected, foldl_addDependency_concat. }
  apply elem_of_concat in Hin as (bj & Hd2' & Hbj).
  apply list_elem_of_lookup in Hbj as [j Hj].
  assert (i = j) by by eapply (equal_same_index module Hrefl Hsym Htrans i j batch bj d1 d2).
  subst j. congruence.
Qed.

End ProcessModuleDependencies.

End Batches.

(** A module with two dependencies, a nested block with one and a variable
    with one; two of the four are optional. *)
Definition mixedModule : Indexer.DependenciesBlock :=
  Indexer.mkBlock
    [Indexer.mkVariable [mkDependency 3 None true false]]
    [mkDependency 0 None false false; mkDependency 1 None true false]
    [Indexer.mkBlock [] [mkDependency 2 None false false] []].

(** An isEqualResource that compares the optional flags. *)
Definition sameKind (dep : Dependency) (other : option Dependency) : bool :=
  match other with
  | Some other => Bool.eqb (dep_optional dep) (dep_optional other)
  | None => false
  end.

Lemma processModuleDependencies_first_fit_witness :
  ∃ d0 tl,
    [mkDependency 0 None false false; mkDependency 2 None false false] = d0 :: tl ∧
    (∀ d, d ∈ tl → sameKind d (Some d0) = true) ∧
    (∀ k bk d, 0 < k →
       Batches.processModuleDependencies sameKind mixedModule !! k = Some bk → d ∈ bk →
       sameKind d (Some d0) = false).
Proof.
  apply (Batches.processModuleDependencies_first_fit sameKind mixedModule 0).
  reflexivity.
Defined.

Lemma processModuleDependencies_groups_equal_witness :
  mkDependency 3 None true false ∈ [mkDependency 1 None true false; mkDependency 3 None true false].
Proof.
  apply (Batches.processModuleDependencies_groups_equal sameKind mixedModule) with
    (d1 := mkDependency 1 None true false).
  - intros d. apply Bool.eqb_reflx.
  - intros d1 d2. simpl. rewrite !Bool.eqb_true_iff. congruence.
  - intros d1 d2 d3. simpl. rewrite !Bool.eqb_true_iff. congruence.
  - vm_compute. set_solver.
  - set_solver.
  - vm_compute. set_solver.
  - reflexivity.
Defined.

(** ** Chunk registry: [addChunk] *)

Module Chunks.

(** The constructor arguments of a chunk: new Chunk(name, module, loc). *)
Record Created := mkCreated {
  cr_name : option string;
  cr_module : option ref;
  cr_loc : nat
}.

Record Compilation := mkCompilation {
  chunks : list cref;                     (* this.chunks *)
  namedChunks : gmap string cref;         (* the own properties of this.namedChunks *)
  allocated : nat;                        (* the chunk objects created so far *)
  created : gmap cref Created;            (* what each chunk was constructed with *)
  origins : gmap cref (list (ref * nat))  (* the calls chunk.addOrigin(module, loc) *)
}.

(** A compilation as its constructor leaves it. *)
Definition init : Compilation := mkCompilation [] ∅ 0 ∅ ∅.

(** if(name): undefined, null and the empty string are falsy. *)
Definition truthyName (name : option string) : option string :=
  match name with
  | Some n => if String.eqb n "" then None else Some n
  | None => None
  end.

(** this.namedChunks[name] = chunk, on the own properties of a plain object:
    assigning to __proto__ sets the prototype and creates no property. *)
Definition setProperty (name : string) (chunk : cref) (o : gmap string cref)
    : gmap string cref :=
  if String.eqb name "__proto__" then o else <[name := chunk]> o.

(** [addChunk name module loc]: the chunk returned and the compilation
    after the call. *)
Definition addChunk (name : option string) (module : option ref) (loc : nat)
    (c : Compilation) : cref * Compilation :=
  match truthyName name ≫= λ n, namedChunks c !! n with
  | Some chunk =>
      (chunk,
       match module with
       | Some m =>
           mkCompilation (chunks c) (namedChunks c) (allocated c) (created c)
             (<[chunk := default [] (origins c !! chunk) ++ [(m, loc)]]> (origins c))
       | None => c
       end)
  | None =>
      let chunk := allocated c in
      (chunk,
       mkCompilation (chunks c ++ [chunk])
         (match truthyName name with
          | Some n => setProperty n chunk (namedChunks c)
          | None => namedChunks c
          end)
         (S (allocated c))
         (<[chunk := mkCreated name module loc]> (created c))
         (origins c))
  end.

(** A call of [addChunk]: name, module, loc. *)
Definition call : Type := option string * option ref * nat.

Definition addChunks (calls : list call) (c : Compilation) : Compilation :=
  foldl (λ c k, (addChunk k.1.1 k.1.2 k.2 c).2) c calls.

Record wf (c : Compilation) : Prop := mkWf {
  wf_NoDup : NoDup (chunks c);
  wf_allocated : ∀ chunk, chunk ∈ chunks c → chunk < allocated c;
  wf_named : ∀ n chunk, namedChunks c !! n = Some chunk → chunk ∈ chunks c;
  wf_names : ∀ n chunk, namedChunks c !! n = Some chunk →
                        cr_name <$> created c !! chunk = Some (Some n);
  wf_proto : ∀ n, namedChunks c !! n ≠ None → n ≠ "" ∧ n ≠ "__proto__"
}.

Lemma wf_init : wf init.
Proof.
  split; simpl.
  - constructor.
  - intros chunk Hin. by apply elem_of_nil in Hin.
  - intros n chunk Hn. by rewrite lookup_empty in Hn.
  - intros n chunk Hn. by rewrite lookup_empty in Hn.
  - intros n Hn. by rewrite lookup_empty in Hn.
Qed.

Lemma truthyName_Some (name : option string) (n : string) :
  truthyName name = Some n ↔ name = Some n ∧ n ≠ "".
Proof.
  unfold truthyName. destruct name as [s|]; [|naive_solver].
  destruct (String.eqb_spec s ""); naive_solver.
Qed.

Lemma addChunk_new (name : option string) (module : option ref) (loc : nat)
    (c : Compilation) :
  truthyName name ≫= (λ n, namedChunks c !! n) = None →
  addChunk name module loc c
  = (allocated c,
     mkCompilation (chunks c ++ [allocated c])
       (match truthyName name with
        | Some n => setProperty n (allocated c) (namedChunks c)
        | None => namedChunks c
        end)
       (S (allocated c))
       (<[allocated c := mkCreated name module loc]> (created c))
       (origins c)).
Proof. intros Hnone. unfold addChunk. by rewrite Hnone. Qed.

Lemma addChunk_wf (name : option string) (module : option ref) (loc : nat)
    (c : Compilation) :
  wf c → wf (addChunk name module loc c).2.
Proof.
  intros [Hnd Halloc Hnamed Hnames Hproto]. unfold addChunk.
  destruct (truthyName name ≫= λ n, namedChunks c !! n) as [chunk|] eqn:Hfound.
  - destruct module; by split.
  - assert (Hfresh : allocated c ∉ chunks c).
    { intros Hin. apply Halloc in Hin. lia. }
    split; cbn [snd chunks namedChunks allocated created].
    + apply NoDup_app. split; [done|]. split; [|apply NoDup_singleton].
      intros x Hx ->%list_elem_of_singleton. done.
    + intros chunk [Hin| ->%list_elem_of_singleton]%elem_of_app; [|lia].
      apply Halloc in Hin. lia.
    + intros n chunk. destruct (truthyName name) as [n'|] eqn:Hname; simpl.
      * unfold setProperty. destruct (String.eqb n' "__proto__").
        { intros Hn. apply elem_of_app. left. by eapply Hnamed. }
        destruct (decide (n = n')) as [->|Hne].
        { rewrite lookup_insert_eq. intros [= <-]. apply elem_of_app. right. left. }
        rewrite lookup_insert_ne by done.
        intros Hn. apply elem_of_app. left. by eapply Hnamed.
      * intros Hn. apply elem_of_app. left. by eapply Hnamed.
    + intros n chunk. destruct (truthyName name) as [n'|] eqn:Hname; simpl.
      * unfold setProperty. destruct (String.eqb n' "__proto__").
        { intros Hn. rewrite lookup_insert_ne; [by apply Hnames|].
          intros <-. by apply Hfresh, (Hnamed n). }
        destruct (decide (n = n')) as [->|Hne].
        { rewrite lookup_insert_eq. intros [= <-]. rewrite lookup_insert_eq. simpl.
          apply truthyName_Some in Hname as [-> _]. done. }
        rewrite lookup_insert_ne by done. intros Hn.
        rewrite lookup_insert_ne; [by apply Hnames|].
        intros <-. by apply Hfresh, (Hnamed n).
      * intros Hn. rewrite lookup_insert_ne; [by apply Hnames|].
        intros <-. by apply Hfresh, (Hnamed n).
    + intros n. destruct (truthyName name) as [n'|] eqn:Hname; simpl; [|apply Hproto].
      unfold setProperty. destruct (String.eqb_spec n' "__proto__") as [->|Hp]; [apply Hproto|].
      destruct (decide (n = n')) as [->|Hne].
      * intros _. apply truthyName_Some in Hname as [_ Hname]. done.
      * rewrite lookup_insert_ne by done. apply Hproto.
Qed.

Lemma addChunks_wf (calls : list call) : ∀ c, wf c → wf (addChunks calls c).
Proof.
  unfold addChunks. induction calls as [|k calls IH]; intros c Hwf; [done|].
  simpl. by apply IH, addChunk_wf.
Qed.

(** An entry of this.namedChunks is never replaced. *)
Lemma addChunk_named_stays (name : option string) (module : option ref) (loc : nat)
    (c : Compilation) (n : string) (chunk : cref) :
  namedChunks c !! n = Some chunk →
  namedChunks (addChunk name module loc c).2 !! n = Some chunk.
Proof.
  intros Hn. unfold addChunk.
  destruct (truthyName name ≫= λ n, namedChunks c !! n) as [chunk'|] eqn:Hfound.
  - by destruct module.
  - cbn [snd namedChunks]. destruct (truthyName name) as [n'|] eqn:Hname; [|done].
    unfold setProperty. destruct (String.eqb n' "__proto__"); [done|].
    simpl in Hfound. rewrite lookup_insert_ne; [done|]. intros ->. congruence.
Qed.

Lemma addChunks_named_stays (calls : list call) (n : string) (chunk : cref) :
  ∀ c, namedChunks c !! n = Some chunk → namedChunks (addChunks calls c) !! n = Some chunk.
Proof.
  unfold addChunks. induction calls as [|k calls IH]; intros c Hn; [done|].
  simpl. by apply IH, addChunk_named_stays.
Qed.

(** X11: once [addChunk] was called with a name (not empty, not __proto__),
    every later call with that name returns the chunk of the first call,
    adds no chunk to this.chunks, and calls chunk.addOrigin exactly when a
    module is given. *)
Theorem addChunk_reuses_named (n : string) (module : option ref) (loc : nat)
    (c : Compilation) (calls : list call) (module' : option ref) (loc' : nat) :
  n ≠ "" → n ≠ "__proto__" →
  let first := addChunk (Some n) module loc c in
  let c' := addChunks calls first.2 in
  let again := addChunk (Some n) module' loc' c' in
  again.1 = first.1 ∧
  chunks again.2 = chunks c' ∧
  namedChunks again.2 = namedChunks c' ∧
  default [] (origins again.2 !! first.1)
  = default [] (origins c' !! first.1)
      ++ match module' with Some m => [(m, loc')] | None => [] end.
Proof.
  intros Hn Hp first c' again.
  assert (Htruthy : truthyName (Some n) = Some n).
  { apply truthyName_Some. by split. }
  assert (Hfirst : namedChunks first.2 !! n = Some first.1).
  { unfold first, addChunk. rewrite Htruthy. simpl.
    destruct (namedChunks c !! n) as [chunk|] eqn:Hfound.
    - by destruct module.
    - cbn [fst snd namedChunks]. unfold setProperty.
      destruct (String.eqb_spec n "__proto__"); [done|]. by rewrite lookup_insert_eq. }
  assert (Hlater : namedChunks c' !! n = Some first.1)
    by by apply addChunks_named_stays.
  unfold again, addChunk. rewrite Htruthy. simpl. rewrite Hlater.
  destruct module' as [m|]; simpl.
  - rewrite lookup_insert_eq. done.
  - by rewrite app_nil_r.
Qed.

(** X12: the chunks that calls of [addChunk] put into this.chunks of a new
    compilation are pairwise different objects, every named chunk is among
    them and was constructed with the name it is found under. *)
Theorem addChunks_distinct (calls : list call) :
  NoDup (chunks (addChunks calls init)) ∧
  ∀ n chunk, namedChunks (addChunks calls init) !! n = Some chunk →
    chunk ∈ chunks (addChunks calls init) ∧
    cr_name <$> created (addChunks calls init) !! chunk = Some (Some n).
Proof.
  destruct (addChunks_wf calls init wf_init) as [Hnd Halloc Hnamed Hnames Hproto].
  split; [done|]. intros n chunk Hn. split; eauto.
Qed.

(** X13: a call of [addChunk] without a name, with the empty name or with
    the name __proto__ always constructs a chunk, appends it to this.chunks
    and leaves the properties of this.namedChunks as they are. *)
Theorem addChunk_unnamed_is_new (name : option string) (module : option ref) (loc : nat)
    (c : Compilation) :
  wf c →
  truthyName name = None ∨ name = Some "__proto__" →
  ((addChunk name module loc c).1 ∉ chunks c) ∧
  chunks (addChunk name module loc c).2 = chunks c ++ [(addChunk name module loc c).1] ∧
  namedChunks (addChunk name module loc c).2 = namedChunks c ∧
  created (addChunk name module loc c).2 !! (addChunk name module loc c).1
  = Some (mkCreated name module loc).
Proof.
  intros Hwf Hname.
  assert (Hnone : truthyName name ≫= (λ n, namedChunks c !! n) = None).
  { destruct Hname as [->| ->]; [done|]. simpl.
    destruct (namedChunks c !! "__proto__") eqn:Hp; [|done].
    destruct (wf_proto c Hwf "__proto__"); [by rewrite Hp|done]. }
  rewrite addChunk_new by done. cbn [fst snd chunks namedChunks created].
  split; [|split; [done|split]].
  - intros Hin. apply (wf_allocated c Hwf) in Hin. lia.
  - by destruct Hname as [->| ->].
  - by rewrite lookup_insert_eq.
Qed.

Section CheckConstraints.
Variable inherited : string → bool.
Variable chunk_checkConstraints : cref → option Error.
Variable debugId : cref → nat.
Variable module_id : gmap ref SelfCheck.Id.

Lemma checkChunks_repeat (rest : list cref) (chunk : cref) (pre1 : list cref) :
  (∀ c, chunk_checkConstraints c = None) →
  ∀ pre0, NoDup (pre0 ++ pre1) → chunk ∈ pre0 ++ pre1 →
  SelfCheck.checkChunks chunk_checkConstraints debugId (pre0 ++ pre1 ++ chunk :: rest)
    (length pre0) (pre1 ++ chunk :: rest)
  = Some (JsError "Error"
            ("checkConstraints: duplicate chunk in compilation " +:+ pretty (debugId chunk))).
Proof.
  intros Hchunk. induction pre1 as [|x pre1 IH]; intros pre0 Hnd Hin.
  - rewrite app_nil_r in Hin. simpl. rewrite decide_False; [done|].
    intros Heq. apply SelfCheck.indexOf_seen in Heq; [lia|done].
  - cbn [app SelfCheck.checkChunks].
    apply NoDup_app in Hnd as Hparts. destruct Hparts as (_ & Hdisj & _).
    rewrite decide_True.
    + rewrite Hchunk. specialize (IH (pre0 ++ [x])).
      rewrite length_app, Nat.add_1_r, <- !(assoc_L (++)) in IH. apply IH; [done|].
      apply elem_of_app in Hin as [Hin|Hin]; set_solver.
    + apply SelfCheck.indexOf_fresh. intros Hx. apply (Hdisj x Hx). left.
Qed.

(** X14: when [checkConstraints] gets past its first loop and the checks of
    the chunks themselves pass, it throws for the first chunk of this.chunks
    that occurs earlier in this.chunks, with the debugId of that chunk in the
    message. *)
Theorem checkConstraints_reports_first_repeat (modules : list ref)
    (pre : list cref) (chunk : cref) (rest : list cref) :
  (∀ m, m ∈ modules →
     inherited (SelfCheck.idKey (default SelfCheck.IdNull (module_id !! m))) = false) →
  (∀ c, chunk_checkConstraints c = None) →
  NoDup pre → chunk ∈ pre →
  SelfCheck.checkConstraints inherited chunk_checkConstraints debugId module_id modules
    (pre ++ chunk :: rest)
  = Some (JsError "Error"
            ("checkConstraints: duplicate chunk in compilation " +:+ pretty (debugId chunk))).
Proof.
  intros Hids Hchunk Hnd Hin. unfold SelfCheck.checkConstraints.
  rewrite SelfCheck.checkModules_empty by done.
  apply (checkChunks_repeat rest chunk pre Hchunk []); done.
Qed.

(** X15: this.chunks of a compilation whose chunks all come from [addChunk]
    passes [checkConstraints], when the first loop and the checks of the
    chunks themselves pass. *)
Theorem addChunks_pass_checkConstraints (modules : list ref) (calls : list call) :
  (∀ m, m ∈ modules →
     inherited (SelfCheck.idKey (default SelfCheck.IdNull (module_id !! m))) = false) →
  (∀ c, chunk_checkConstraints c = None) →
  SelfCheck.checkConstraints inherited chunk_checkConstraints debugId module_id modules
    (chunks (addChunks calls init))
  = None.
Proof.
  intros Hids Hchunk. unfold SelfCheck.checkConstraints.
  rewrite SelfCheck.checkModules_empty by done.
  apply (SelfCheck.checkChunks_NoDup chunk_checkConstraints debugId [] _ Hchunk);
    [constructor|].
  apply (wf_NoDup _ (addChunks_wf calls init wf_init)).
Qed.

End CheckConstraints.

End Chunks.

Lemma addChunk_reuses_named_witness :
  let first := Chunks.addChunk (Some "main") (Some 7) 0 Chunks.init in
  let c' := Chunks.addChunks [(Some "vendor", None, 1); (None, Some 8, 2)] first.2 in
  let again := Chunks.addChunk (Some "main") (Some 9) 3 c' in
  again.1 = 0 ∧ Chunks.chunks again.2 = [0; 1; 2] ∧
  default [] (Chunks.origins again.2 !! 0) = [(9, 3)].
Proof.
  intros first c' again.
  destruct (Chunks.addChunk_reuses_named "main" (Some 7) 0 Chunks.init
              [(Some "vendor", None, 1); (None, Some 8, 2)] (Some 9) 3)
    as (H1 & H2 & _ & H4); [done|done|].
  split; [exact H1|]. split; [exact H2|exact H4].
Defined.

Lemma addChunk_unnamed_is_new_witness :
  let c := (Chunks.addChunk (Some "__proto__") None 0 Chunks.init).2 in
  ((Chunks.addChunk (Some "__proto__") None 1 c).1 ∉ Chunks.chunks c) ∧
  Chunks.chunks (Chunks.addChunk (Some "__proto__") None 1 c).2 = [0; 1].
Proof.
  intros c.
  destruct (Chunks.addChunk_unnamed_is_new (Some "__proto__") None 1 c) as (H1 & H2 & _).
  - apply Chunks.addChunk_wf, Chunks.wf_init.
  - by right.
  - split; [exact H1|exact H2].
Defined.

Lemma checkConstraints_reports_first_repeat_witness :
  SelfCheck.checkConstraints SelfCheck.objectPrototype (λ _, None) (λ c, c + 1000)
    {[ 0 := SelfCheck.IdNum 0 ]} [0] ([0; 1] ++ 1 :: [2])
  = Some (JsError "Error" "checkConstraints: duplicate chunk in compilation 1001").
Proof.
  apply (Chunks.checkConstraints_reports_first_repeat SelfCheck.objectPrototype (λ _, None)
           (λ c, c + 1000) {[ 0 := SelfCheck.IdNum 0 ]} [0] [0; 1] 1 [2]).
  - intros m ->%list_elem_of_singleton. reflexivity.
  - reflexivity.
  - by apply (bool_decide_unpack _).
  - set_solver.
Defined.

Lemma addChunks_pass_checkConstraints_witness :
  SelfCheck.checkConstraints SelfCheck.objectPrototype (λ _, None) (λ c, c)
    {[ 0 := SelfCheck.IdNum 0 ]} [0]
    (Chunks.chunks (Chunks.addChunks [(Some "main", Some 0, 0); (Some "main", None, 1);
                                      (None, None, 2)] Chunks.init))
  = None.
Proof.
  apply (Chunks.addChunks_pass_checkConstraints SelfCheck.objectPrototype (λ _, None)
           (λ c, c) {[ 0 := SelfCheck.IdNum 0 ]} [0]).
  - intros m ->%list_elem_of_singleton. reflexivity.
  - reflexivity.
Defined.

(** ** More on [createChunkAssets] and [addModule] *)

Module AssetFacts.

Import AssetEmitter.

Section CreateChunkAssets.
Variable inherited : string → bool.
Variables filename chunkFilename : string.
Variable chunk_filenameTemplate : cref → option string.
Variable chunk_isInitial : cref → bool.
Variable chunk_hasRuntime : cref → bool.
Variable chunk_hash : cref → string.
Variable chunk_id : cref → SelfCheck.Id.
Variable mainTemplate_useChunkHash : option (cref → bool).
Variable getPath : string → bool → cref → string → result string.

Section Renderers.
Variable mainTemplate_render : string → cref → result Source.
Variable chunkTemplate_render : cref → result Source.

#[local] Abbreviation emitChunk :=
  (emitChunk inherited filename chunkFilename chunk_filenameTemplate chunk_isInitial
     chunk_hasRuntime chunk_hash chunk_id mainTemplate_useChunkHash mainTemplate_render
     chunkTemplate_render getPath).
#[local] Abbreviation emitChunks :=
  (emitChunks inherited filename chunkFilename chunk_filenameTemplate chunk_isInitial
     chunk_hasRuntime chunk_hash chunk_id mainTemplate_useChunkHash mainTemplate_render
     chunkTemplate_render getPath).
#[local] Abbreviation createChunkAssets :=
  (createChunkAssets inherited filename chunkFilename chunk_filenameTemplate chunk_isInitial
     chunk_hasRuntime chunk_hash chunk_id mainTemplate_useChunkHash mainTemplate_render
     chunkTemplate_render getPath).
#[local] Abbreviation resolves :=
  (resolves inherited filename chunkFilename chunk_filenameTemplate chunk_isInitial
     chunk_hasRuntime chunk_hash chunk_id mainTemplate_useChunkHash mainTemplate_render
     chunkTemplate_render getPath).
#[local] Abbreviation filenameTemplateOf :=
  (filenameTemplateOf filename chunkFilename chunk_filenameTemplate chunk_isInitial).

(** One turn of the loop leaves either one asset more or one error more, and
    the chunk with no file or with the one file it has just put into
    this.assets. *)
Lemma emitChunk_accounts (c : Compilation) (chunk : cref) :
  length (errors (emitChunk c chunk)) + size (assets (emitChunk c chunk))
  = S (length (errors c) + size (assets c)) ∧
  ∃ fs, files (emitChunk c chunk) !! chunk = Some fs ∧ length fs ≤ 1 ∧
        ∀ f, f ∈ fs → is_Some (assets (emitChunk c chunk) !! f).
Proof.
  unfold AssetEmitter.emitChunk.
  destruct (sourceFor _ _ _ _ _ _ _ c chunk) as [[source cache']|e].
  2: { simpl. rewrite length_app, lookup_insert_eq. simpl. split; [lia|].
       exists []. split; [done|]. split; [simpl; lia|]. by intros f ?%elem_of_nil. }
  destruct (pathFor _ _ _ _ _ _ _ c chunk) as [file|e].
  2: { simpl. rewrite length_app, lookup_insert_eq. simpl. split; [lia|].
       exists []. split; [done|]. split; [simpl; lia|]. by intros f ?%elem_of_nil. }
  destruct (truthy (get inherited (assets c) file)) eqn:Ht.
  - simpl. rewrite length_app, lookup_insert_eq. simpl. split; [lia|].
    exists []. split; [done|]. split; [simpl; lia|]. by intros f ?%elem_of_nil.
  - simpl. rewrite lookup_insert_eq. split.
    + rewrite map_size_insert_None; [lia|].
      unfold get in Ht. by destruct (assets c !! file).
    + exists [file]. split; [done|]. split; [simpl; lia|].
      intros f ->%list_elem_of_singleton. by rewrite lookup_insert_eq.
Qed.

(** X16: [createChunkAssets] accounts for every chunk of this.chunks: the
    assets and errors together grow by the number of chunks, no asset is
    replaced, and every chunk ends with at most one file, which is an
    asset. *)
Theorem createChunkAssets_accounts_for_every_chunk (c : Compilation) :
  length (errors (createChunkAssets c)) + size (assets (createChunkAssets c))
  = length (errors c) + size (assets c) + length (chunks c) ∧
  assets c ⊆ assets (createChunkAssets c) ∧
  ∀ chunk, chunk ∈ chunks c →
    ∃ fs, files (createChunkAssets c) !! chunk = Some fs ∧ length fs ≤ 1 ∧
          ∀ f, f ∈ fs → is_Some (assets (createChunkAssets c) !! f).
Proof.
  unfold AssetEmitter.createChunkAssets. generalize (chunks c) as l.
  induction l as [|x l IH] using rev_ind.
  - simpl. split; [lia|]. split; [done|]. by intros chunk ?%elem_of_nil.
  - destruct IH as (Hcount & Hsub & Hfiles).
    rewrite emitChunks_app. cbn [AssetEmitter.emitChunks foldl].
    destruct (emitChunk_accounts (emitChunks l c) x) as (Hstep & Hx).
    split; [rewrite length_app; simpl; lia|]. split.
    + etrans; [exact Hsub|]. apply map_subseteq_spec. intros g v Hg.
      by apply emitChunk_assets_keep.
    + intros chunk Hin. destruct (decide (chunk = x)) as [->|Hne]; [exact Hx|].
      apply elem_of_app in Hin as [Hin|Hin%list_elem_of_singleton]; [|done].
      destruct (Hfiles chunk Hin) as (fs & Hfs & Hlen & Hassets).
      exists fs. split; [by rewrite emitChunk_files|]. split; [done|].
      intros f Hf. destruct (Hassets f Hf) as [v Hv]. exists v.
      by apply emitChunk_assets_keep.
Qed.

(** X17: an output path that is a property name of Object.prototype, such as
    constructor, counts as taken: the chunk gets the conflict error although
    this.assets has no asset of that name, and gets no file. *)
Theorem emitChunk_inherited_name_conflicts (c : Compilation) (chunk : cref)
    (file : string) (source : Source) :
  resolves c chunk file source →
  inherited file = true →
  assets (emitChunk c chunk) = assets c ∧
  files (emitChunk c chunk) !! chunk = Some [] ∧
  errors (emitChunk c chunk)
  = errors c ++ [newError (ChunkRenderError chunk
                             (if nonEmpty file then file else filenameTemplateOf chunk)
                             (conflict file))].
Proof.
  intros Hr Hin. apply (emitChunk_conflict _ _ _ _ _ _ _ _ _ _ _ _ _ _ _ _ Hr).
  unfold get. destruct (assets c !! file); [done|]. by rewrite Hin.
Qed.

End Renderers.

(** X18: when this.cache holds an entry for the chunk whose hash is the hash
    in use, the turn of the chunk does not depend on the render functions of
    the templates: they are not called. *)
Theorem emitChunk_cache_hit_skips_render (c : Compilation) (chunk : cref)
    (o : gmap string ChunkCache) (entry : ChunkCache)
    (mainTemplate_render mainTemplate_render' : string → cref → result Source)
    (chunkTemplate_render chunkTemplate_render' : cref → result Source) :
  cache c = Some o →
  o !! cacheName chunk_id chunk = Some entry →
  cc_hash entry = usedHash chunk_hasRuntime chunk_hash mainTemplate_useChunkHash c chunk →
  emitChunk inherited filename chunkFilename chunk_filenameTemplate chunk_isInitial
    chunk_hasRuntime chunk_hash chunk_id mainTemplate_useChunkHash mainTemplate_render
    chunkTemplate_render getPath c chunk
  = emitChunk inherited filename chunkFilename chunk_filenameTemplate chunk_isInitial
      chunk_hasRuntime chunk_hash chunk_id mainTemplate_useChunkHash mainTemplate_render'
      chunkTemplate_render' getPath c chunk ∧
  sourceFor inherited chunk_hasRuntime chunk_hash chunk_id mainTemplate_useChunkHash
    mainTemplate_render chunkTemplate_render c chunk
  = Ok (cc_source entry, Some o).
Proof.
  intros Hcache Hentry Hhash.
  assert (Hsrc : ∀ r1 r2,
            sourceFor inherited chunk_hasRuntime chunk_hash chunk_id
              mainTemplate_useChunkHash r1 r2 c chunk = Ok (cc_source entry, Some o)).
  { intros r1 r2. unfold sourceFor. rewrite Hcache. unfold get. rewrite Hentry.
    rewrite Hhash, String.eqb_refl. reflexivity. }
  split; [|apply Hsrc]. unfold emitChunk. by rewrite !Hsrc.
Qed.

End CreateChunkAssets.

End AssetFacts.

(** One chunk whose output path is the name of a property of
    Object.prototype. *)
Definition constructorFile : AssetEmitter.Compilation :=
  AssetEmitter.mkCompilation [0] None ∅ [] ∅ "f00d" "f00dcafe".

Lemma emitChunk_inherited_name_conflicts_witness :
  let emit := AssetEmitter.emitChunk SelfCheck.objectPrototype "constructor" "[id].js"
                (λ _, None) (λ _, true) (λ _, true) (λ _, "c0ffee")
                (λ chunk, SelfCheck.IdNum chunk) None
                (λ _ chunk, Ok (RawSource (pretty chunk))) (λ chunk, Ok (RawSource "chunk"))
                (λ template _ _ _, Ok template) in
  AssetEmitter.assets (emit constructorFile 0) = ∅ ∧
  AssetEmitter.files (emit constructorFile 0) !! 0 = Some [] ∧
  AssetEmitter.errors (emit constructorFile 0)
  = [newError (ChunkRenderError 0 "constructor" (AssetEmitter.conflict "constructor"))].
Proof.
  intros emit.
  apply (AssetFacts.emitChunk_inherited_name_conflicts SelfCheck.objectPrototype
           "constructor" "[id].js" (λ _, None) (λ _, true) (λ _, true) (λ _, "c0ffee")
           (λ chunk, SelfCheck.IdNum chunk) None (λ template _ _ _, Ok template)
           (λ _ chunk, Ok (RawSource (pretty chunk))) (λ chunk, Ok (RawSource "chunk"))
           constructorFile 0 "constructor" (RawSource "0")).
  - exists None. split; reflexivity.
  - reflexivity.
Defined.

(** One chunk without runtime whose rendered source is in the cache under
    its hash. *)
Definition cachedChunk : AssetEmitter.Compilation :=
  AssetEmitter.mkCompilation [0]
    (Some {[ "c0" := AssetEmitter.mkChunkCache "c0ffee" (CachedSource (RawSource "old")) ]})
    ∅ [] ∅ "f00d" "f00dcafe".

Lemma emitChunk_cache_hit_skips_render_witness :
  AssetEmitter.emitChunk SelfCheck.objectPrototype "bundle.js" "[id].js"
    (λ _, None) (λ _, false) (λ _, false) (λ _, "c0ffee")
    (λ chunk, SelfCheck.IdNum chunk) None
    (λ _ _, Throw (JsError "Error" "render")) (λ _, Throw (JsError "Error" "render"))
    (λ template _ _ _, Ok template) cachedChunk 0
  = AssetEmitter.emitChunk SelfCheck.objectPrototype "bundle.js" "[id].js"
      (λ _, None) (λ _, false) (λ _, false) (λ _, "c0ffee")
      (λ chunk, SelfCheck.IdNum chunk) None
      (λ _ _, Ok (RawSource "new")) (λ _, Ok (RawSource "new"))
      (λ template _ _ _, Ok template) cachedChunk 0.
Proof.
  apply (AssetFacts.emitChunk_cache_hit_skips_render SelfCheck.objectPrototype
           "bundle.js" "[id].js" (λ _, None) (λ _, false) (λ _, false) (λ _, "c0ffee")
           (λ chunk, SelfCheck.IdNum chunk) None (λ template _ _ _, Ok template)
           cachedChunk 0
           {[ "c0" := AssetEmitter.mkChunkCache "c0ffee" (CachedSource (RawSource "old")) ]}
           (AssetEmitter.mkChunkCache "c0ffee" (CachedSource (RawSource "old"))));
    reflexivity.
Defined.

Module RegistryFacts.

Import Registry.

Section Registry.
Context {store : Type} `{ModuleClass store}.
Variable inherited : string → bool.

(** A call of [addModule] either refuses the module and changes nothing, or
    pushes one object and registers it under the identifier of the module,
    which was not registered and is no inherited name. *)
Lemma addModule_step (module : ref) (cacheGroup : option string) (c : Compilation store) :
  addModule inherited module cacheGroup c = (RFalse, c) ∨
  ∃ x, modules (addModule inherited module cacheGroup c).2 = modules c ++ [x] ∧
       _modules (addModule inherited module cacheGroup c).2
       = <[identifier module := x]> (_modules c) ∧
       _modules c !! identifier module = None ∧
       inherited (identifier module) = false.
Proof.
  unfold addModule.
  destruct (truthy (get inherited (_modules c) (identifier module))) eqn:Ht; [by left|].
  right.
  assert (_modules c !! identifier module = None ∧ inherited (identifier module) = false)
    as [Hnone Hinh].
  { unfold get in Ht. destruct (_modules c !! identifier module); [done|].
    by destruct (inherited (identifier module)). }
  destruct (cacheLookup inherited c _) as [cacheModule| |]; simpl;
    repeat case_match; simpl; eauto.
Qed.

Record consistent (c : Compilation store) : Prop := mkConsistent {
  con_size : length (modules c) = size (_modules c);
  con_registered : ∀ m, m ∈ modules c ↔ ∃ k, _modules c !! k = Some m;
  con_own : ∀ k, is_Some (_modules c !! k) → inherited k = false
}.

Lemma addModule_consistent (module : ref) (cacheGroup : option string)
    (c : Compilation store) :
  consistent c → consistent (addModule inherited module cacheGroup c).2.
Proof.
  intros [Hsize Hreg Hown].
  destruct (addModule_step module cacheGroup c) as [->|(x & Hm & Hr & Hnone & Hinh)];
    [by split|].
  split; rewrite ?Hm, ?Hr.
  - rewrite length_app, map_size_insert_None by done. simpl. lia.
  - intros m. rewrite elem_of_app, list_elem_of_singleton, Hreg. split.
    + intros [(k & Hk)| ->].
      * exists k. rewrite lookup_insert_ne; [done|]. intros <-. congruence.
      * exists (identifier module). by rewrite lookup_insert_eq.
    + intros (k & Hk). destruct (decide (k = identifier module)) as [->|Hne].
      * rewrite lookup_insert_eq in Hk. right. congruence.
      * rewrite lookup_insert_ne in Hk by done. left. by exists k.
  - intros k. destruct (decide (k = identifier module)) as [->|Hne]; [done|].
    rewrite lookup_insert_ne by done. apply Hown.
Qed.

(** X19: after any calls of [addModule] on a compilation that starts without
    modules, this.modules has as many entries as this._modules has
    properties, holds exactly the objects that this._modules holds, and no
    property of this._modules has a name inherited from Object.prototype. *)
Theorem addModules_registry_consistent (calls : list (ref * option string))
    (c : Compilation store) :
  modules c = [] → _modules c = ∅ →
  length (modules (addModules inherited calls c))
  = size (_modules (addModules inherited calls c)) ∧
  (∀ m, m ∈ modules (addModules inherited calls c)
        ↔ ∃ k, _modules (addModules inherited calls c) !! k = Some m) ∧
  (∀ k, is_Some (_modules (addModules inherited calls c) !! k) → inherited k = false).
Proof.
  intros Hm Hr.
  assert (Hc : consistent c).
  { split; rewrite ?Hm, ?Hr.
    - by rewrite map_size_empty.
    - intros m. split; [by intros ?%elem_of_nil|].
      intros (k & Hk). by rewrite lookup_empty in Hk.
    - intros k [m Hk]. by rewrite lookup_empty in Hk. }
  clear Hm Hr. revert c Hc. unfold addModules.
  induction calls as [|call calls IH]; intros c Hc; simpl.
  - by destruct Hc.
  - by apply IH, addModule_consistent.
Qed.

(** Without this.cache, a call of [addModule] pushes the module itself. *)
Lemma addModule_no_cache (module : ref) (cacheGroup : option string)
    (c : Compilation store) :
  cache c = None →
  addModule inherited module cacheGroup c
  = if truthy (get inherited (_modules c) (identifier module)) then (RFalse, c)
    else (RTrue,
          mkCompilation (modules c ++ [module])
            (<[identifier module := module]> (_modules c))
            None (hasTimestamps c) (errors c) (warnings c)
            (unbuild module (objects c))).
Proof.
  intros Hcache. unfold addModule, cacheLookup. rewrite Hcache. reflexivity.
Qed.

Record keyed (c : Compilation store) : Prop := mkKeyed {
  key_cache : cache c = None;
  key_NoDup : NoDup (identifier <$> modules c);
  key_own : ∀ m, m ∈ modules c → _modules c !! identifier m = Some m
}.

Lemma addModule_keyed (module : ref) (cacheGroup : option string)
    (c : Compilation store) :
  keyed c →
  keyed (addModule inherited module cacheGroup c).2 ∧
  errors (addModule inherited module cacheGroup c).2 = errors c ∧
  warnings (addModule inherited module cacheGroup c).2 = warnings c ∧
  ∃ l, modules (addModule inherited module cacheGroup c).2 = modules c ++ l ∧
       l `sublist_of` [module].
Proof.
  intros [Hcache Hnd Hown]. rewrite addModule_no_cache by done.
  destruct (truthy (get inherited (_modules c) (identifier module))) eqn:Ht.
  - split; [by split|]. split; [done|]. split; [done|].
    exists []. split; [by rewrite app_nil_r|]. apply sublist_nil_l.
  - assert (Hnone : _modules c !! identifier module = None).
    { unfold get in Ht. by destruct (_modules c !! identifier module). }
    split; [|split; [done|split; [done|]]].
    + split; cbn [snd modules _modules cache]; [done| |].
      * rewrite fmap_app. apply NoDup_app. split; [done|].
        split; [|apply NoDup_singleton].
        intros k (m & -> & Hm)%list_elem_of_fmap Heq%list_elem_of_singleton.
        apply Hown in Hm. congruence.
      * intros m [Hm| ->%list_elem_of_singleton]%elem_of_app.
        -- rewrite lookup_insert_ne; [by apply Hown|].
           intros Heq. apply Hown in Hm. congruence.
        -- by rewrite lookup_insert_eq.
    + exists [module]. by split.
Qed.

(** X20: without this.cache, [addModule] calls on a compilation that starts
    without modules keep, in call order, some of the modules they are given;
    the modules kept have pairwise different identifiers, each is registered
    under its own, and this.errors and this.warnings stay as they are. *)
Theorem addModules_no_cache_by_identifier (calls : list (ref * option string))
    (c : Compilation store) :
  cache c = None → modules c = [] →
  modules (addModules inherited calls c) `sublist_of` calls.*1 ∧
  NoDup (identifier <$> modules (addModules inherited calls c)) ∧
  (∀ m, m ∈ modules (addModules inherited calls c) →
        _modules (addModules inherited calls c) !! identifier m = Some m) ∧
  errors (addModules inherited calls c) = errors c ∧
  warnings (addModules inherited calls c) = warnings c.
Proof.
  intros Hcache Hm.
  assert (Hk : keyed c).
  { split; rewrite ?Hm; [done|constructor|]. by intros m ?%elem_of_nil. }
  assert (Hgen : ∀ calls c, keyed c →
            keyed (addModules inherited calls c) ∧
            errors (addModules inherited calls c) = errors c ∧
            warnings (addModules inherited calls c) = warnings c ∧
            ∃ l, modules (addModules inherited calls c) = modules c ++ l ∧
                 l `sublist_of` calls.*1).
  { clear. unfold addModules. induction calls as [|call calls IH]; intros c Hk.
    - simpl. split; [done|]. split; [done|]. split; [done|].
      exists []. by rewrite app_nil_r.
    - cbn [foldl].
      destruct (addModule_keyed call.1 call.2 c Hk)
        as (Hk1 & He1 & Hw1 & l1 & Hm1 & Hs1).
      destruct (IH _ Hk1) as (Hk2 & He2 & Hw2 & l2 & Hm2 & Hs2).
      split; [done|]. split; [congruence|]. split; [congruence|].
      exists (l1 ++ l2). split; [by rewrite Hm2, Hm1, (assoc_L (++))|].
      rewrite fmap_cons. change (call.1 :: calls.*1) with ([call.1] ++ calls.*1).
      by apply sublist_app. }
  destruct (Hgen calls c Hk) as ([_ Hnd Hown] & He & Hw & l & Hl & Hs).
  rewrite Hm in Hl. simpl in Hl. rewrite Hl in *. done.
Qed.

End Registry.

End RegistryFacts.

(** A compilation without cache and without modules. *)
Definition plainRegistry : Registry.Compilation unit :=
  Registry.mkCompilation [] ∅ None false [] [] tt.

Lemma addModules_registry_consistent_witness :
  let c := Registry.addModules SelfCheck.objectPrototype
             [(0, None); (1, Some "g"); (2, None)] emptyRegistry in
  length (Registry.modules c) = size (Registry._modules c) ∧
  (∀ m, m ∈ Registry.modules c ↔ ∃ k, Registry._modules c !! k = Some m) ∧
  (∀ k, is_Some (Registry._modules c !! k) → SelfCheck.objectPrototype k = false).
Proof.
  apply (RegistryFacts.addModules_registry_consistent SelfCheck.objectPrototype
           [(0, None); (1, Some "g"); (2, None)] emptyRegistry); reflexivity.
Defined.

Lemma addModules_no_cache_by_identifier_witness :
  let c := Registry.addModules SelfCheck.objectPrototype
             [(0, None); (1, Some "g"); (2, None)] plainRegistry in
  Registry.modules c `sublist_of` [0; 1; 2] ∧
  NoDup (Registry.identifier <$> Registry.modules c) ∧
  (∀ m, m ∈ Registry.modules c →
        Registry._modules c !! Registry.identifier m = Some m) ∧
  Registry.errors c = [] ∧
  Registry.warnings c = [].
Proof.
  apply (RegistryFacts.addModules_no_cache_by_identifier SelfCheck.objectPrototype
           [(0, None); (1, Some "g"); (2, None)] plainRegistry); reflexivity.
Defined.

(** ** More on [createHash] *)

Module HashFacts.

Import Hasher.

Section CreateHash.
Variable outputOptions : OutputOptions.
Variable digest : string → list string → string → string.
Variable mainTemplate_updateHash : list string.
Variable chunkTemplate_updateHash : list string.
Variable moduleTemplate_updateHash : list string.
Variable chunk_updateHash : cref → list string.
Variable chunkTemplate_updateHashForChunk : list string.
Variable mainTemplate_updateHashForChunk :
  cref → gmap cref string → gmap cref string → list string.
Variable chunk_hasRuntime : cref → bool.

#[local] Existing Instance before_dec.

#[local] Abbreviation hashChunk :=
  (hashChunk outputOptions digest chunk_updateHash chunkTemplate_updateHashForChunk
     mainTemplate_updateHashForChunk chunk_hasRuntime).
#[local] Abbreviation createHash :=
  (createHash outputOptions digest mainTemplate_updateHash chunkTemplate_updateHash
     moduleTemplate_updateHash chunk_updateHash chunkTemplate_updateHashForChunk
     mainTemplate_updateHashForChunk chunk_hasRuntime).
#[local] Abbreviation fold_other :=
  (fold_other outputOptions digest chunk_updateHash chunkTemplate_updateHashForChunk
     mainTemplate_updateHashForChunk chunk_hasRuntime).

(** What the hash object of a chunk is updated with, for given hash and
    renderedHash fields of the chunks. *)
Definition chunkUpdates (chunk : cref) (hashes rendered : gmap cref string) : list string :=
  salt outputOptions ++ chunk_updateHash chunk
    ++ (if chunk_hasRuntime chunk
        then mainTemplate_updateHashForChunk chunk hashes rendered
        else chunkTemplate_updateHashForChunk).

(** What the hash object of the compilation is updated with before the
    chunks. *)
Definition compilationUpdates (c : Compilation) : list string :=
  salt outputOptions ++ mainTemplate_updateHash ++ chunkTemplate_updateHash
    ++ moduleTemplate_updateHash ++ children c.

Lemma hashChunk_eq (u : list string) (h r : gmap cref string) (chunk : cref) :
  hashChunk (u, h, r) chunk
  = (u ++ [digestOf outputOptions digest (chunkUpdates chunk h r)],
     <[chunk := digestOf outputOptions digest (chunkUpdates chunk h r)]> h,
     <[chunk := truncate outputOptions (digestOf outputOptions digest (chunkUpdates chunk h r))]> r).
Proof. reflexivity. Qed.

Lemma createHash_eq (c : Compilation) :
  createHash c
  = mkCompilation (chunks c) (children c)
      (foldl hashChunk (compilationUpdates c, chunk_hash c, chunk_renderedHash c)
         (merge_sort (before chunk_hasRuntime) (chunks c))).1.2
      (foldl hashChunk (compilationUpdates c, chunk_hash c, chunk_renderedHash c)
         (merge_sort (before chunk_hasRuntime) (chunks c))).2
      (Some (digestOf outputOptions digest
               (foldl hashChunk (compilationUpdates c, chunk_hash c, chunk_renderedHash c)
                  (merge_sort (before chunk_hasRuntime) (chunks c))).1.1))
      (Some (truncate outputOptions
               (digestOf outputOptions digest
                  (foldl hashChunk (compilationUpdates c, chunk_hash c, chunk_renderedHash c)
                     (merge_sort (before chunk_hasRuntime) (chunks c))).1.1))).
Proof.
  unfold Hasher.createHash, compilationUpdates.
  by destruct (foldl _ _ _) as [[? ?] ?].
Qed.


Lemma fold_no_runtime_digest (l : list cref) :
  Forall (λ k, chunk_hasRuntime k = false) l →
  ∀ u h r k, k ∈ l →
  (foldl hashChunk (u, h, r) l).1.2 !! k
  = Some (digestOf outputOptions digest
            (salt outputOptions ++ chunk_updateHash k ++ chunkTemplate_updateHashForChunk)) ∧
  (foldl hashChunk (u, h, r) l).2 !! k
  = Some (truncate outputOptions
            (digestOf outputOptions digest
               (salt outputOptions ++ chunk_updateHash k ++ chunkTemplate_updateHashForChunk))).
Proof.
  induction 1 as [|a l Ha Hl IH]; intros u h r k Hk.
  - by apply elem_of_nil in Hk.
  - cbn [foldl]. rewrite hashChunk_eq.
    destruct (decide (k ∈ l)) as [Hin|Hout]; [by apply IH|].
    apply elem_of_cons in Hk as [->|Hk]; [|done].
    destruct (fold_other l (u ++ [digestOf outputOptions digest (chunkUpdates a h r)])
                (<[a := digestOf outputOptions digest (chunkUpdates a h r)]> h)
                (<[a := truncate outputOptions
                          (digestOf outputOptions digest (chunkUpdates a h r))]> r) a Hout)
      as [-> ->].
    rewrite !lookup_insert_eq. unfold chunkUpdates. by rewrite Ha.
Qed.

Section ReadsNoRuntime.
(** The comment in [createHash]: the hasRuntime() chunks depend on the
    hashes of the chunks without runtime. *)
Hypothesis main_reads_no_runtime :
  ∀ chunk h1 r1 h2 r2,
    agree (λ k, chunk_hasRuntime k = false) h1 h2 →
    agree (λ k, chunk_hasRuntime k = false) r1 r2 →
    mainTemplate_updateHashForChunk chunk h1 r1
    = mainTemplate_updateHashForChunk chunk h2 r2.

Lemma fold_runtime_digest (l : list cref) :
  Forall (λ k, chunk_hasRuntime k = true) l →
  ∀ u h r,
  agree (λ k, chunk_hasRuntime k = false) h (foldl hashChunk (u, h, r) l).1.2 ∧
  agree (λ k, chunk_hasRuntime k = false) r (foldl hashChunk (u, h, r) l).2 ∧
  ∀ k, k ∈ l →
    (foldl hashChunk (u, h, r) l).1.2 !! k
    = Some (digestOf outputOptions digest
              (chunkUpdates k (foldl hashChunk (u, h, r) l).1.2
                 (foldl hashChunk (u, h, r) l).2)) ∧
    (foldl hashChunk (u, h, r) l).2 !! k
    = Some (truncate outputOptions
              (digestOf outputOptions digest
                 (chunkUpdates k (foldl hashChunk (u, h, r) l).1.2
                    (foldl hashChunk (u, h, r) l).2))).
Proof.
  induction 1 as [|a l Ha Hl IH]; intros u h r.
  - split; [done|]. split; [done|]. by intros k ?%elem_of_nil.
  - cbn [foldl]. rewrite hashChunk_eq.
    set (ha := digestOf outputOptions digest (chunkUpdates a h r)).
    destruct (IH (u ++ [ha]) (<[a := ha]> h) (<[a := truncate outputOptions ha]> r))
      as (Hh & Hr & Hin).
    set (res := foldl hashChunk (u ++ [ha], <[a := ha]> h,
                                 <[a := truncate outputOptions ha]> r) l) in *.
    assert (Hh' : agree (λ k, chunk_hasRuntime k = false) h res.1.2).
    { intros k Hk. rewrite <- (Hh k Hk). rewrite lookup_insert_ne; [done|]. congruence. }
    assert (Hr' : agree (λ k, chunk_hasRuntime k = false) r res.2).
    { intros k Hk. rewrite <- (Hr k Hk). rewrite lookup_insert_ne; [done|]. congruence. }
    split; [done|]. split; [done|].
    intros k Hk. destruct (decide (k ∈ l)) as [Hkl|Hout]; [by apply Hin|].
    apply elem_of_cons in Hk as [->|Hk]; [|done].
    destruct (fold_other l (u ++ [ha]) (<[a := ha]> h)
                (<[a := truncate outputOptions ha]> r) a Hout) as [Ea Eb].
    fold res in Ea, Eb. rewrite Ea, Eb, !lookup_insert_eq.
    assert (ha = digestOf outputOptions digest (chunkUpdates a res.1.2 res.2)) as <-; [|done].
    unfold ha, chunkUpdates. rewrite Ha.
    by rewrite (main_reads_no_runtime a h r res.1.2 res.2).
Qed.

(** X21: after [createHash] the hash of every chunk of this.chunks is the
    digest of what the chunk and its template feed in, where the main
    template reads the hashes as [createHash] leaves them, and its
    renderedHash is that digest cut to hashDigestLength. *)
Theorem createHash_hashes_are_digests (c : Compilation) (chunk : cref) :
  chunk ∈ chunks c →
  chunk_hash (createHash c) !! chunk
  = Some (digestOf outputOptions digest
            (chunkUpdates chunk (chunk_hash (createHash c))
               (chunk_renderedHash (createHash c)))) ∧
  chunk_renderedHash (createHash c) !! chunk
  = Some (truncate outputOptions
            (digestOf outputOptions digest
               (chunkUpdates chunk (chunk_hash (createHash c))
                  (chunk_renderedHash (createHash c))))).
Proof.
  intros Hin. rewrite createHash_eq. cbn [chunk_hash chunk_renderedHash].
  destruct (sorted_split chunk_hasRuntime (merge_sort (before chunk_hasRuntime) (chunks c)))
    as (l1 & l2 & Hsorted & Hl1 & Hl2).
  { apply StronglySorted_merge_sort; [apply before_trans|apply before_total]. }
  assert (Hmem : chunk ∈ l1 ∨ chunk ∈ l2).
  { rewrite <- elem_of_app, <- Hsorted.
    by rewrite (merge_sort_Permutation (before chunk_hasRuntime) (chunks c)). }
  rewrite Hsorted, foldl_app.
  destruct (foldl hashChunk (compilationUpdates c, chunk_hash c, chunk_renderedHash c) l1)
    as [[u1 h1] r1] eqn:E1.
  destruct (fold_runtime_digest l2 Hl2 u1 h1 r1) as (Hh & Hr & Hrun).
  destruct (decide (chunk ∈ l2)) as [H2|H2]; [by apply Hrun|].
  destruct Hmem as [H1|?]; [|done].
  assert (Hno : chunk_hasRuntime chunk = false).
  { rewrite Forall_forall in Hl1. by apply Hl1. }
  destruct (fold_other l2 u1 h1 r1 chunk H2) as [-> ->].
  destruct (fold_no_runtime_digest l1 Hl1 (compilationUpdates c) (chunk_hash c)
              (chunk_renderedHash c) chunk H1) as [Ea Eb].
  rewrite E1 in Ea, Eb. cbn [fst snd] in Ea, Eb. rewrite Ea, Eb.
  unfold chunkUpdates. by rewrite Hno.
Qed.

End ReadsNoRuntime.


End CreateHash.

End HashFacts.

Lemma createHash_hashes_are_digests_witness :
  let createHash :=
    Hasher.createHash hashOptions (λ _ updates _, String.concat "," updates)
      ["main"] ["chunk"] ["module"] (λ chunk, [pretty chunk]) ["jsonp"]
      readsLazyChunk (λ chunk, Nat.eqb chunk 0) in
  Hasher.chunk_hash (createHash staleHashes) !! 0 = Some "0,1,js" ∧
  Hasher.chunk_renderedHash (createHash staleHashes) !! 0 = Some "0,1,".
Proof.
  intros createHash.
  assert (Hin : 0 ∈ Hasher.chunks staleHashes) by left.
  pose proof (HashFacts.createHash_hashes_are_digests hashOptions
                (λ _ updates _, String.concat "," updates)
                ["main"] ["chunk"] ["module"] (λ chunk, [pretty chunk]) ["jsonp"]
                readsLazyChunk (λ chunk, Nat.eqb chunk 0)
                (λ chunk h1 r1 h2 r2 _ Hr, f_equal (λ o, [default "" o]) (Hr 1 eq_refl))
                staleHashes 0 Hin) as Hdigest.
  vm_compute in Hdigest. vm_compute. exact Hdigest.
Defined.


(** ** Dependency summary: [summarizeDependencies] *)

Module Summary.

(** A child compilation, after its own summary. *)
Record Child := mkChild {
  ch_fileDependencies : list string;
  ch_contextDependencies : list string;
  ch_missingDependencies : list string
}.

(** The fields of a module the summary reads; None: the field is not set. *)
Record ModuleDependencies := mkModuleDependencies {
  md_fileDependencies : option (list string);
  md_contextDependencies : option (list string)
}.

Record Compilation := mkCompilation {
  compilationDependencies : option (list string);  (* this.compilationDependencies *)
  children : list Child;                           (* this.children *)
  modules : list ModuleDependencies;               (* this.modules *)
  errors : list (option (list string));            (* error.missing of this.errors, when an array *)
  fileDependencies : list string;                  (* this.fileDependencies *)
  contextDependencies : list string;               (* this.contextDependencies *)
  missingDependencies : list string                (* this.missingDependencies *)
}.

(** filterDups(array): [prev] is array[i - 1], None for i = 0. *)
Fixpoint filterDupsFrom (prev : option string) (array : list string) : list string :=
  match array with
  | [] => []
  | x :: array =>
      (if decide (prev = Some x) then [] else [x]) ++ filterDupsFrom (Some x) array
  end.

Definition filterDups (array : list string) : list string := filterDupsFrom None array.

Section SummarizeDependencies.
(** The order of array.sort() on strings. *)
Variable le : relation string.
Context `{!RelDecision le}.

(** The three arrays before they are sorted. *)
Definition gathered (c : Compilation) : list string * list string * list string :=
  let start := (default [] (compilationDependencies c), [], []) in
  let afterChildren :=
    foldl (λ '(file, context, missing) child,
             (file ++ ch_fileDependencies child,
              context ++ ch_contextDependencies child,
              missing ++ ch_missingDependencies child)) start (children c) in
  let '(file, context, missing) :=
    foldl (λ '(file, context, missing) module,
             (file ++ default [] (md_fileDependencies module),
              context ++ default [] (md_contextDependencies module),
              missing)) afterChildren (modules c) in
  (file, context, foldl (λ missing error, missing ++ default [] error) missing (errors c)).

Definition summarizeDependencies (c : Compilation) : Compilation :=
  let '(file, context, missing) := gathered c in
  mkCompilation (compilationDependencies c) (children c) (modules c) (errors c)
    (filterDups (merge_sort le file))
    (filterDups (merge_sort le context))
    (filterDups (merge_sort le missing)).

(** What the summary reads for each of the three arrays. *)
Definition fileSources (c : Compilation) : list string :=
  default [] (compilationDependencies c)
    ++ (children c ≫= ch_fileDependencies)
    ++ (modules c ≫= λ m, default [] (md_fileDependencies m)).

Definition contextSources (c : Compilation) : list string :=
  (children c ≫= ch_contextDependencies)
    ++ (modules c ≫= λ m, default [] (md_contextDependencies m)).

Definition missingSources (c : Compilation) : list string :=
  (children c ≫= ch_missingDependencies) ++ (errors c ≫= default []).

Lemma gathered_sources (c : Compilation) :
  gathered c = (fileSources c, contextSources c, missingSources c).
Proof.
  unfold gathered, fileSources, contextSources, missingSources.
  assert (Hchildren : ∀ l f x m,
            foldl (λ '(file, context, missing) child,
                     (file ++ ch_fileDependencies child,
                      context ++ ch_contextDependencies child,
                      missing ++ ch_missingDependencies child)) (f, x, m) l
            = (f ++ (l ≫= ch_fileDependencies), x ++ (l ≫= ch_contextDependencies),
               m ++ (l ≫= ch_missingDependencies))).
  { induction l as [|child l IH]; intros f x m.
    - simpl. by rewrite !app_nil_r.
    - cbn [foldl]. by rewrite IH, !bind_cons, <- !(assoc_L (++)). }
  assert (Hmodules : ∀ l f x (m : list string),
            foldl (λ '(file, context, missing) module,
                     (file ++ default [] (md_fileDependencies module),
                      context ++ default [] (md_contextDependencies module),
                      missing)) (f, x, m) l
            = (f ++ (l ≫= λ m, default [] (md_fileDependencies m)),
               x ++ (l ≫= λ m, default [] (md_contextDependencies m)), m)).
  { induction l as [|module l IH]; intros f x m.
    - simpl. by rewrite !app_nil_r.
    - cbn [foldl]. by rewrite IH, !bind_cons, <- !(assoc_L (++)). }
  assert (Herrors : ∀ l (m : list string),
            foldl (λ missing error, missing ++ default [] error) m l
            = m ++ (l ≫= default [])).
  { induction l as [|error l IH]; intros m.
    - simpl. by rewrite app_nil_r.
    - cbn [foldl]. by rewrite IH, bind_cons, <- (assoc_L (++)). }
  rewrite Hchildren, Hmodules, Herrors. simpl. by rewrite <- (assoc_L (++)).
Qed.

Context `{!Transitive le, !Total le, !AntiSymm (=) le}.

(** On a sorted array whose elements are all at least [prev], filterDups
    keeps one copy of every element other than [prev]. *)
Lemma filterDupsFrom_sorted (array : list string) :
  StronglySorted le array →
  ∀ prev, (∀ p, prev = Some p → Forall (le p) array) →
  (∀ x, x ∈ filterDupsFrom prev array ↔ x ∈ array ∧ prev ≠ Some x) ∧
  NoDup (filterDupsFrom prev array) ∧
  filterDupsFrom prev array `sublist_of` array.
Proof.
  induction 1 as [|y rest Hrest IH Hy]; intros prev Hprev.
  - simpl. split; [|split; [constructor|done]].
    intros x. split; [by intros ?%elem_of_nil|by intros [?%elem_of_nil _]].
  - destruct (IH (Some y)) as (Hin & Hnd & Hsub); [by intros p [= <-]|].
    cbn [filterDupsFrom]. split; [|split].
    + intros x. rewrite elem_of_app, Hin, elem_of_cons. split.
      * intros [Hx|[Hx Hne]].
        -- case_decide as Hp; [by apply elem_of_nil in Hx|].
           apply list_elem_of_singleton in Hx as ->. by split; [left|].
        -- split; [by right|]. intros ->.
           apply Hne. f_equal. apply (anti_symm le).
           ++ rewrite Forall_forall in Hy. by apply Hy.
           ++ specialize (Hprev x eq_refl). by apply Forall_cons in Hprev as [? _].
      * intros [[->|Hx] Hne].
        -- left. rewrite decide_False by done. by apply list_elem_of_singleton.
        -- destruct (decide (x = y)) as [->|Hxy].
           ++ left. rewrite decide_False by done. by apply list_elem_of_singleton.
           ++ right. split; [done|congruence].
    + apply NoDup_app. split; [case_decide; [constructor|apply NoDup_singleton]|].
      split; [|done].
      intros x Hx. case_decide; [by apply elem_of_nil in Hx|].
      apply list_elem_of_singleton in Hx as ->. rewrite Hin. by intros [_ ?].
    + case_decide; simpl; [by apply sublist_cons|by apply sublist_skip].
Qed.

Lemma sublist_StronglySorted (l1 l2 : list string) :
  l1 `sublist_of` l2 → StronglySorted le l2 → StronglySorted le l1.
Proof.
  induction 1 as [|x l1 l2 Hsub IH|x l1 l2 Hsub IH]; intros Hs; [done| |].
  - apply StronglySorted_inv in Hs as [Hs Hx]. constructor; [by apply IH|].
    rewrite Forall_forall in Hx |- *. intros z Hz. apply Hx.
    by eapply elem_of_sublist.
  - apply StronglySorted_inv in Hs as [Hs _]. by apply IH.
Qed.

Lemma summary_field (l : list string) :
  (∀ x, x ∈ filterDups (merge_sort le l) ↔ x ∈ l) ∧
  NoDup (filterDups (merge_sort le l)) ∧
  StronglySorted le (filterDups (merge_sort le l)).
Proof.
  destruct (filterDupsFrom_sorted (merge_sort le l)
              (StronglySorted_merge_sort le l) None) as (Hin & Hnd & Hsub); [done|].
  split; [|split; [done|]].
  - intros x. unfold filterDups. rewrite Hin, (merge_sort_Permutation le l). naive_solver.
  - eapply sublist_StronglySorted; [exact Hsub|]. apply StronglySorted_merge_sort; apply _.
Qed.

(** X23: after [summarizeDependencies] each of this.fileDependencies,
    this.contextDependencies and this.missingDependencies holds exactly the
    strings of the arrays it is gathered from, every string once, in the
    order of the sort. *)
Theorem summarizeDependencies_sorted_sets (c : Compilation) :
  ((∀ x, x ∈ fileDependencies (summarizeDependencies c) ↔ x ∈ fileSources c) ∧
   NoDup (fileDependencies (summarizeDependencies c)) ∧
   StronglySorted le (fileDependencies (summarizeDependencies c))) ∧
  ((∀ x, x ∈ contextDependencies (summarizeDependencies c) ↔ x ∈ contextSources c) ∧
   NoDup (contextDependencies (summarizeDependencies c)) ∧
   StronglySorted le (contextDependencies (summarizeDependencies c))) ∧
  ((∀ x, x ∈ missingDependencies (summarizeDependencies c) ↔ x ∈ missingSources c) ∧
   NoDup (missingDependencies (summarizeDependencies c)) ∧
   StronglySorted le (missingDependencies (summarizeDependencies c))).
Proof.
  unfold summarizeDependencies. rewrite gathered_sources.
  cbn [fileDependencies contextDependencies missingDependencies].
  split; [apply summary_field|]. split; apply summary_field.
Qed.

End SummarizeDependencies.

End Summary.

From Stdlib Require OrderedTypeEx.

(** The order of array.sort() on strings of ASCII characters: by code
    units. *)
Definition codeUnitOrder : relation string := λ a b, String.leb a b = true.

#[local] Instance codeUnitOrder_dec : RelDecision codeUnitOrder.
Proof. intros a b. unfold codeUnitOrder. apply _. Defined.

Lemma codeUnitOrder_iff (a b : string) :
  codeUnitOrder a b ↔ a = b ∨ OrderedTypeEx.String_as_OT.lt a b.
Proof.
  unfold codeUnitOrder, String.leb.
  pose proof (OrderedTypeEx.String_as_OT.cmp_lt a b) as Hlt.
  pose proof (OrderedTypeEx.String_as_OT.cmp_eq a b) as Heq.
  unfold OrderedTypeEx.String_as_OT.cmp in Hlt, Heq.
  destruct (String.compare a b).
  - split; [|done]. intros _. left. by apply Heq.
  - split; [|done]. intros _. right. by apply Hlt.
  - split; [done|]. intros [H|H]; [by apply Heq in H|by apply Hlt in H].
Qed.

#[local] Instance codeUnitOrder_trans : Transitive codeUnitOrder.
Proof.
  intros a b c. rewrite !codeUnitOrder_iff.
  intros [->|Hab] [->|Hbc]; auto.
  right. by eapply OrderedTypeEx.String_as_OT.lt_trans.
Qed.

#[local] Instance codeUnitOrder_total : Total codeUnitOrder.
Proof. intros a b. apply String.leb_total. Qed.

#[local] Instance codeUnitOrder_antisym : AntiSymm (=) codeUnitOrder.
Proof. intros a b. apply String.leb_antisym. Qed.

(** A compilation with a child, two modules that share a file, and an error
    that lists a missing file twice. *)
Definition twoModules : Summary.Compilation :=
  Summary.mkCompilation (Some ["webpack.config.js"])
    [Summary.mkChild ["b.js"; "child.js"] ["src"] ["gone.js"]]
    [Summary.mkModuleDependencies (Some ["b.js"; "a.js"]) (Some ["src"; "lib"]);
     Summary.mkModuleDependencies (Some ["a.js"]) None]
    [Some ["gone.js"; "gone.js"]; None]
    [] [] [].

Lemma summarizeDependencies_sorted_sets_witness :
  Summary.fileDependencies (Summary.summarizeDependencies codeUnitOrder twoModules)
  = ["a.js"; "b.js"; "child.js"; "webpack.config.js"] ∧
  NoDup (Summary.fileDependencies (Summary.summarizeDependencies codeUnitOrder twoModules)) ∧
  NoDup (Summary.contextDependencies (Summary.summarizeDependencies codeUnitOrder twoModules)) ∧
  NoDup (Summary.missingDependencies (Summary.summarizeDependencies codeUnitOrder twoModules)).
Proof.
  destruct (Summary.summarizeDependencies_sorted_sets codeUnitOrder twoModules)
    as ((_ & Hfile & _) & (_ & Hcontext & _) & (_ & Hmissing & _)).
  split; [vm_compute; reflexivity|]. split; [exact Hfile|]. split; [exact Hcontext|exact Hmissing].
Defined.

(** ** More on [buildModule] *)

Module BuildFacts.

Import BuildQueue.

(** X24: the errors and warnings of a build are reported for the request that
    started it: with its origin and dependencies, and as warnings exactly
    when that request was optional, whatever the requests that joined the
    build passed for these. *)
Theorem build_reports_for_first_request (s : State) (m : ref) (o : bool)
    (org : option ref) (deps : option (list Dependency)) (c : cb) (es : list event)
    (merrors mwarnings : list ErrorObj) (error : option Error) :
  building s !! m = None → requests m es →
  ∃ s', exec (Build m o org deps c :: es
                ++ [Done (length (inflight s)) merrors mwarnings error]) s = Some s' ∧
    errors s'
    = (if o then errors s
       else errors s ++ ((λ e, mkErrorObj (eo_error e) org deps) <$> merrors)) ∧
    warnings s'
    = (if o then warnings s ++ ((λ e, mkErrorObj (eo_error e) org deps) <$> merrors)
       else warnings s)
        ++ ((λ e, mkErrorObj (eo_error e) org deps) <$> mwarnings).
Proof.
  intros Hb Hes.
  set (a := fresh (dom (arrays s))).
  set (k := mkClosure m a o org deps).
  change (Build m o org deps c :: es ++ [Done (length (inflight s)) merrors mwarnings error])
    with ([Build m o org deps c] ++ es ++ [Done (length (inflight s)) merrors mwarnings error]).
  rewrite exec_app. simpl. unfold buildModule. rewrite Hb. simpl. fold a. fold k.
  rewrite exec_app.
  rewrite (exec_requests m a [c] es); simpl;
    [|done|by rewrite lookup_insert_eq|by rewrite lookup_insert_eq].
  rewrite lookup_app_r, Nat.sub_diag by done. simpl.
  eexists. split; [done|]. simpl. split; reflexivity.
Qed.

End BuildFacts.

Lemma build_reports_for_first_request_witness :
  let failure := mkErrorObj (JsError "ModuleParseError" "Unexpected token") None None in
  ∃ s', BuildQueue.exec
          (BuildQueue.Build 5 true (Some 3) (Some [optionalDep]) 10
             :: [BuildQueue.Build 5 false (Some 4) (Some [requiredDep]) 11]
             ++ [BuildQueue.Done 0 [failure] [] None]) BuildQueue.init = Some s' ∧
    BuildQueue.errors s' = [] ∧
    BuildQueue.warnings s'
    = [mkErrorObj (JsError "ModuleParseError" "Unexpected token") (Some 3) (Some [optionalDep])].
Proof.
  intros failure.
  apply (BuildFacts.build_reports_for_first_request BuildQueue.init 5 true (Some 3)
           (Some [optionalDep]) 10
           [BuildQueue.Build 5 false (Some 4) (Some [requiredDep]) 11] [failure] [] None);
    [reflexivity|].
  repeat constructor. by eexists _, _, _, _.
Defined.

(** ** Entries: [addEntry] and [_addModuleChain] *)

Module Entries.

Abbreviation sref := nat (only parsing).  (* a slot object of this.preparedChunks *)
Abbreviation cb := nat (only parsing).    (* a callback function *)

(** The errors [_addModuleChain] creates or passes on. *)
Inductive EntryError :=
  | Thrown (message : string)               (* new Error(message) *)
  | EntryModuleNotFoundError (err : Error)  (* new EntryModuleNotFoundError(err) *)
  | Passed (err : Error).                   (* the error of a build or of the dependencies *)

Record ErrorRecord := mkErrorRecord {
  er_error : EntryError;
  er_dependencies : option (list Dependency)   (* err.dependencies *)
}.

(** { name: name, module: null } *)
Record Slot := mkSlot {
  slot_name : option string;
  slot_module : option ref
}.

(** The argument [entry] of [addEntry]. *)
Inductive Argument :=
  | NoDependency                 (* no object, null, or without constructor *)
  | Entry (d : Dependency).

(** What the closures of a call of [addEntry] hold. *)
Record Pending := mkPending {
  p_entry : Dependency;
  p_callback : cb
}.

Record State := mkState {
  preparedChunks : list sref;           (* this.preparedChunks *)
  slots : gmap sref Slot;               (* the slot objects *)
  allocated : nat;                      (* the slot objects created so far *)
  entries : list ref;                   (* this.entries *)
  entry_module : gmap nat ref;          (* entry.module, by the identity of the dependency *)
  issuer : gmap ref (option ref);       (* module.issuer, where [addEntry] has set it *)
  errors : list ErrorRecord;            (* this.errors *)
  pending : gmap sref Pending;          (* the chains the module factory has not answered *)
  invoked : list (cb * option ErrorRecord)  (* the calls callback(err) made so far *)
}.

Definition init : State := mkState [] ∅ 0 [] ∅ ∅ [] ∅ [].

(** How the chain of an entry ends. *)
Inductive outcome :=
  | FactoryFails (err : Error)               (* moduleFactory.create calls back with err *)
  | BuildFails (module : ref) (err : Error)  (* buildModule calls back with err *)
  | DependenciesFail (module : ref) (err : Error)
      (* processModuleDependencies calls back with err *)
  | Ready (module : ref).                    (* callback(null, module) *)

Section AddEntry.
Variable bail : bool.                         (* this.bail *)
Variable hasFactory : Dependency → bool.      (* this.dependencyFactories.get(dependency.constructor) *)
Variable constructorName : Dependency → string.

(** array.indexOf(x) *)
Fixpoint indexOf (array : list sref) (x : sref) : option nat :=
  match array with
  | [] => None
  | y :: array => if decide (y = x) then Some 0 else S <$> indexOf array x
  end.

(** array.splice(idx, 1), where idx is the result of indexOf: -1 counts
    from the end. *)
Definition splice1 (idx : option nat) (array : list sref) : list sref :=
  match idx with
  | Some i => delete i array
  | None => take (length array - 1) array
  end.

(** [addEntry context entry name callback] up to the return of
    moduleFactory.create: the exception thrown, if any, and the state. *)
Definition addEntry (entry : Argument) (name : option string) (callback : cb) (s : State)
    : option EntryError * State :=
  let slot := allocated s in
  let pushed (pending : gmap sref Pending) :=
    mkState (preparedChunks s ++ [slot]) (<[slot := mkSlot name None]> (slots s))
      (S (allocated s)) (entries s) (entry_module s) (issuer s) (errors s)
      pending (invoked s) in
  match entry with
  | NoDependency =>
      (Some (Thrown "Parameter 'dependency' must be a Dependency"), pushed (pending s))
  | Entry d =>
      if hasFactory d
      then (None, pushed (<[slot := mkPending d callback]> (pending s)))
      else (Some (Thrown ("No dependency factory available for this dependency type: "
                            +:+ constructorName d)),
            pushed (pending s))
  end.

(** The first closure [addEntry] hands to [_addModuleChain]. *)
Definition onModule (p : Pending) (module : ref) (s : State) : State :=
  mkState (preparedChunks s) (slots s) (allocated s)
    (entries s ++ [module])
    (<[dep_oid (p_entry p) := module]> (entry_module s))
    (<[module := None]> (issuer s))
    (errors s) (pending s) (invoked s).

(** The second closure [addEntry] hands to [_addModuleChain]. *)
Definition chainCallback (slot : sref) (p : Pending) (err : option ErrorRecord)
    (module : option ref) (s : State) : State :=
  match err with
  | Some e =>
      mkState (preparedChunks s) (slots s) (allocated s) (entries s) (entry_module s)
        (issuer s) (errors s) (pending s) (invoked s ++ [(p_callback p, Some e)])
  | None =>
      match module with
      | Some m =>
          mkState (preparedChunks s)
            (alter (λ sl, mkSlot (slot_name sl) (Some m)) slot (slots s))
            (allocated s) (entries s) (entry_module s) (issuer s) (errors s)
            (pending s) (invoked s ++ [(p_callback p, None)])
      | None =>
          mkState (splice1 (indexOf (preparedChunks s) slot) (preparedChunks s))
            (slots s) (allocated s) (entries s) (entry_module s) (issuer s) (errors s)
            (pending s) (invoked s ++ [(p_callback p, None)])
      end
  end.

(** errorAndCallback of [_addModuleChain] *)
Definition errorAndCallback (slot : sref) (p : Pending) (err : EntryError) (s : State)
    : State :=
  if bail then chainCallback slot p (Some (mkErrorRecord err None)) None s
  else
    let e := mkErrorRecord err (Some [p_entry p]) in
    chainCallback slot p None None
      (mkState (preparedChunks s) (slots s) (allocated s) (entries s) (entry_module s)
         (issuer s) (errors s ++ [e]) (pending s) (invoked s)).

(** The chain of the entry of [slot] ends with [o]. *)
Definition complete (slot : sref) (o : outcome) (s : State) : option State :=
  p ← pending s !! slot;
  let s := mkState (preparedChunks s) (slots s) (allocated s) (entries s) (entry_module s)
             (issuer s) (errors s) (delete slot (pending s)) (invoked s) in
  Some match o with
       | FactoryFails err => errorAndCallback slot p (EntryModuleNotFoundError err) s
       | BuildFails module err => errorAndCallback slot p (Passed err) (onModule p module s)
       | DependenciesFail module err =>
           chainCallback slot p (Some (mkErrorRecord (Passed err) None)) None
             (onModule p module s)
       | Ready module => chainCallback slot p None (Some module) (onModule p module s)
       end.

Inductive event :=
  | Add (entry : Argument) (name : option string) (callback : cb)
  | Complete (slot : sref) (o : outcome).

Definition fire (e : event) (s : State) : option State :=
  match e with
  | Add entry name callback => Some (addEntry entry name callback s).2
  | Complete slot o => complete slot o s
  end.

Fixpoint exec (t : list event) (s : State) : option State :=
  match t with
  | [] => Some s
  | e :: t => s' ← fire e s; exec t s'
  end.

(** What a trace tells: the slots whose removal it asks for when
    this.bail is off, the modules it makes ready, the modules it hands to
    onModule, and the number of calls of [addEntry]. *)
Definition dropped (t : list event) : list sref :=
  omap (λ e, match e with
             | Complete slot (FactoryFails _) | Complete slot (BuildFails _ _) => Some slot
             | _ => None
             end) t.

Definition readied (t : list event) : list (sref * ref) :=
  omap (λ e, match e with
             | Complete slot (Ready module) => Some (slot, module)
             | _ => None
             end) t.

Definition handed (t : list event) : list ref :=
  omap (λ e, match e with
             | Complete _ (BuildFails module _) | Complete _ (DependenciesFail module _)
             | Complete _ (Ready module) => Some module
             | _ => None
             end) t.

Definition adds (t : list event) : nat :=
  length (omap (λ e, match e with Add _ _ _ => Some e | _ => None end) t).

Record wf (s : State) : Prop := mkWf {
  wf_NoDup : NoDup (preparedChunks s);
  wf_allocated : ∀ slot, slot ∈ preparedChunks s → slot < allocated s;
  wf_pending : ∀ slot, is_Some (pending s !! slot) → slot ∈ preparedChunks s
}.

Lemma wf_new : wf init.
Proof.
  split; simpl.
  - constructor.
  - by intros slot ?%elem_of_nil.
  - intros slot [p Hp]. by rewrite lookup_empty in Hp.
Qed.

Lemma indexOf_None (array : list sref) (x : sref) : indexOf array x = None → x ∉ array.
Proof.
  induction array as [|y array IH]; simpl; [by intros _ ?%elem_of_nil|].
  case_decide as Hy; [done|].
  destruct (indexOf array x); [done|]. intros _ [?|?]%elem_of_cons; [done|by apply IH].
Qed.

Lemma filter_all (P : sref → Prop) `{!∀ y, Decision (P y)} (array : list sref) :
  (∀ y, y ∈ array → P y) → filter P array = array.
Proof.
  induction array as [|y array IH]; intros Hall; [done|].
  rewrite filter_cons_True by (apply Hall; left).
  f_equal. apply IH. intros z Hz. apply Hall. by right.
Qed.

Lemma splice1_indexOf (array : list sref) (x : sref) :
  NoDup array → x ∈ array → splice1 (indexOf array x) array = filter (λ y, y ≠ x) array.
Proof.
  induction 1 as [|y array Hy Hnd IH]; [by intros ?%elem_of_nil|].
  intros Hx. simpl. case_decide as Heq.
  - subst y. simpl. rewrite filter_cons_False by (by intros ?).
    symmetry. apply filter_all. intros z Hz ->. done.
  - rewrite filter_cons_True by done.
    apply elem_of_cons in Hx as [->|Hx]; [done|].
    destruct (indexOf array x) as [i|] eqn:Hi.
    + simpl. f_equal. by apply IH.
    + by apply indexOf_None in Hi.
Qed.

(** Whether the chain ended by errorAndCallback, and the module it handed
    to onModule. *)
Definition failsEarly (o : outcome) : bool :=
  match o with
  | FactoryFails _ | BuildFails _ _ => true
  | _ => false
  end.

(** The error errorAndCallback is called with. *)
Definition earlyError (o : outcome) : option EntryError :=
  match o with
  | FactoryFails err => Some (EntryModuleNotFoundError err)
  | BuildFails _ err => Some (Passed err)
  | _ => None
  end.

Definition moduleOf (o : outcome) : option ref :=
  match o with
  | FactoryFails _ => None
  | BuildFails module _ | DependenciesFail module _ | Ready module => Some module
  end.

Lemma complete_effect (slot : sref) (o : outcome) (s s' : State) :
  complete slot o s = Some s' →
  ∃ p, pending s !! slot = Some p ∧
    pending s' = delete slot (pending s) ∧
    allocated s' = allocated s ∧
    preparedChunks s'
    = (if negb bail && failsEarly o
       then splice1 (indexOf (preparedChunks s) slot) (preparedChunks s)
       else preparedChunks s) ∧
    slots s'
    = match o with
      | Ready module => alter (λ sl, mkSlot (slot_name sl) (Some module)) slot (slots s)
      | _ => slots s
      end ∧
    entries s' = entries s ++ option_list (moduleOf o) ∧
    errors s'
    = errors s ++ (if bail then []
                   else (λ e, mkErrorRecord e (Some [p_entry p]))
                          <$> option_list (earlyError o)) ∧
    ∃ err, invoked s' = invoked s ++ [(p_callback p, err)] ∧
           (err = None ↔ (bail = false ∧ failsEarly o = true) ∨ (∃ m, o = Ready m)).
Proof.
  unfold complete. destruct (pending s !! slot) as [p|]; [|done]. simpl.
  intros [= <-]. exists p. split; [done|].
  unfold errorAndCallback.
  destruct o as [err|module err|module err|module], bail; simpl;
    rewrite ?app_nil_r; repeat split; try done;
    eexists; (split; [reflexivity|]); naive_solver.
Qed.

Lemma addEntry_effect (entry : Argument) (name : option string) (callback : cb) (s : State) :
  preparedChunks (addEntry entry name callback s).2 = preparedChunks s ++ [allocated s] ∧
  slots (addEntry entry name callback s).2 = <[allocated s := mkSlot name None]> (slots s) ∧
  allocated (addEntry entry name callback s).2 = S (allocated s) ∧
  entries (addEntry entry name callback s).2 = entries s ∧
  errors (addEntry entry name callback s).2 = errors s ∧
  invoked (addEntry entry name callback s).2 = invoked s ∧
  pending (addEntry entry name callback s).2
  = match (addEntry entry name callback s).1, entry with
    | None, Entry d => <[allocated s := mkPending d callback]> (pending s)
    | _, _ => pending s
    end.
Proof.
  unfold addEntry. destruct entry as [|d]; [done|]. by destruct (hasFactory d).
Qed.

Lemma fire_wf (e : event) (s s' : State) : wf s → fire e s = Some s' → wf s'.
Proof.
  intros [Hnd Halloc Hpend]. destruct e as [entry name callback|slot o]; simpl.
  - intros [= <-].
    destruct (addEntry_effect entry name callback s) as (HP & _ & HA & _ & _ & _ & Hp).
    assert (Hfresh : allocated s ∉ preparedChunks s).
    { intros Hin. apply Halloc in Hin. lia. }
    split; rewrite ?HP, ?HA, ?Hp.
    + apply NoDup_app. split; [done|]. split; [|apply NoDup_singleton].
      intros x Hx ->%list_elem_of_singleton. done.
    + intros slot [Hin| ->%list_elem_of_singleton]%elem_of_app; [|lia].
      apply Halloc in Hin. lia.
    + intros slot Hsl. apply elem_of_app.
      destruct (addEntry entry name callback s).1, entry; try (left; by apply Hpend).
      destruct (decide (slot = allocated s)) as [->|Hne]; [right; left|].
      rewrite lookup_insert_ne in Hsl by done. left. by apply Hpend.
  - intros Hc. destruct (complete_effect slot o s s' Hc)
      as (p & Hp & Hpend' & HA & HP & _).
    assert (Hin : slot ∈ preparedChunks s) by (apply Hpend; by rewrite Hp).
    split; rewrite ?HP, ?HA, ?Hpend'.
    + destruct (negb bail && failsEarly o); [|done].
      rewrite splice1_indexOf by done. by apply NoDup_filter.
    + intros x Hx. apply Halloc.
      destruct (negb bail && failsEarly o); [|done].
      rewrite splice1_indexOf in Hx by done. by apply list_elem_of_filter in Hx as [_ ?].
    + intros x [q Hq]. apply lookup_delete_Some in Hq as [Hne Hq].
      assert (x ∈ preparedChunks s) by (apply Hpend; by rewrite Hq).
      destruct (negb bail && failsEarly o); [|done].
      rewrite splice1_indexOf by done. apply list_elem_of_filter. by split.
Qed.

Lemma exec_wf (t : list event) : ∀ s s', wf s → exec t s = Some s' → wf s'.
Proof.
  induction t as [|e t IH]; intros s s' Hwf; simpl; [by intros [= <-]|].
  destruct (fire e s) as [s1|] eqn:Hfire; [|done]. simpl.
  apply IH. by eapply fire_wf.
Qed.

(** The slots whose chain has ended, the slots removed, and the errors put
    into this.errors, by a trace. *)
Definition completed (t : list event) : list sref :=
  omap (λ e, match e with Complete slot _ => Some slot | _ => None end) t.

Definition removed (t : list event) : list sref := if bail then [] else dropped t.

Definition reported (t : list event) : list EntryError :=
  if bail then []
  else omap (λ e, match e with Complete _ o => earlyError o | _ => None end) t.

Lemma dropped_completed (t : list event) (slot : sref) :
  slot ∈ dropped t → slot ∈ completed t.
Proof.
  unfold dropped, completed. rewrite !list_elem_of_omap.
  intros (e & He & Hslot). exists e. split; [done|].
  destruct e as [| slot' []]; naive_solver.
Qed.

Lemma removed_completed (t : list event) (slot : sref) :
  slot ∈ removed t → slot ∈ completed t.
Proof.
  unfold removed. destruct bail; [by intros ?%elem_of_nil|apply dropped_completed].
Qed.

Lemma readied_completed (t : list event) (slot : sref) (m : ref) :
  (slot, m) ∈ readied t → slot ∈ completed t.
Proof.
  unfold readied, completed. rewrite !list_elem_of_omap.
  intros (e & He & Hslot). exists e. split; [done|].
  destruct e as [| slot' []]; naive_solver.
Qed.

Lemma exec_snoc (t : list event) (e : event) (s : State) :
  exec (t ++ [e]) s = s' ← exec t s; fire e s'.
Proof.
  revert s. induction t as [|e' t IH]; intros s; simpl.
  - by destruct (fire e s).
  - destruct (fire e' s); simpl; [apply IH|done].
Qed.

(** What a trace from a new compilation leaves. *)
Record traced (t : list event) (s : State) : Prop := mkTraced {
  tr_wf : wf s;
  tr_allocated : allocated s = adds t;
  tr_completed : ∀ slot, slot ∈ completed t → slot < adds t ∧ pending s !! slot = None;
  tr_once : NoDup (completed t);
  tr_prepared : preparedChunks s = filter (λ slot, slot ∉ removed t) (seq 0 (adds t));
  tr_slots : ∀ slot, slot < adds t →
               ∃ sl, slots s !! slot = Some sl ∧
                     ∀ m, slot_module sl = Some m ↔ (slot, m) ∈ readied t;
  tr_entries : entries s = handed t;
  tr_errors : er_error <$> errors s = reported t;
  tr_dependencies : Forall (λ e, ∃ d, er_dependencies e = Some [d]) (errors s);
  tr_invoked : length (invoked s) = length (completed t)
}.

Lemma traced_init : traced [] init.
Proof.
  split; simpl; try done.
  - apply wf_new.
  - by intros slot ?%elem_of_nil.
  - constructor.
  - intros slot Hslot. unfold adds in Hslot. simpl in Hslot. lia.
  - unfold reported. by destruct bail.
Qed.

Lemma traced_add (t : list event) (s : State) (entry : Argument) (name : option string)
    (callback : cb) :
  traced t s → traced (t ++ [Add entry name callback]) (addEntry entry name callback s).2.
Proof.
  intros [Hwf Ha Hc Honce HP Hs He Hr Hd Hi].
  destruct (addEntry_effect entry name callback s) as (HP' & Hs' & Ha' & He' & Hr' & Hi' & Hp').
  assert (Hadds : adds (t ++ [Add entry name callback]) = S (adds t)).
  { unfold adds. rewrite omap_app, length_app. simpl. lia. }
  assert (Hcompleted : completed (t ++ [Add entry name callback]) = completed t).
  { unfold completed. rewrite omap_app. simpl. by rewrite app_nil_r. }
  assert (Hremoved : removed (t ++ [Add entry name callback]) = removed t).
  { unfold removed, dropped. rewrite omap_app. simpl. by rewrite app_nil_r. }
  assert (Hreadied : readied (t ++ [Add entry name callback]) = readied t).
  { unfold readied. rewrite omap_app. simpl. by rewrite app_nil_r. }
  assert (Hfresh : adds t ∉ completed t).
  { intros Hin. apply Hc in Hin as [? _]. lia. }
  split; rewrite ?Hadds, ?Hcompleted, ?Hremoved, ?Hreadied.
  - eapply (fire_wf (Add entry name callback)); [exact Hwf|done].
  - by rewrite Ha', Ha.
  - intros slot Hslot. destruct (Hc slot Hslot) as [Hlt Hnone]. split; [lia|].
    rewrite Hp'. destruct (addEntry entry name callback s).1, entry; try done.
    rewrite lookup_insert_ne; [done|]. lia.
  - done.
  - rewrite HP', HP, Ha, seq_S, filter_app. f_equal. simpl.
    rewrite filter_cons_True; [done|].
    intros Hin. by apply Hfresh, removed_completed.
  - intros slot Hslot. rewrite Hs', Ha.
    destruct (decide (slot = adds t)) as [->|Hne].
    + rewrite lookup_insert_eq. eexists. split; [done|]. simpl.
      intros m. split; [done|]. intros Hin. exfalso.
      by apply Hfresh, (readied_completed _ _ m).
    + rewrite lookup_insert_ne by done. apply Hs. lia.
  - rewrite He', He. unfold handed. rewrite omap_app. simpl. by rewrite app_nil_r.
  - rewrite Hr', Hr. unfold reported. destruct bail; [done|].
    rewrite omap_app. simpl. by rewrite app_nil_r.
  - by rewrite Hr'.
  - by rewrite Hi'.
Qed.

Lemma traced_complete (t : list event) (s s' : State) (slot : sref) (o : outcome) :
  traced t s → complete slot o s = Some s' → traced (t ++ [Complete slot o]) s'.
Proof.
  intros [Hwf Ha Hc Honce HP Hs He Hr Hd Hi] Hfire.
  destruct (complete_effect slot o s s' Hfire)
    as (p & Hp & Hp' & Ha' & HP' & Hs' & He' & Hr' & err & Hi' & _).
  assert (Hadds : adds (t ++ [Complete slot o]) = adds t).
  { unfold adds. rewrite omap_app, length_app. simpl. lia. }
  assert (Hcompleted : completed (t ++ [Complete slot o]) = completed t ++ [slot]).
  { unfold completed. by rewrite omap_app. }
  assert (Hdropped : dropped (t ++ [Complete slot o])
                     = dropped t ++ if failsEarly o then [slot] else []).
  { unfold dropped. rewrite omap_app. by destruct o. }
  assert (Hreadied : readied (t ++ [Complete slot o])
                     = readied t ++ match o with Ready m => [(slot, m)] | _ => [] end).
  { unfold readied. rewrite omap_app. by destruct o. }
  assert (Hin : slot ∈ preparedChunks s) by (apply (wf_pending s Hwf); by rewrite Hp).
  assert (Hnew : slot ∉ completed t).
  { intros Hold. apply Hc in Hold as [_ Hnone]. congruence. }
  split; rewrite ?Hadds.
  - eapply (fire_wf (Complete slot o)); [exact Hwf|done].
  - by rewrite Ha'.
  - intros x. rewrite Hcompleted, Hp'.
    intros [Hx| ->%list_elem_of_singleton]%elem_of_app.
    + destruct (Hc x Hx) as [Hlt Hnone]. split; [done|].
      apply lookup_delete_None. by right.
    + split; [|apply lookup_delete_eq].
      rewrite <- Ha. by apply (wf_allocated s Hwf).
  - rewrite Hcompleted. apply NoDup_app. split; [done|]. split; [|apply NoDup_singleton].
    intros x Hx ->%list_elem_of_singleton. done.
  - assert (Hsplice : splice1 (indexOf (preparedChunks s) slot) (preparedChunks s)
                      = filter (λ x, x ≠ slot) (preparedChunks s))
      by (apply splice1_indexOf; [apply (wf_NoDup s Hwf)|done]).
    rewrite HP', Hsplice, HP. unfold removed. rewrite Hdropped.
    destruct bail; simpl; [done|].
    destruct (failsEarly o).
    + rewrite list_filter_filter. apply list_filter_iff. intros x.
      rewrite not_elem_of_app, list_elem_of_singleton. tauto.
    + by rewrite app_nil_r.
  - intros x Hx. rewrite Hs', Hreadied. destruct (Hs x Hx) as (sl & Hsl & Hm).
    destruct o as [err0|module err0|module err0|module];
      try (exists sl; split; [done|]; intros m; rewrite app_nil_r; apply Hm).
    destruct (decide (x = slot)) as [->|Hne].
    + rewrite lookup_alter_eq, Hsl. simpl. eexists. split; [done|]. simpl.
      intros m. rewrite elem_of_app, list_elem_of_singleton. split.
      * intros [= ->]. by right.
      * intros [Hold|[= ->]]; [|done].
        by apply readied_completed in Hold.
    + rewrite lookup_alter_ne by done. exists sl. split; [done|].
      intros m. rewrite elem_of_app, list_elem_of_singleton, Hm. naive_solver.
  - rewrite He', He. unfold handed. rewrite omap_app. by destruct o.
  - rewrite Hr', fmap_app, Hr. unfold reported. destruct bail; [by rewrite app_nil_r|].
    rewrite omap_app. by destruct o.
  - rewrite Hr'. apply Forall_app. split; [done|].
    destruct bail; [constructor|]. destruct (earlyError o); simpl; [|constructor].
    constructor; [by eexists|constructor].
  - rewrite Hi', Hcompleted, !length_app, Hi. done.
Qed.

Lemma exec_traced (t : list event) (s : State) : exec t init = Some s → traced t s.
Proof.
  revert s. induction t as [|e t IH] using rev_ind; intros s.
  - simpl. intros [= <-]. apply traced_init.
  - rewrite exec_snoc. destruct (exec t init) as [s0|]; [|done]. simpl.
    specialize (IH s0 eq_refl). destruct e as [entry name callback|slot o]; simpl.
    + intros [= <-]. by apply traced_add.
    + by apply traced_complete.
Qed.

Lemma exec_append (t1 t2 : list event) (s : State) :
  exec (t1 ++ t2) s = s' ← exec t1 s; exec t2 s'.
Proof.
  revert s. induction t1 as [|e t1 IH]; intros s; simpl; [done|].
  destruct (fire e s); simpl; [apply IH|done].
Qed.

(** A slot without a pending chain never gets one. *)
Lemma not_pending_stays (slot : sref) (t : list event) :
  ∀ s s', exec t s = Some s' → pending s !! slot = None → slot < allocated s →
  slot ∉ completed t.
Proof.
  induction t as [|e t IH]; intros s s' Hexec Hnone Hlt; [by intros ?%elem_of_nil|].
  simpl in Hexec. destruct (fire e s) as [s1|] eqn:Hfire; [|done]. simpl in Hexec.
  destruct e as [entry name callback|x o]; simpl in Hfire.
  - injection Hfire as <-.
    destruct (addEntry_effect entry name callback s) as (_ & _ & Ha & _ & _ & _ & Hp).
    change (completed (Add entry name callback :: t)) with (completed t).
    apply (IH _ _ Hexec); [|lia].
    rewrite Hp. destruct (addEntry entry name callback s).1, entry; try done.
    rewrite lookup_insert_ne; [done|lia].
  - destruct (complete_effect x o s s1 Hfire) as (p & Hp & Hp' & Ha & _).
    change (completed (Complete x o :: t)) with (x :: completed t).
    apply not_elem_of_cons. split; [congruence|].
    apply (IH _ _ Hexec); [|lia].
    rewrite Hp'. apply lookup_delete_None. by right.
Qed.


(** X25: after any calls of [addEntry] and answers of their chains on a new
    compilation, this.preparedChunks holds, in call order, the slots of the
    calls except those whose chain ended in errorAndCallback while this.bail
    is off, and a slot has a module exactly when its chain ended with that
    module. *)
Theorem addEntry_slots (t : list event) (s : State) :
  exec t init = Some s →
  preparedChunks s = filter (λ slot, slot ∉ removed t) (seq 0 (adds t)) ∧
  ∀ slot, slot < adds t →
    ∃ sl, slots s !! slot = Some sl ∧
          ∀ m, slot_module sl = Some m ↔ (slot, m) ∈ readied t.
Proof.
  intros Hexec. destruct (exec_traced t s Hexec) as [_ _ _ _ HP Hs _ _ _ _]. by split.
Qed.


(** X27: with this.bail off, an entry whose build fails stays in this.entries
    while its slot is taken out of this.preparedChunks. *)
Theorem addEntry_failed_build_stays_entry (t : list event) (s : State)
    (slot : sref) (module : ref) (err : Error) :
  bail = false →
  exec t init = Some s →
  Complete slot (BuildFails module err) ∈ t →
  module ∈ entries s ∧ slot ∉ preparedChunks s.
Proof.
  intros Hbail Hexec Hin.
  destruct (exec_traced t s Hexec) as [_ _ _ _ HP _ He _ _ _]. split.
  - rewrite He. apply list_elem_of_omap. by eexists.
  - rewrite HP. intros [Hkeep _]%list_elem_of_filter. apply Hkeep.
    unfold removed. rewrite Hbail. apply list_elem_of_omap. by eexists.
Qed.


(** X29: a call of [addEntry] that throws (no dependency, or no factory for
    it) has pushed its slot before: the slot stays in this.preparedChunks
    without a module, whatever calls and answers follow. *)
Theorem addEntry_throw_leaves_slot (t1 t2 : list event) (entry : Argument)
    (name : option string) (callback : cb) (s1 s2 : State) (err : EntryError) :
  exec t1 init = Some s1 →
  (addEntry entry name callback s1).1 = Some err →
  exec t2 (addEntry entry name callback s1).2 = Some s2 →
  adds t1 ∈ preparedChunks s2 ∧
  ∃ sl, slots s2 !! adds t1 = Some sl ∧ slot_module sl = None.
Proof.
  intros H1 Hthrow H2.
  pose proof (exec_traced t1 s1 H1) as [Hwf1 Ha1 Hc1 _ _ _ _ _ _ _].
  destruct (addEntry_effect entry name callback s1) as (_ & _ & Ha & _ & _ & _ & Hp).
  rewrite Hthrow in Hp.
  assert (Hexec : exec (t1 ++ [Add entry name callback] ++ t2) init = Some s2).
  { rewrite exec_append, H1. simpl. exact H2. }
  pose proof (exec_traced _ s2 Hexec) as [_ _ _ _ HP Hs _ _ _ _].
  assert (Hadds : adds (t1 ++ [Add entry name callback] ++ t2) = adds t1 + S (adds t2)).
  { unfold adds. rewrite !omap_app, !length_app. simpl. lia. }
  assert (Hnever : adds t1 ∉ completed (t1 ++ [Add entry name callback] ++ t2)).
  { unfold completed. rewrite !omap_app. simpl.
    intros [Hin|Hin]%elem_of_app.
    - apply Hc1 in Hin as [? _]. lia.
    - revert Hin. apply (not_pending_stays (adds t1) t2 _ _ H2); [|lia].
      rewrite Hp, <- Ha1.
      destruct (pending s1 !! allocated s1) as [p|] eqn:Hpend; [|done].
      assert (allocated s1 ∈ preparedChunks s1)
        by (apply (wf_pending s1 Hwf1); by rewrite Hpend).
      apply (wf_allocated s1 Hwf1) in H. lia. }
  split.
  - rewrite HP. apply list_elem_of_filter. split.
    + intros Hin. by apply Hnever, removed_completed.
    + rewrite Hadds. apply elem_of_seq. lia.
  - destruct (Hs (adds t1)) as (sl & Hsl & Hm); [rewrite Hadds; lia|].
    exists sl. split; [done|].
    destruct (slot_module sl) as [m|] eqn:Hmod; [|done]. exfalso.
    apply Hnever, (readied_completed _ _ m). by apply Hm.
Qed.

End AddEntry.

End Entries.

(** Two entries: the build of the first fails, the second gets its
    module. *)
Definition twoEntries : list Entries.event :=
  [Entries.Add (Entries.Entry requiredDep) (Some "main") 10;
   Entries.Add (Entries.Entry optionalDep) (Some "other") 11;
   Entries.Complete 0 (Entries.BuildFails 5 (JsError "ModuleBuildError" "failed"));
   Entries.Complete 1 (Entries.Ready 6)].

Lemma addEntry_slots_witness :
  ∃ s, Entries.exec false (λ _, true) (λ _, "SingleEntryDependency") twoEntries Entries.init
       = Some s ∧
       Entries.preparedChunks s = [1] ∧
       Entries.slots s !! 1 = Some (Entries.mkSlot (Some "other") (Some 6)).
Proof.
  eexists. split; [reflexivity|].
  destruct (Entries.addEntry_slots false (λ _, true) (λ _, "SingleEntryDependency")
              twoEntries _ eq_refl) as [HP _].
  split; [exact HP|reflexivity].
Defined.


Lemma addEntry_failed_build_stays_entry_witness :
  ∃ s, Entries.exec false (λ _, true) (λ _, "SingleEntryDependency") twoEntries Entries.init
       = Some s ∧
       5 ∈ Entries.entries s ∧ 0 ∉ Entries.preparedChunks s.
Proof.
  eexists. split; [reflexivity|].
  apply (Entries.addEntry_failed_build_stays_entry false (λ _, true)
           (λ _, "SingleEntryDependency") twoEntries _ 0 5
           (JsError "ModuleBuildError" "failed") eq_refl eq_refl).
  unfold twoEntries. do 2 right. left.
Defined.


Lemma addEntry_throw_leaves_slot_witness :
  let s1 := Entries.init in
  let thrown := Entries.addEntry (λ _, false) (λ _, "SingleEntryDependency")
                  (Entries.Entry requiredDep) (Some "main") 10 s1 in
  ∃ s2, Entries.exec false (λ _, false) (λ _, "SingleEntryDependency")
          [Entries.Add Entries.NoDependency None 11] thrown.2 = Some s2 ∧
        0 ∈ Entries.preparedChunks s2 ∧
        ∃ sl, Entries.slots s2 !! 0 = Some sl ∧ Entries.slot_module sl = None.
Proof.
  intros s1 thrown. eexists. split; [reflexivity|].
  apply (Entries.addEntry_throw_leaves_slot false (λ _, false)
           (λ _, "SingleEntryDependency") [] [Entries.Add Entries.NoDependency None 11]
           (Entries.Entry requiredDep) (Some "main") 10 Entries.init _
           (Entries.Thrown ("No dependency factory available for this dependency type: "
                              +:+ "SingleEntryDependency")));
    reflexivity.
Defined.
